(** * Gradr: the OCR job queue (backend/db.js, backend/worker.js)

    A shallow embedding of the SQLite-backed job queue and of the worker
    that drains it, followed by the properties of the queue's state
    machine, claim scheduler, backoff policy and serial allocator.

    Modelling conventions.
    - The [jobs] table is the list of its rows in rowid order; the
      [folders] table is a finite map from folder name to [last_serial].
    - SQLite INTEGER columns and the JavaScript integers bound to them are
      unbounded integers [Z] (the 64-bit and 2^53 limits are out of reach of
      epoch seconds, attempt counts and serials).
    - [strftime('%s','now')] and [Math.floor(Date.now() / 1000)] are the
      parameter [now] of each operation: better-sqlite3 runs every
      statement synchronously, and one operation reads one clock value.
    - [Math.random()] is the parameter [rnd].  A JavaScript number that is
      finite is the rational it denotes, and every arithmetic operation on
      such numbers gives the double nearest to the exact result (round to
      nearest, ties to even, gradual underflow).  Overflow to [Infinity],
      [NaN] and the sign of zero are left out: no value here comes near
      [2^1024], and nothing divides by a computed zero.
    - A JavaScript exception is a result [None]; a transaction that
      throws leaves the database as it was. *)

From Stdlib Require Import ZArith QArith Qround Qpower Qabs Lia Lqa.
From Stdlib Require Import DecimalString DecimalZ DecimalPos DecimalN.
From stdpp Require Import gmap strings list sorting.

Local Open Scope Z_scope.

(** ** Schema *)

(** [status TEXT NOT NULL]: queued | processing | done | failed. *)
Inductive job_status : Set := queued | processing | done | failed.

#[global] Instance job_status_eq_dec : EqDecision job_status.
Proof. solve_decision. Defined.

Definition status_eqb (a b : job_status) : bool :=
  match a, b with
  | queued, queued | processing, processing | done, done | failed, failed => true
  | _, _ => false
  end.

(** One row of [jobs]. *)
Record job : Set := mkJob {
  id : Z;
  folder : string;
  image_path : string;
  text_path : string;
  status : job_status;
  attempts : Z;
  last_error : option string;
  priority : Z;
  available_at : Z;
  created_at : Z;
  updated_at : Z
}.

#[global] Instance job_eq_dec : EqDecision job.
Proof. solve_decision. Defined.

(** The database: the [jobs] rows, the AUTOINCREMENT high-water mark of
    [jobs.id] (sqlite_sequence), and the [folders] table. *)
Record db : Type := mkDb {
  jobs : list job;
  jobs_seq : Z;
  folders : gmap string Z
}.

Definition empty_db : db := mkDb [] 0 ∅.

(** The row shape returned by [claimStmt]:
    [SELECT id, folder, image_path, text_path, attempts]. *)
Module Claimed.
Record row : Set := mk {
  id : Z;
  folder : string;
  image_path : string;
  text_path : string;
  attempts : Z
}.
End Claimed.

Definition claimed_of (j : job) : Claimed.row :=
  Claimed.mk (id j) (folder j) (image_path j) (text_path j) (attempts j).

(** ** Double-precision numbers

    The doubles are the rationals [m * 2^e] with [|m| < 2^53] and
    [e >= -1074]; [to_double] is the rounding every JavaScript arithmetic
    operation ends with. *)

Definition pow2 (e : Z) : Q := Qpower 2 e.

(** The binary exponent of a positive rational: [2^e <= q < 2^(e+1)]. *)
Definition Qlog2 (q : Q) : Z :=
  let e := Z.log2 (Qnum q) - Z.log2 (Zpos (Qden q)) in
  if Qle_bool (pow2 e) q then e else e - 1.

(** The nearest integer, the even one of two that are equally near. *)
Definition round_half_even (x : Q) : Z :=
  let f := Qfloor x in
  match (x - inject_Z f ?= 1 # 2)%Q with
  | Lt => f
  | Gt => f + 1
  | Eq => if Z.even f then f else f + 1
  end.

(** The gap between the doubles around [q]: 53 significant bits, and
    [2^-1074] below the normal range. *)
Definition ulp (q : Q) : Q := pow2 (Z.max (Qlog2 (Qabs q)) (-1022) - 52).

(** The double nearest to [q]. *)
Definition to_double (q : Q) : Q :=
  if Qeq_bool q 0 then 0%Q
  else (inject_Z (round_half_even (q / ulp q)) * ulp q)%Q.

(** The largest double, and the rationals that round to a finite one. *)
Definition double_max : Q := (pow2 1024 - pow2 971)%Q.

Definition fits (q : Q) : Prop := (Qabs (to_double q) <= double_max)%Q.

(** [a + b], [a - b], [a * b] and [a / b] on numbers *)
Definition double_add (a b : Q) : Q := to_double (a + b).
Definition double_sub (a b : Q) : Q := to_double (a - b).
Definition double_mul (a b : Q) : Q := to_double (a * b).
Definition double_div (a b : Q) : Q := to_double (a / b).

(** ** Tunables (environment overrides with their defaults) *)

(** The last field is not a tunable but comes with them: what the engine's
    [Math.pow] returns for an exponent that is not zero.  ECMAScript asks
    only for an approximation of the power there. *)
Record tunables : Set := mkTunables {
  CONCURRENCY : Z;
  MAX_ATTEMPTS : Z;
  BACKOFF_BASE : Q;
  BACKOFF_FACTOR : Q;
  BACKOFF_JITTER : Q;
  STALE_SECS : Z;
  pow_approx : Q → Z → Q
}.

(** The defaults, [0.2] being the double of that name, with an engine whose
    powers are correctly rounded. *)
Definition default_tunables : tunables :=
  mkTunables 4 3 (5 # 1) (2 # 1) (to_double (2 # 10)) (15 * 60)
    (λ b e, to_double (Qpower b e)).

(** ** SQL statement forms

    [UPDATE t SET ... WHERE p] rewrites the rows matching [p] in place and
    reports how many matched; [DELETE FROM t WHERE p] drops them. *)

Definition sql_update (p : job → bool) (f : job → job) (t : list job) : list job :=
  map (λ j, if p j then f j else j) t.

Definition sql_changes (p : job → bool) (t : list job) : nat :=
  length (List.filter p t).

Definition sql_delete (p : job → bool) (t : list job) : list job :=
  List.filter (λ j, negb (p j)) t.

(** [LIMIT n]: a negative [n] means no upper bound (SQLite). *)
Definition sql_limit {A} (n : Z) (l : list A) : list A :=
  if n <? 0 then l else take (Z.to_nat n) l.

(** ** Serial helpers *)

(** [INSERT INTO folders(folder, last_serial) VALUES(?, 0)
     ON CONFLICT(folder) DO NOTHING] *)
Definition upsertFolder (f : string) (m : gmap string Z) : gmap string Z :=
  match m !! f with
  | Some _ => m
  | None => <[f := 0]> m
  end.

(** [UPDATE folders SET last_serial = last_serial + 1 WHERE folder = ?] *)
Definition incSerial (f : string) (m : gmap string Z) : gmap string Z :=
  alter (λ n, n + 1) f m.

(** [SELECT last_serial FROM folders WHERE folder = ?] *)
Definition getSerial (f : string) (m : gmap string Z) : option Z := m !! f.

(** [nextSerial(folder)]: the three statements in one transaction.  Reading
    [row.last_serial] of a missing row throws, which rolls back. *)
Definition nextSerial (f : string) (d : db) : option Z * db :=
  let m1 := upsertFolder f (folders d) in
  let m2 := incSerial f m1 in
  match getSerial f m2 with
  | Some v => (Some v, mkDb (jobs d) (jobs_seq d) m2)
  | None => (None, d)
  end.

(** [n] calls of [nextSerial] for the same folder, one after the other;
    the serials are returned in call order. *)
Fixpoint nextSerials (n : nat) (f : string) (d : db) : list (option Z) * db :=
  match n with
  | O => ([], d)
  | S k =>
      let '(v, d1) := nextSerial f d in
      let '(vs, d2) := nextSerials k f d1 in
      (v :: vs, d2)
  end.

(** ** Job helpers *)

(** [insertJob] through [enqueueJob]: status 'queued', attempts 0,
    [created_at] and [updated_at] by their column defaults. *)
Definition enqueueJob (now : Z) (fld img txt : string) (prio delaySeconds : Z)
    (d : db) : db :=
  let i := jobs_seq d + 1 in
  mkDb (jobs d ++ [mkJob i fld img txt queued 0 None prio (now + delaySeconds) now now])
       i (folders d).

(** The text that [requeueStaleStmt] appends. *)
Definition stale_note : string := "[auto] requeued stale processing job".

Definition newline : string := String (Ascii.ascii_of_nat 10) EmptyString.

(** [COALESCE(last_error, '') ||
     CASE WHEN last_error IS NULL OR last_error = '' THEN '' ELSE '\n' END ||
     '[auto] requeued stale processing job'] *)
Definition stale_error (e : option string) : string :=
  let prior := default EmptyString e in
  let sep := match e with
             | None => EmptyString
             | Some s => if decide (s = EmptyString) then EmptyString else newline
             end in
  prior +:+ sep +:+ stale_note.

Definition is_stale (now stale : Z) (j : job) : bool :=
  status_eqb (status j) processing && (updated_at j <=? now - stale).

Definition requeue_row (now : Z) (j : job) : job :=
  mkJob (id j) (folder j) (image_path j) (text_path j) queued (attempts j)
        (Some (stale_error (last_error j))) (priority j) now (created_at j) now.

(** [requeueStaleStmt.run({ stale })]: the new table and [.changes]. *)
Definition requeueStaleStmt (now stale : Z) (t : list job) : nat * list job :=
  (sql_changes (is_stale now stale) t,
   sql_update (is_stale now stale) (requeue_row now) t).

(** [requeueStaleJobs(staleSeconds = STALE_SECS)] *)
Definition requeueStaleJobs (now staleSeconds : Z) (d : db) : nat * db :=
  let '(n, t) := requeueStaleStmt now staleSeconds (jobs d) in
  (n, mkDb t (jobs_seq d) (folders d)).

(** [WHERE status='queued' AND available_at <= strftime('%s','now')] *)
Definition eligible (now : Z) (j : job) : bool :=
  status_eqb (status j) queued && (available_at j <=? now).

(** [ORDER BY priority DESC, available_at ASC, id ASC]: [claim_ltb a b] when
    [a] sorts strictly before [b]. *)
Definition claim_ltb (a b : job) : bool :=
  (priority b <? priority a)
  || ((priority a =? priority b)
      && ((available_at a <? available_at b)
          || ((available_at a =? available_at b) && (id a <? id b)))).

Definition claim_le (a b : job) : Prop := claim_ltb b a = false.

#[global] Instance claim_le_dec (a b : job) : Decision (claim_le a b).
Proof. unfold claim_le. apply _. Defined.

(** The rows [claimStmt] selects, before the column projection. *)
Definition claim_candidates (now limit : Z) (t : list job) : list job :=
  sql_limit limit (merge_sort claim_le (List.filter (eligible now) t)).

(** [claimStmt.all({ limit })] *)
Definition claimStmt (now limit : Z) (t : list job) : list Claimed.row :=
  map claimed_of (claim_candidates now limit t).

Definition mark_matches (i : Z) (j : job) : bool :=
  (id j =? i) && status_eqb (status j) queued.

Definition processing_row (now : Z) (j : job) : job :=
  mkJob (id j) (folder j) (image_path j) (text_path j) processing (attempts j)
        (last_error j) (priority j) (available_at j) (created_at j) now.

(** [markProcessing.run({ id })]: [.changes] and the new table. *)
Definition markProcessing (now i : Z) (t : list job) : nat * list job :=
  (sql_changes (mark_matches i) t,
   sql_update (mark_matches i) (processing_row now) t).

(** The [for (const r of rows)] loop of [claimJobs]: the table and the
    [claimed] array are threaded through the iterations. *)
Fixpoint claim_loop (now : Z) (rows : list Claimed.row)
    (t : list job) (claimed : list Claimed.row) : list Claimed.row * list job :=
  match rows with
  | [] => (claimed, t)
  | r :: rest =>
      let '(changes, t1) := markProcessing now (Claimed.id r) t in
      claim_loop now rest t1
        (if Nat.eqb changes 1 then claimed ++ [r] else claimed)
  end.

Section Store.
Context (cfg : tunables).

(** [claimJobs(limit)] *)
Definition claimJobs (now limit : Z) (d : db) : list Claimed.row * db :=
  let '(_, d1) := requeueStaleJobs now (STALE_SECS cfg) d in
  let rows := claimStmt now limit (jobs d1) in
  let '(claimed, t) := claim_loop now rows (jobs d1) [] in
  (claimed, mkDb t (jobs_seq d1) (folders d1)).
End Store.

(** [markDone] / [completeJob(id)]: [WHERE id=@id], whatever the status. *)
Definition done_row (now : Z) (j : job) : job :=
  mkJob (id j) (folder j) (image_path j) (text_path j) done (attempts j)
        None (priority j) (available_at j) (created_at j) now.

Definition markDone (now i : Z) (t : list job) : nat * list job :=
  (sql_changes (λ j, id j =? i) t,
   sql_update (λ j, id j =? i) (done_row now) t).

Definition completeJob (now i : Z) (d : db) : db :=
  mkDb (snd (markDone now i (jobs d))) (jobs_seq d) (folders d).

(** [markFail]: [status = CASE WHEN @final=1 THEN 'failed' ELSE 'queued' END],
    [attempts = attempts + 1], [WHERE id=@id]. *)
Definition fail_row (now final : Z) (err : string) (next_time : Z) (j : job) : job :=
  mkJob (id j) (folder j) (image_path j) (text_path j)
        (if final =? 1 then failed else queued) (attempts j + 1)
        (Some err) (priority j) next_time (created_at j) now.

Definition markFail (now i : Z) (err : string) (final next_time : Z)
    (t : list job) : nat * list job :=
  (sql_changes (λ j, id j =? i) t,
   sql_update (λ j, id j =? i) (fail_row now final err next_time) t).

(** [String(err).slice(0, 2000)] *)
Definition slice_2000 (err : string) : string := String.substring 0 2000 err.

(** [failJob(id, attempts, err, maxAttempts, backoffSeconds)] *)
Definition failJob (now i attempts_ : Z) (err : string) (maxAttempts backoff : Z)
    (d : db) : db :=
  let final := if attempts_ + 1 >=? maxAttempts then 1 else 0 in
  let next_time := if negb (final =? 0) then now else now + backoff in
  mkDb (snd (markFail now i (slice_2000 err) final next_time (jobs d)))
       (jobs_seq d) (folders d).

(** ** Maintenance *)

Record purge_counts : Set := mkCounts { deletedDone : nat; deletedFailed : nat }.

Definition purge_matches (s : job_status) (now age : Z) (j : job) : bool :=
  status_eqb (status j) s && (updated_at j <=? now - age).

(** [purgeDoneStmt] and [purgeFailedStmt] *)
Definition purgeDoneStmt (now age : Z) (t : list job) : nat * list job :=
  (sql_changes (purge_matches done now age) t,
   sql_delete (purge_matches done now age) t).

Definition purgeFailedStmt (now age : Z) (t : list job) : nat * list job :=
  (sql_changes (purge_matches failed now age) t,
   sql_delete (purge_matches failed now age) t).

(** [purgeOldJobs(days = 7)] *)
Definition purgeOldJobs (now days : Z) (d : db) : purge_counts * db :=
  let age := days * 24 * 60 * 60 in
  let '(dn, t1) := purgeDoneStmt now age (jobs d) in
  let '(fl, t2) := purgeFailedStmt now age t1 in
  (mkCounts dn fl, mkDb t2 (jobs_seq d) (folders d)).

(** ** Worker *)

(** A thrown value, through [e?.message || String(e)]. *)
Record js_error : Set := mkError { message : string; as_string : string }.

Definition error_text (e : js_error) : string :=
  if decide (message e = EmptyString) then as_string e else message e.

(** What the collaborators of one [workOne] call do: whether the image is
    on disk, what [transcribeImageWithGPT] yields, whether
    [fs.writeFileSync] throws. *)
Record world : Set := mkWorld {
  image_exists : bool;
  transcription : string + js_error;
  write_error : option js_error
}.

Section Worker.
Context (cfg : tunables).

(** [Math.pow(b, e)] for an integer [e]: 1 when [e] is zero, as ECMAScript
    fixes it, and the engine's approximation otherwise. *)
Definition Math_pow (b : Q) (e : Z) : Q :=
  if e =? 0 then 1%Q else pow_approx cfg b e.

(** [backoffSeconds(attempts)], with [rnd] for [Math.random()]. *)
Definition raw_delay (attempts_ : Z) : Q :=
  double_mul (BACKOFF_BASE cfg) (Math_pow (BACKOFF_FACTOR cfg) attempts_).

Definition jitter (rnd : Q) : Q :=
  double_add 1 (double_mul (double_sub (double_mul rnd 2) 1) (BACKOFF_JITTER cfg)).

Definition backoffSeconds (rnd : Q) (attempts_ : Z) : Z :=
  let raw := raw_delay attempts_ in
  Z.max 1 (Qfloor (double_mul raw (jitter rnd))).

(** The [try] block of [workOne]: [None] when it runs to the end,
    the thrown value otherwise. *)
Definition attempt (w : world) : option js_error :=
  if negb (image_exists w) then Some (mkError "Image missing on disk" "Error: Image missing on disk")
  else match transcription w with
       | inr e => Some e
       | inl _ => write_error w
       end.

(** [workOne(job)] *)
Definition workOne (now : Z) (rnd : Q) (w : world) (r : Claimed.row) (d : db) : db :=
  match attempt w with
  | None => completeJob now (Claimed.id r) d
  | Some e =>
      let backoff := backoffSeconds rnd (Claimed.attempts r) in
      failJob now (Claimed.id r) (Claimed.attempts r) (error_text e)
              (MAX_ATTEMPTS cfg) backoff d
  end.
End Worker.

(** ** Histories of store operations *)

(** The exported operations of db.js, plus the worker's [workOne]. *)
Inductive op : Type :=
  | Enqueue (fld img txt : string) (prio delaySeconds : Z)
  | Claim (limit : Z)
  | Complete (i : Z)
  | Fail (i attempts_ : Z) (err : string) (maxAttempts backoff : Z)
  | Work (rnd : Q) (w : world) (r : Claimed.row)
  | RequeueStale (staleSeconds : Z)
  | PurgeOld (days : Z)
  | NextSerial (fld : string).

(** Bookkeeping for the histories: for each job id, the time at which the
    job last entered 'queued' (was inserted as queued, or went from another
    status to queued). *)
Definition is_queued_id (t : list job) (i : Z) : bool :=
  existsb (λ j, (id j =? i) && status_eqb (status j) queued) t.

Definition enters_queued (old new : list job) (i : Z) : bool :=
  is_queued_id new i && negb (is_queued_id old i).

Definition note_entries (now : Z) (old new : list job)
    (g : Z → option Z) : Z → option Z :=
  λ i, if enters_queued old new i then Some now else g i.

Section Histories.
Context (cfg : tunables).

Definition exec (now : Z) (o : op) (d : db) : db :=
  match o with
  | Enqueue fld img txt prio delaySeconds =>
      enqueueJob now fld img txt prio delaySeconds d
  | Claim limit => snd (claimJobs cfg now limit d)
  | Complete i => completeJob now i d
  | Fail i a err maxAttempts backoff => failJob now i a err maxAttempts backoff d
  | Work rnd w r => workOne cfg now rnd w r d
  | RequeueStale staleSeconds => snd (requeueStaleJobs now staleSeconds d)
  | PurgeOld days => snd (purgeOldJobs now days d)
  | NextSerial fld => snd (nextSerial fld d)
  end.

(** One operation, with the bookkeeping.  A claim is observed after its
    stale recovery as well as at its end, since a recovered job enters
    'queued' and may leave it again within the same call. *)
Definition exec_noting (now : Z) (o : op) (s : db * (Z → option Z))
    : db * (Z → option Z) :=
  let '(d, g) := s in
  match o with
  | Claim limit =>
      let d1 := snd (requeueStaleJobs now (STALE_SECS cfg) d) in
      let g1 := note_entries now (jobs d) (jobs d1) g in
      let d2 := exec now o d in
      (d2, note_entries now (jobs d1) (jobs d2) g1)
  | _ =>
      let d' := exec now o d in
      (d', note_entries now (jobs d) (jobs d') g)
  end.

(** A history: timestamped operations, oldest first. *)
Fixpoint run (h : list (Z * op)) (s : db * (Z → option Z)) : db * (Z → option Z) :=
  match h with
  | [] => s
  | (now, o) :: rest => run rest (exec_noting now o s)
  end.
End Histories.

(** Histories in which the clock never goes back, and delays are delays. *)
Definition sane_op (o : op) : Prop :=
  match o with
  | Enqueue _ _ _ _ delaySeconds => 0 <= delaySeconds
  | Fail _ _ _ _ backoff => 0 <= backoff
  | _ => True
  end.

Fixpoint sane_from (t0 : Z) (h : list (Z * op)) : Prop :=
  match h with
  | [] => True
  | (now, o) :: rest => t0 <= now ∧ sane_op o ∧ sane_from now rest
  end.

(** ** Read-only queries *)

(** [getJob(id)]: [SELECT * FROM jobs WHERE id = ?] through [.get], the
    first matching row or [undefined]. *)
Definition getJob (i : Z) (d : db) : option job :=
  List.find (λ j, id j =? i) (jobs d).

(** The status values in the order of their text. *)
Definition statuses_by_text : list job_status := [done; failed; processing; queued].

Definition count_status (fld : string) (s : job_status) (t : list job) : nat :=
  length (List.filter (λ j, bool_decide (folder j = fld) && status_eqb (status j) s) t).

(** [jobCounts(folder)]:
    [SELECT status, COUNT( * ) as cnt FROM jobs WHERE folder=? GROUP BY status].
    One row per status that occurs in the folder; the groups are listed in
    the order of [jobs_folder_status_idx], which no property below uses. *)
Definition jobCounts (fld : string) (d : db) : list (job_status * nat) :=
  List.filter (λ g, negb (Nat.eqb (snd g) 0))
    (map (λ s, (s, count_status fld s (jobs d))) statuses_by_text).

(** ** Worker tick *)

(** How one [workOne] call ends: the time at which it reaches the store,
    its [Math.random()] draw, and what its collaborators did. *)
Record outcome : Set := mkOutcome {
  settled_at : Z;
  random_draw : Q;
  collaborators : world
}.

Section Tick.
Context (cfg : tunables).

(** The [workOne] calls of one tick, in the order in which they reach the
    store. *)
Definition settle (sched : list (Claimed.row * outcome)) (d : db) : db :=
  fold_left (λ d' e, workOne cfg (settled_at (snd e)) (random_draw (snd e))
                       (collaborators (snd e)) (fst e) d')
            sched d.

(** [loop()], from the timer to the moment [Promise.allSettled] resolves:
    the [running] flag and the store.  [fate] gives, for each claimed job,
    how its [workOne] ends. *)
Definition loop (running : bool) (now : Z) (fate : Claimed.row → outcome)
    (d : db) : bool * db :=
  if running then (running, d)
  else
    let '(claimed, d1) := claimJobs cfg now (CONCURRENCY cfg) d in
    match claimed with
    | [] => (false, d1)
    | _ => (false, settle (map (λ r, (r, fate r)) claimed) d1)
    end.
End Tick.

(** ** Rubric grading (autograde.js)

    [resolveToRatingIds] gets the rubric that [summarizeRubric] has built,
    so every criterion has an array of ratings and every rating has a
    number as [points]; these are taken to be finite, as [validateRubric]
    asks of a rubric.  The model's answer is any JSON value.  Its fields
    are taken with the types the code coerces them to: ids are property
    keys, labels and rationales are strings ([String(...)]), and the points
    of a suggestion are [None] when [Number(s.points)] is not finite.  An
    entry of the suggestions that is no object but not [null] either has
    none of these fields, which makes it the suggestion with the key
    "undefined", no label and no points. *)

Module Rating.
Record t : Set := mk { id : string; label : string; points : Q }.
End Rating.

Module Criterion.
Record t : Set := mk {
  id : string;
  title : string;
  weight : Q;
  ratings : list Rating.t
}.
End Criterion.

Module Suggestion.
Record t : Set := mk {
  criterionId : string;
  ratingLabel : string;
  points : option Q;
  rationale : string
}.
End Suggestion.

Module Resolved.
Record t : Set := mk {
  criterionId : string;
  ratingId : string;
  ratingLabel : string;
  points : Q;
  rationale : string
}.
End Resolved.

(** [modelOutput?.suggestions]: absent or falsy, so that [[]] stands in
    for it; an array, whose [null] entries are [None]; or another truthy
    value, which has no [map]. *)
Inductive suggestions_value : Type :=
  | NoSuggestions
  | SuggestionArray (ss : list (option Suggestion.t))
  | NotAnArray.

(** [modelOutput?.suggestions || []], when that has a [map] *)
Definition suggestion_entries (v : suggestions_value) : list (option Suggestion.t) :=
  match v with SuggestionArray ss => ss | _ => [] end.

(** The property names every object inherits from [Object.prototype]. *)
Definition object_prototype_keys : list string :=
  ["constructor"; "__defineGetter__"; "__defineSetter__"; "hasOwnProperty";
   "__lookupGetter__"; "__lookupSetter__"; "isPrototypeOf";
   "propertyIsEnumerable"; "toString"; "valueOf"; "__proto__"; "toLocaleString"].

(** What [byCrit[key]] evaluates to. *)
Inductive js_property (A : Type) : Type :=
  | Own (a : A)
  | Inherited
  | Undefined.
Arguments Own {A} a.
Arguments Inherited {A}.
Arguments Undefined {A}.

(** [Object.fromEntries(rubric.criteria.map((c) => [c.id, c]))], read at
    [key]: the last criterion with that id, else what the prototype has. *)
Definition byCrit (criteria : list Criterion.t) (key : string) : js_property Criterion.t :=
  match List.find (λ c, String.eqb (Criterion.id c) key) (rev criteria) with
  | Some c => Own c
  | None => if existsb (String.eqb key) object_prototype_keys then Inherited else Undefined
  end.

(** [Math.abs(Number(r.points) - pts)] *)
Definition points_distance (pts : Q) (r : Rating.t) : Q :=
  Qabs (double_sub (Rating.points r) pts).

(** The callback of the fallback [reduce]. *)
Definition nearer (pts : Q) (best : option Rating.t) (r : Rating.t) : option Rating.t :=
  match best with
  | None => Some r
  | Some b =>
      if negb (Qle_bool (points_distance pts b) (points_distance pts r))
      then Some r else Some b
  end.

(** [c.ratings.reduce(..., null)] *)
Definition nearestRating (pts : Q) (ratings : list Rating.t) : option Rating.t :=
  fold_left (nearer pts) ratings None.

Section Autograde.
(** [String.prototype.toLowerCase] *)
Context (toLowerCase : string → string).

(** [c.ratings.find((r) => String(r.label).toLowerCase() === labelLc)] *)
Definition labelMatch (labelLc : string) (ratings : list Rating.t) : option Rating.t :=
  List.find (λ r, String.eqb (toLowerCase (Rating.label r)) labelLc) ratings.

(** The callback of [suggestions.map]: [None] when it throws (the criterion
    id names an inherited property, which has no [ratings]), [Some None]
    when it returns [null]. *)
Definition resolveOne (criteria : list Criterion.t) (s : Suggestion.t)
    : option (option Resolved.t) :=
  match byCrit criteria (Suggestion.criterionId s) with
  | Undefined => Some None
  | Inherited => None
  | Own c =>
      let labelLc := toLowerCase (Suggestion.ratingLabel s) in
      let chosen :=
        match labelMatch labelLc (Criterion.ratings c) with
        | Some r => Some r
        | None =>
            match Suggestion.points s with
            | Some pts => nearestRating pts (Criterion.ratings c)
            | None => None
            end
        end in
      match chosen with
      | None => Some None
      | Some r =>
          Some (Some (Resolved.mk (Criterion.id c) (Rating.id r) (Rating.label r)
                        (Rating.points r) (Suggestion.rationale s)))
      end
  end.

(** The callback on an entry of the array: a [null] entry, here [None], has
    no [criterionId] to read, and the callback throws. *)
Definition resolveEntry (criteria : list Criterion.t) (e : option Suggestion.t)
    : option (option Resolved.t) :=
  match e with
  | None => None
  | Some s => resolveOne criteria s
  end.

(** [(...).map(...).filter(Boolean)], stopping at the first throw. *)
Fixpoint resolveAll (criteria : list Criterion.t) (ss : list (option Suggestion.t))
    : option (list Resolved.t) :=
  match ss with
  | [] => Some []
  | s :: rest =>
      match resolveEntry criteria s with
      | None => None
      | Some x =>
          match resolveAll criteria rest with
          | None => None
          | Some xs => Some (match x with Some y => y :: xs | None => xs end)
          end
      end
  end.

(** [suggestions.reduce((s, x) => s + Number(x.points || 0), 0)] *)
Definition total_points (xs : list Resolved.t) : Q :=
  fold_left (λ s x, double_add s (Resolved.points x)) xs 0%Q.

(** [resolveToRatingIds(rubric, modelOutput)]: the suggestions and their
    total, or [None] when it throws. *)
Definition resolveToRatingIds (criteria : list Criterion.t) (v : suggestions_value)
    : option (list Resolved.t * Q) :=
  match v with
  | NotAnArray => None
  | _ =>
      match resolveAll criteria (suggestion_entries v) with
      | None => None
      | Some xs => Some (xs, total_points xs)
      end
  end.
End Autograde.

(** ** Upload routes (server.js) *)

(** A JavaScript string as its UTF-16 code units, where the characters
    matter. *)
Definition js_string : Set := list N.

(** [\s], and what [trim] strips: WhiteSpace and LineTerminator. *)
Definition is_js_space (c : N) : bool :=
  existsb (N.eqb c)
    [0x09; 0x0A; 0x0B; 0x0C; 0x0D; 0x20; 0xA0; 0x1680; 0x2028; 0x2029;
     0x202F; 0x205F; 0x3000; 0xFEFF]%N
  || ((0x2000 <=? c) && (c <=? 0x200A))%N.

(** The class of the first regular expression of [sanitizeFolder]:
    backslash, slash, colon, asterisk, question mark, double quote, angle
    brackets and bar. *)
Definition is_forbidden (c : N) : bool :=
  existsb (N.eqb c) [92; 47; 58; 42; 63; 34; 60; 62; 124]%N.

Definition underscore : N := 95%N.

(** [s.replace(/[class]+/g, underscore)]: every maximal run of the class becomes
    one underscore; [in_run] says that the previous unit was in the class. *)
Fixpoint replace_runs (cls : N → bool) (in_run : bool) (s : js_string) : js_string :=
  match s with
  | [] => []
  | c :: rest =>
      if cls c
      then (if in_run then replace_runs cls true rest
            else underscore :: replace_runs cls true rest)
      else c :: replace_runs cls false rest
  end.

Fixpoint drop_spaces (s : js_string) : js_string :=
  match s with
  | [] => []
  | c :: rest => if is_js_space c then drop_spaces rest else s
  end.

(** [s.trim()] *)
Definition js_trim (s : js_string) : js_string :=
  rev (drop_spaces (rev (drop_spaces s))).

(** [sanitizeFolder(name)], with [[]] for a missing name. *)
Definition sanitizeFolder (name : js_string) : js_string :=
  replace_runs is_js_space false (replace_runs is_forbidden false (js_trim name)).

(** [String(serial)] for an integer. *)
Definition String_of_int (n : Z) : string :=
  DecimalString.NilZero.string_of_int (Z.to_int n).

Fixpoint zeros (k : nat) : string :=
  match k with
  | O => EmptyString
  | S k' => String (Ascii.ascii_of_nat 48) (zeros k')
  end.

(** [s.padStart(targetLength, "0")] *)
Definition padStart0 (targetLength : nat) (s : string) : string :=
  zeros (targetLength - String.length s) +:+ s.

Definition SERIAL_PAD : nat := 3.

(** [`${folderName}_${String(serial).padStart(SERIAL_PAD, "0")}`] *)
Definition upload_base (folderName : string) (serial : Z) : string :=
  folderName +:+ "_" +:+ padStart0 SERIAL_PAD (String_of_int serial).

(** One uploaded file, as far as the routes look at it:
    [path.extname(file.originalname)] and whether [fs.renameSync] of it
    succeeds. *)
Record uploaded : Set := mkUploaded { extname : string; rename_ok : bool }.

Inductive response : Set :=
  | Accepted (bases : list string)
  | BadRequest
  | ServerError.

Section Uploads.
(** [path.join] *)
Context (path_join : string → string → string).

(** The body of the loop of [/upload-batch-queue], which is also the body
    of [/upload-queue]: a serial, the rename, the job.  [None] when it
    throws; the serial is then spent. *)
Definition upload_file (now : Z) (folderName folderPath : string) (f : uploaded)
    (d : db) : option string * db :=
  match nextSerial folderName d with
  | (None, d1) => (None, d1)
  | (Some serial, d1) =>
      let base := upload_base folderName serial in
      let ext := if decide (extname f = EmptyString) then ".jpg" else extname f in
      let imageDestPath := path_join folderPath (base +:+ ext) in
      let textDestPath := path_join folderPath (base +:+ ".txt") in
      if rename_ok f
      then (Some base, enqueueJob now folderName imageDestPath textDestPath 0 0 d1)
      else (None, d1)
  end.

(** The [for (const file of files)] loop: the bases accepted so far, or
    [None] once a file has thrown. *)
Fixpoint upload_files (now : Z) (folderName folderPath : string) (files : list uploaded)
    (d : db) : option (list string) * db :=
  match files with
  | [] => (Some [], d)
  | f :: rest =>
      match upload_file now folderName folderPath f d with
      | (None, d1) => (None, d1)
      | (Some base, d1) =>
          match upload_files now folderName folderPath rest d1 with
          | (None, d2) => (None, d2)
          | (Some bases, d2) => (Some (base :: bases), d2)
          end
      end
  end.

(** [POST /upload-batch-queue], given what [ensureFolder] returned ([None]
    when it threw). *)
Definition upload_batch_queue (now : Z) (folder : option (string * string))
    (files : list uploaded) (d : db) : response * db :=
  match folder with
  | None => (ServerError, d)
  | Some (folderName, folderPath) =>
      match files with
      | [] => (BadRequest, d)
      | _ =>
          match upload_files now folderName folderPath files d with
          | (Some bases, d1) => (Accepted bases, d1)
          | (None, d1) => (ServerError, d1)
          end
      end
  end.

(** [POST /upload-queue] *)
Definition upload_queue (now : Z) (folder : option (string * string))
    (file : option uploaded) (d : db) : response * db :=
  match folder with
  | None => (ServerError, d)
  | Some (folderName, folderPath) =>
      match file with
      | None => (BadRequest, d)
      | Some f =>
          match upload_file now folderName folderPath f d with
          | (Some base, d1) => (Accepted [base], d1)
          | (None, d1) => (ServerError, d1)
          end
      end
  end.
End Uploads.


(** ** Layout normalisation (gptOcrService.js) *)

(** A JavaScript number; the finite ones are idealised as rationals. *)
Inductive js_number : Set :=
  | NaN
  | NegInfinity
  | Infinity
  | Finite (q : Q).

Definition Math_min (a b : Q) : Q := if Qle_bool a b then a else b.
Definition Math_max (a b : Q) : Q := if Qle_bool a b then b else a.

(** [z01 = (v) => Math.max(0, Math.min(1, Number(v) || 0))]; [NaN] is
    falsy, and [Math.min(1, ·)] caps the infinities. *)
Definition z01 (v : js_number) : Q :=
  match v with
  | NaN => Math_max 0 (Math_min 1 0)
  | NegInfinity => 0
  | Infinity => Math_max 0 1
  | Finite q => Math_max 0 (Math_min 1 q)
  end.

(** [Number(v || 0)], given [Number(v)] for a [v] that is truthy and [None]
    for one that is falsy or absent. *)
Definition number_or_zero (v : option js_number) : js_number :=
  match v with
  | Some n => n
  | None => Finite 0
  end.

Module Box.
Record t : Set := mk { x0 : Q; y0 : Q; x1 : Q; y1 : Q }.
End Box.

(** An entry of [o.lines] or [o.words] that is not [null]: its [text] as
    [String(l.text || "")] gives it, and its [box]: [None] when it is not an
    array, else what [Number] makes of each element.  An entry that is a
    number, a string or a boolean has no [box]. *)
Module Entry.
Record t : Set := mk { text : js_string; box : option (list js_number) }.
End Entry.

Module Boxed.
Record t : Set := mk { text : js_string; box : Box.t }.
End Boxed.

Module Line.
Record t : Set := mk { line : Boxed.t; _i : option nat }.
End Line.

(** The object [o]: [lines] and [words] are [None] when they are no
    arrays, and an entry of theirs is [None] when it is [null]. *)
Module RawLayout.
Record t : Set := mk {
  width : option js_number;
  height : option js_number;
  lines : option (list (option Entry.t));
  words : option (list (option Entry.t))
}.
End RawLayout.

Module Layout.
Record t : Set := mk {
  width : js_number;
  height : js_number;
  lines : list Line.t;
  words : list Boxed.t
}.
End Layout.

(** [Array.isArray(o.lines) ? o.lines : []] *)
Definition array_or_empty {A : Type} (a : option (list A)) : list A :=
  match a with Some l => l | None => [] end.

(** [if (x1 < x0) [x0,x1] = [x1,x0]] *)
Definition ordered (a b : Q) : Q * Q :=
  if negb (Qle_bool a b) then (b, a) else (a, b).

(** The callback of [lines.map] and of [words.map]; [None] is its [null]. *)
Definition normalizeEntry (l : Entry.t) : option Boxed.t :=
  match Entry.box l with
  | Some [v0; v1; v2; v3] =>
      let '(x0, x1) := ordered (z01 v0) (z01 v2) in
      let '(y0, y1) := ordered (z01 v1) (z01 v3) in
      Some (Boxed.mk (js_trim (Entry.text l)) (Box.mk x0 y0 x1 y1))
  | _ => None
  end.

(** [(a,b) => (a.box[1]-b.box[1]) || (a.box[0]-b.box[0])] *)
Definition reading_cmp (a b : Boxed.t) : Q :=
  let dy := (Box.y0 (Boxed.box a) - Box.y0 (Boxed.box b))%Q in
  if Qeq_bool dy 0 then (Box.x0 (Boxed.box a) - Box.x0 (Boxed.box b))%Q else dy.

(** The line objects are told apart by their place in [out.lines].
    [Array.prototype.sort] is stable: a line sorts strictly before another
    when the comparator is negative, or is zero and it came first. *)
Definition reading_ltb (a b : nat * Boxed.t) : bool :=
  negb (Qle_bool 0 (reading_cmp a.2 b.2))
  || (Qeq_bool (reading_cmp a.2 b.2) 0 && (a.1 <? b.1)%nat).

Definition reading_le (a b : nat * Boxed.t) : Prop := reading_ltb b a = false.

#[global] Instance reading_le_dec (a b : nat * Boxed.t) : Decision (reading_le a b).
Proof. unfold reading_le. apply _. Defined.

(** [out.lines.slice().sort(...)] *)
Definition reading_order (ls : list Boxed.t) : list (nat * Boxed.t) :=
  merge_sort reading_le (imap (λ p l, (p, l)) ls).

(** [idxMap.get(l)] for the line at place [p] *)
Definition idxMap_get (sorted : list (nat * Boxed.t)) (p : nat) : option nat :=
  fst <$> list_find (λ x, x.1 = p) sorted.

(** [entries.map(...).filter(Boolean)]; the callback reads [l.box], which
    throws on an entry that is [null]. *)
Fixpoint normalizeEntries (entries : list (option Entry.t)) : option (list Boxed.t) :=
  match entries with
  | [] => Some []
  | None :: _ => None
  | Some l :: rest =>
      match normalizeEntries rest with
      | None => None
      | Some bs =>
          Some (match normalizeEntry l with Some b => b :: bs | None => bs end)
      end
  end.

(** [normalizeLayout(o)]: the argument is [None] for an [o] that is falsy
    or no object, the result is [None] when the call throws. *)
Definition normalizeLayout (o : option RawLayout.t) : option Layout.t :=
  match o with
  | None => Some (Layout.mk (Finite 0) (Finite 0) [] [])
  | Some o =>
      match normalizeEntries (array_or_empty (RawLayout.lines o)) with
      | None => None
      | Some lines =>
          match normalizeEntries (array_or_empty (RawLayout.words o)) with
          | None => None
          | Some words =>
              let sorted := reading_order lines in
              Some (Layout.mk (number_or_zero (RawLayout.width o))
                      (number_or_zero (RawLayout.height o))
                      (imap (λ p l, Line.mk l (idxMap_get sorted p)) lines) words)
          end
      end
  end.

(** ** Saved grades (server.js) *)

(** A JSON value of a request body, as far as [!v], [===] and [String(v)]
    look at it.  [JUndefined] is an absent field; [JObject] is an array or
    an object, with what [String] makes of it. *)
Inductive json_value : Type :=
  | JUndefined
  | JNull
  | JBool (b : bool)
  | JNumber (q : Q)
  | JString (s : string)
  | JObject (shown : string).

(** [!!v] *)
Definition truthy (v : json_value) : bool :=
  match v with
  | JUndefined | JNull => false
  | JBool b => b
  | JNumber q => negb (Qeq_bool q 0)
  | JString s => negb (String.eqb s "")
  | JObject _ => true
  end.

(** [a === b] for values of different parses: two arrays or objects are
    then never the same object. *)
Definition strict_equal (a b : json_value) : bool :=
  match a, b with
  | JUndefined, JUndefined => true
  | JNull, JNull => true
  | JBool x, JBool y => Bool.eqb x y
  | JNumber x, JNumber y => Qeq_bool x y
  | JString x, JString y => String.eqb x y
  | _, _ => false
  end.

(** A stored grade.  [base] is a string, as [POST /grades/save] writes it. *)
Module Grade.
Record t (Score : Type) : Type := mk {
  assessmentId : json_value;
  base : string;
  total : js_number;
  status : string;
  scores : list Score;
  updatedAt : Z
}.
Arguments mk {Score}.
Arguments assessmentId {Score}.
Arguments base {Score}.
Arguments total {Score}.
Arguments status {Score}.
Arguments scores {Score}.
Arguments updatedAt {Score}.
End Grade.

(** The body of [POST /grades/save]: [total] is [None] when it is falsy and
    else what [Number] makes of it, [scores] is [None] when it is no
    array. *)
Module Payload.
Record t (Score : Type) : Type := mk {
  assessmentId : json_value;
  base : json_value;
  total : option js_number;
  status : json_value;
  scores : option (list Score)
}.
Arguments mk {Score}.
Arguments assessmentId {Score}.
Arguments base {Score}.
Arguments total {Score}.
Arguments status {Score}.
Arguments scores {Score}.
End Payload.

Inductive save_response (Score : Type) : Type :=
  | Saved (entry : Grade.t Score)
  | Rejected.
Arguments Saved {Score}.
Arguments Rejected {Score}.

(** [Array.prototype.findIndex], [None] for [-1] *)
Fixpoint findIndex {A : Type} (f : A → bool) (l : list A) : option nat :=
  match l with
  | [] => None
  | x :: rest => if f x then Some 0%nat else S <$> findIndex f rest
  end.

Section Grades.
Context {Score : Type}.
(** [String(n)] for a number *)
Context (Number_toString : Q → string).

(** [String(v)] *)
Definition js_String (v : json_value) : string :=
  match v with
  | JUndefined => "undefined"
  | JNull => "null"
  | JBool true => "true"
  | JBool false => "false"
  | JNumber q => Number_toString q
  | JString s => s
  | JObject shown => shown
  end.

(** [loadGrades().grades]; the file is [None] when it cannot be read or
    parsed, and holds else what the route has written. *)
Definition loadGrades (file : option (list (Grade.t Score))) : list (Grade.t Score) :=
  match file with Some grades => grades | None => [] end.

(** [g => g.assessmentId === payload.assessmentId && g.base === payload.base] *)
Definition same_essay (payload : Payload.t Score) (g : Grade.t Score) : bool :=
  strict_equal (Grade.assessmentId g) (Payload.assessmentId payload)
  && strict_equal (JString (Grade.base g)) (Payload.base payload).

(** The entry [POST /grades/save] builds. *)
Definition grade_entry (now : Z) (payload : Payload.t Score) : Grade.t Score :=
  Grade.mk (Payload.assessmentId payload) (js_String (Payload.base payload))
    (number_or_zero (Payload.total payload))
    (if truthy (Payload.status payload) then js_String (Payload.status payload)
     else "graded")
    (array_or_empty (Payload.scores payload)) now.

(** [POST /grades/save]: the response and the file afterwards. *)
Definition grades_save (now : Z) (payload : Payload.t Score)
    (file : option (list (Grade.t Score)))
    : save_response Score * option (list (Grade.t Score)) :=
  if negb (truthy (Payload.assessmentId payload)) || negb (truthy (Payload.base payload))
  then (Rejected, file)
  else
    let grades := loadGrades file in
    let idx := findIndex (same_essay payload) grades in
    let entry := grade_entry now payload in
    (Saved entry,
     Some (match idx with
           | Some i => <[i := entry]> grades
           | None => grades ++ [entry]
           end)).

(** [GET /grades/:assessmentId]; the parameter of the route is a string. *)
Definition grades_get (assessmentId : string) (file : option (list (Grade.t Score)))
    : list (Grade.t Score) :=
  List.filter (λ g, strict_equal (Grade.assessmentId g) (JString assessmentId))
    (loadGrades file).
End Grades.

(** ** Rubric validation (server.js) *)

(** A rating and a criterion of a submitted rubric: the text fields are
    strings (empty when absent), [points] and [weight] are what [Number]
    makes of the fields, and [ratings] is [None] when it is not an array. *)
Module RatingInput.
Record t : Set := mk { label : js_string; points : js_number }.
End RatingInput.

Module CriterionInput.
Record t : Set := mk {
  title : js_string;
  weight : js_number;
  ratings : option (list RatingInput.t)
}.
End CriterionInput.

(** [!String(s || "").trim()] *)
Definition is_blank (s : js_string) : bool :=
  match js_trim s with [] => true | _ => false end.

(** [Number.isFinite(n)] *)
Definition Number_isFinite (n : js_number) : bool :=
  match n with Finite _ => true | _ => false end.

(** [n < 0] *)
Definition is_negative (n : js_number) : bool :=
  match n with
  | Finite q => negb (Qle_bool 0 q)
  | NegInfinity => true
  | _ => false
  end.

(** [if (cond) issues.push(msg)] *)
Definition push_if (cond : bool) (msg : string) : list string :=
  if cond then [msg] else [].

(** The body of [ratings.forEach((r, ri) => ...)] under criterion [i] *)
Definition rating_issues (i ri : nat) (r : RatingInput.t) : list string :=
  let at_ := "Criterion #" +:+ String_of_int (Z.of_nat i + 1)
             +:+ " rating #" +:+ String_of_int (Z.of_nat ri + 1) in
  push_if (is_blank (RatingInput.label r)) (at_ +:+ ": label required.")
  ++ push_if (negb (Number_isFinite (RatingInput.points r)))
       (at_ +:+ ": points must be a number.").

(** The body of [criteria.forEach((c, i) => ...)] *)
Definition criterion_issues (i : nat) (c : CriterionInput.t) : list string :=
  let at_ := "Criterion #" +:+ String_of_int (Z.of_nat i + 1) in
  let ratings := array_or_empty (CriterionInput.ratings c) in
  push_if (is_blank (CriterionInput.title c)) (at_ +:+ ": title required.")
  ++ push_if (negb (Number_isFinite (CriterionInput.weight c))
              || is_negative (CriterionInput.weight c))
       (at_ +:+ ": weight must be >= 0.")
  ++ push_if (match ratings with [] => true | _ => false end)
       (at_ +:+ ": add at least one rating.")
  ++ concat (imap (rating_issues i) ratings).

(** [validateRubric(rubric)], given [rubric?.criteria] ([None] when it is
    not an array). *)
Definition validateRubric (criteria : option (list CriterionInput.t)) : list string :=
  let criteria := array_or_empty criteria in
  push_if (match criteria with [] => true | _ => false end)
    "Rubric requires at least one criterion."
  ++ concat (imap criterion_issues criteria).

(** ** Image preparation (gptOcrService.js) *)

(** [Math.round] *)
Definition Math_round (q : Q) : Z := Qfloor (q + (1 # 2))%Q.

(** The size [prepImage] reports, from [OCR_IMAGE_MAX_SIDE] and the size in
    the metadata (0 for a missing side); [None] when it throws, which it
    does when a side it asks [resize] for is not a positive integer.  A
    longer side of 0 above the limit makes the scale infinite and the sides
    [NaN]. *)
Definition prepImage_size (max_side : Q) (w h : Z) : option (Z * Z) :=
  let maxSide := Z.max w h in
  if negb (Qle_bool (inject_Z maxSide) max_side)
  then
    if maxSide =? 0 then None
    else
      let scale := double_div max_side (inject_Z maxSide) in
      let w' := Math_round (double_mul (inject_Z w) scale) in
      let h' := Math_round (double_mul (inject_Z h) scale) in
      if (0 <? w') && (0 <? h') then Some (w', h') else None
  else Some (w, h).

(** ** Vocabulary of the properties *)

(** 'done' and 'failed'. *)
Definition is_terminal (j : job) : bool :=
  status_eqb (status j) done || status_eqb (status j) failed.

(** A terminal row whose [updated_at] is at least [age] seconds old. *)
Definition purgeable (now age : Z) (j : job) : bool :=
  is_terminal j && (updated_at j <=? now - age).

(** Database integrity, from [id INTEGER PRIMARY KEY AUTOINCREMENT]: ids are
    unique and none exceeds the high-water mark. *)
Definition rows_wf (seq : Z) (t : list job) : Prop :=
  NoDup (map id t) ∧ ∀ j, In j t → id j <= seq.

Definition db_wf (d : db) : Prop := rows_wf (jobs_seq d) (jobs d).

(** The candidates of a claim loop that name job [i]. *)
Definition names_id (rows : list Claimed.row) (i : Z) : bool :=
  existsb (λ r, Claimed.id r =? i) rows.

(** The [jobs] table as a claim call sees it after its stale recovery. *)
Definition recovered (cfg : tunables) (now : Z) (d : db) : list job :=
  snd (requeueStaleStmt now (STALE_SECS cfg) (jobs d)).

(** The counter of a folder, 0 when it has no row yet. *)
Definition last_serial (d : db) (f : string) : Z :=
  match folders d !! f with Some c => c | None => 0 end.

(** The job an operation is aimed at by id: the completion and failure
    callbacks name one job; the other operations name none. *)
Definition targets (o : op) : option Z :=
  match o with
  | Complete i => Some i
  | Fail i _ _ _ _ => Some i
  | Work _ _ r => Some (Claimed.id r)
  | _ => None
  end.

(** What the histories maintain, at clock value [T]: the database is
    well-formed; every recorded entry time is at most [T]; every job has
    entered 'queued' at some time, and its [available_at] is not before the
    last such time. *)
Definition entries_ok (T : Z) (s : db * (Z → option Z)) : Prop :=
  db_wf (fst s)
  ∧ (∀ i t, snd s i = Some t → t <= T)
  ∧ (∀ j, In j (jobs (fst s)) →
       ∃ t, snd s (id j) = Some t ∧ t <= available_at j).

(** The store after a history, without the bookkeeping. *)
Definition replay (cfg : tunables) (h : list (Z * op)) (d : db) : db :=
  fold_left (λ d' e, exec cfg (fst e) (snd e) d') h d.

(** How many times a history calls [nextSerial] for a folder. *)
Definition serial_calls (fld : string) (h : list (Z * op)) : nat :=
  length (List.filter (λ e, match snd e with
                            | NextSerial f => bool_decide (f = fld)
                            | _ => false
                            end) h).

(** Two rows that describe the same job: the columns no statement writes. *)
Definition same_job (j j' : job) : Prop :=
  id j' = id j ∧ folder j' = folder j ∧ image_path j' = image_path j
  ∧ text_path j' = text_path j ∧ priority j' = priority j
  ∧ created_at j' = created_at j.

(** Lower case on the ASCII letters, for the examples of the rubric
    properties (which hold for any [toLowerCase]). *)
Definition lower_ascii_char (c : Ascii.ascii) : Ascii.ascii :=
  let n := Ascii.nat_of_ascii c in
  if (65 <=? n)%nat && (n <=? 90)%nat then Ascii.ascii_of_nat (n + 32) else c.

Fixpoint lower_ascii (s : string) : string :=
  match s with
  | EmptyString => EmptyString
  | String c rest => String (lower_ascii_char c) (lower_ascii rest)
  end.

Definition sample_criteria : list Criterion.t :=
  [Criterion.mk "c1" "Thesis" (40 # 1)
     [Rating.mk "r1" "Excellent" (4 # 1); Rating.mk "r2" "Good" (3 # 1);
      Rating.mk "r3" "Poor" (1 # 1)];
   Criterion.mk "c2" "Evidence" (60 # 1)
     [Rating.mk "r4" "Strong" (5 # 1); Rating.mk "r5" "Weak" (2 # 1)]].

(** The number a string of decimal digits denotes. *)
Definition decimal_value (s : string) : option N :=
  match DecimalString.NilEmpty.uint_of_string s with
  | Some d => Some (N.of_uint d)
  | None => None
  end.

(** The job an accepted upload enqueues. *)
Definition uploaded_job (path_join : string → string → string) (now : Z)
    (folderName folderPath : string) (f : uploaded) (i serial : Z) : job :=
  mkJob i folderName
    (path_join folderPath
       (upload_base folderName serial
          +:+ (if decide (extname f = EmptyString) then ".jpg" else extname f)))
    (path_join folderPath (upload_base folderName serial +:+ ".txt"))
    queued 0 None 0 now now now.

(** The jobs a run of accepted uploads enqueues, after job id [i] and
    serial [c]. *)
Fixpoint uploaded_jobs (path_join : string → string → string) (now : Z)
    (folderName folderPath : string) (files : list uploaded) (i c : Z) : list job :=
  match files with
  | [] => []
  | f :: rest =>
      uploaded_job path_join now folderName folderPath f (i + 1) (c + 1)
      :: uploaded_jobs path_join now folderName folderPath rest (i + 1) (c + 1)
  end.

(** A box lies in the unit square, its corners in order. *)
Definition box_in_page (b : Box.t) : Prop :=
  (0 <= Box.x0 b ∧ Box.x0 b <= Box.x1 b ∧ Box.x1 b <= 1
   ∧ 0 <= Box.y0 b ∧ Box.y0 b <= Box.y1 b ∧ Box.y1 b <= 1)%Q.

(** The line [a] at place [p] is read before the line [b] at place [q]:
    higher on the page, or as high and further left, or at the same corner
    and earlier in the list. *)
Definition read_before (p : nat) (a : Boxed.t) (q : nat) (b : Boxed.t) : Prop :=
  (Box.y0 (Boxed.box a) < Box.y0 (Boxed.box b))%Q
  ∨ ((Box.y0 (Boxed.box a) == Box.y0 (Boxed.box b))%Q
     ∧ ((Box.x0 (Boxed.box a) < Box.x0 (Boxed.box b))%Q
        ∨ ((Box.x0 (Boxed.box a) == Box.x0 (Boxed.box b))%Q ∧ (p < q)%nat))).

(** An entry whose box is an array of four. *)
Definition has_box (l : Entry.t) : bool :=
  match Entry.box l with Some [_; _; _; _] => true | _ => false end.

(** A page of two lines given bottom line first, the second with its
    horizontal corners swapped, and an entry with no box. *)
Definition sample_layout : RawLayout.t :=
  RawLayout.mk (Some (Finite 800)) None
    (Some [Some (Entry.mk [98%N]
                   (Some [Finite (1#10); Finite (1#2); Finite (9#10); Finite (3#5)]));
           Some (Entry.mk [97%N]
                   (Some [Finite (9#10); Finite (1#10); Finite (1#10); Finite (1#5)]));
           Some (Entry.mk [99%N] None)])
    None.

(** What names an essay's grade. *)
Definition essay_key {Score : Type} (g : Grade.t Score) : json_value * string :=
  (Grade.assessmentId g, Grade.base g).

(** No essay has two grades. *)
Definition one_per_essay {Score : Type} (grades : list (Grade.t Score)) : Prop :=
  NoDup (essay_key <$> grades).

(** A run of [POST /grades/save] requests, each with its clock reading. *)
Fixpoint grades_replay {Score : Type} (Number_toString : Q → string)
    (reqs : list (Z * Payload.t Score))
    (file : option (list (Grade.t Score))) : option (list (Grade.t Score)) :=
  match reqs with
  | [] => file
  | (now, payload) :: rest =>
      grades_replay Number_toString rest (grades_save Number_toString now payload file).2
  end.

(** A payload the route accepts. *)
Definition names_essay {Score : Type} (p : Payload.t Score) : Prop :=
  truthy (Payload.assessmentId p) = true ∧ truthy (Payload.base p) = true.

(** A payload whose [assessmentId] and [base] are strings. *)
Definition string_ids {Score : Type} (p : Payload.t Score) : Prop :=
  ∃ a b, Payload.assessmentId p = JString a ∧ Payload.base p = JString b.

(** A rating with a label and a finite number of points. *)
Definition rating_ok (r : RatingInput.t) : Prop :=
  js_trim (RatingInput.label r) ≠ [] ∧ ∃ q, RatingInput.points r = Finite q.

(** A criterion with a title, a finite weight that is not negative, and at
    least one rating, all of them in order. *)
Definition criterion_ok (c : CriterionInput.t) : Prop :=
  js_trim (CriterionInput.title c) ≠ []
  ∧ (∃ q, CriterionInput.weight c = Finite q ∧ (0 <= q)%Q)
  ∧ ∃ r rs, CriterionInput.ratings c = Some (r :: rs) ∧ Forall rating_ok (r :: rs).

(** A rubric with at least one criterion, all of them in order. *)
Definition rubric_ok (criteria : option (list CriterionInput.t)) : Prop :=
  ∃ c cs, criteria = Some (c :: cs) ∧ Forall criterion_ok (c :: cs).

(** No operation of [backoffSeconds] overflows. *)
Definition backoff_finite (cfg : tunables) (rnd : Q) (n : Z) : Prop :=
  fits (double_sub (double_mul rnd 2) 1 * BACKOFF_JITTER cfg)
  ∧ fits (1 + double_mul (double_sub (double_mul rnd 2) 1) (BACKOFF_JITTER cfg))
  ∧ fits (BACKOFF_BASE cfg * Math_pow cfg (BACKOFF_FACTOR cfg) n)
  ∧ fits (raw_delay cfg n * jitter cfg rnd).

(** ** Checks on small inputs *)

Definition world_ok : world := mkWorld true (inl "text") None.

Definition world_timeout : world :=
  mkWorld true (inr (mkError "timeout" "Error: timeout")) None.

Definition sample_db : db :=
  enqueueJob 100 "X" "x/2.png" "x/2.txt" 1 0
    (enqueueJob 100 "X" "x/1.png" "x/1.txt" 5 0 empty_db).

Example claim_sample :
  map Claimed.id (fst (claimJobs default_tunables 100 1 sample_db)) = [1].
Proof. vm_compute. reflexivity. Qed.

Example claim_sample_status :
  map (λ j, (id j, status j)) (jobs (snd (claimJobs default_tunables 100 1 sample_db)))
  = [(1, processing); (2, queued)].
Proof. vm_compute. reflexivity. Qed.

Example backoff_default_mid :
  backoffSeconds default_tunables (1 # 2) 2 = 20.
Proof. vm_compute. reflexivity. Qed.

Example nextSerial_fresh :
  fst (nextSerials 3 "X" empty_db) = [Some 1; Some 2; Some 3].
Proof. vm_compute. reflexivity. Qed.

(** ** Serial allocator *)

Lemma nextSerial_eq (f : string) (d : db) :
  nextSerial f d =
  (Some (last_serial d f + 1),
   mkDb (jobs d) (jobs_seq d) (<[f := last_serial d f + 1]> (folders d))).
Proof.
  unfold nextSerial, getSerial, incSerial, upsertFolder, last_serial.
  destruct (folders d !! f) as [c|] eqn:Hc; simpl.
  - rewrite lookup_alter_eq, Hc. simpl. do 2 f_equal.
    apply map_eq. intros g. destruct (decide (f = g)) as [->|Hne].
    + by rewrite lookup_alter_eq, lookup_insert_eq, Hc.
    + by rewrite lookup_alter_ne, lookup_insert_ne.
  - rewrite lookup_alter_eq, lookup_insert_eq. simpl. do 2 f_equal.
    apply map_eq. intros g. destruct (decide (f = g)) as [->|Hne].
    + by rewrite lookup_alter_eq, !lookup_insert_eq.
    + by rewrite lookup_alter_ne, !lookup_insert_ne.
Qed.

Lemma nextSerials_eq (n : nat) : ∀ (f : string) (d : db),
  fst (nextSerials n f d)
  = map (λ k, Some (last_serial d f + Z.of_nat k)) (seq 1 n)
  ∧ jobs (snd (nextSerials n f d)) = jobs d
  ∧ jobs_seq (snd (nextSerials n f d)) = jobs_seq d
  ∧ folders (snd (nextSerials n f d)) !! f
    = (if n is O then folders d !! f
       else Some (last_serial d f + Z.of_nat n))
  ∧ ∀ g, g ≠ f → folders (snd (nextSerials n f d)) !! g = folders d !! g.
Proof.
  induction n as [|n IH]; intros f d; simpl.
  - done.
  - rewrite nextSerial_eq.
    set (d1 := mkDb _ _ _).
    assert (Hd1 : folders d1 !! f = Some (last_serial d f + 1))
      by (subst d1; simpl; apply lookup_insert_eq).
    destruct (IH f d1) as (Hv & Hj & Hs & Hf & Ho).
    destruct (nextSerials n f d1) as [vs d2]. cbn [fst snd] in *.
    assert (Hl : last_serial d1 f = last_serial d f + 1)
      by (unfold last_serial at 1; by rewrite Hd1).
    rewrite Hl in Hv, Hf.
    repeat split.
    + f_equal. rewrite Hv, <- (seq_shift n 1), map_map.
      apply map_ext. intros k. f_equal. lia.
    + by rewrite Hj.
    + by rewrite Hs.
    + rewrite Hf. destruct n; [by rewrite Hd1|]. f_equal. lia.
    + intros g Hg. rewrite Ho by done. subst d1; simpl.
      by rewrite lookup_insert_ne.
Qed.

(** C7. [nextSerial(folder)] increments the folder's counter and returns
    the new value, creating the counter row (from 0) when it is absent: the
    first call for a folder returns 1; [n] successive calls for one folder
    return the [n] consecutive integers after the current counter, without
    gap or duplicate; the counters of the other folders and the jobs are
    untouched. *)
Theorem nextSerial_allocates (f : string) (d : db) (n : nat) :
  fst (nextSerial f d) = Some (last_serial d f + 1)
  ∧ folders (snd (nextSerial f d)) !! f = Some (last_serial d f + 1)
  ∧ (folders d !! f = None → fst (nextSerial f d) = Some 1)
  ∧ fst (nextSerials n f d)
    = map (λ k, Some (last_serial d f + Z.of_nat k)) (seq 1 n)
  ∧ NoDup (fst (nextSerials n f d))
  ∧ (∀ g, g ≠ f → folders (snd (nextSerials n f d)) !! g = folders d !! g)
  ∧ jobs (snd (nextSerials n f d)) = jobs d.
Proof.
  destruct (nextSerials_eq n f d) as (Hv & Hj & _ & _ & Ho).
  rewrite nextSerial_eq. cbn [fst snd folders].
  split; [done|]. split; [apply lookup_insert_eq|].
  split; [intros Hnone; unfold last_serial; by rewrite Hnone|].
  split; [done|]. split; [|done].
  rewrite Hv. apply NoDup_ListNoDup, Finite.Injective_map_NoDup.
  - intros a b Hab. injection Hab. lia.
  - apply List.seq_NoDup.
Qed.

Lemma nextSerial_allocates_witness :
  fst (nextSerial "X" empty_db) = Some 1.
Proof.
  apply (nextSerial_allocates "X" empty_db 3). reflexivity.
Defined.

(** ** Statement forms *)

Section SqlForms.
Context (p : job → bool) (f : job → job).

Lemma lookup_sql_update (t : list job) (k : nat) :
  sql_update p f t !! k = (λ j, if p j then f j else j) <$> (t !! k).
Proof.
  revert k. induction t as [|a t IH]; intros [|k]; simpl; auto.
Qed.

Lemma length_sql_update (t : list job) : length (sql_update p f t) = length t.
Proof. apply length_map. Qed.

Lemma ids_sql_update (t : list job) :
  (∀ j, id (f j) = id j) → map id (sql_update p f t) = map id t.
Proof.
  intros Hid. unfold sql_update. rewrite map_map. apply map_ext.
  intros j. destruct (p j); [apply Hid | done].
Qed.

Lemma in_sql_update (t : list job) (j' : job) :
  In j' (sql_update p f t) ↔ ∃ j, In j t ∧ j' = if p j then f j else j.
Proof.
  unfold sql_update. rewrite in_map_iff. split; intros (j & H1 & H2); eauto.
Qed.

Lemma sql_update_id_on (t : list job) :
  (∀ j, In j t → p j = false) → sql_update p f t = t.
Proof.
  intros Hp. unfold sql_update. rewrite <- (map_id t) at 2.
  apply map_ext_in. intros j Hj. by rewrite Hp.
Qed.
End SqlForms.

Lemma substring_all (s : string) (n : nat) :
  (String.length s ≤ n)%nat → String.substring 0 n s = s.
Proof.
  revert n. induction s as [|c s IH]; intros [|n] Hn; simpl in *; try done; try lia.
  f_equal. apply IH. lia.
Qed.

(** ** Failure and retry *)

(** C2. When processing fails, [failJob] rewrites the row of the job (and
    no other): the stored attempts go up by exactly 1, [last_error] is the
    failure message (the first 2000 characters of it, the whole message
    when it is no longer), [updated_at] is now, and with [a] the attempt
    count handed to [failJob]: if [a + 1 < maxAttempts] the job is 'queued'
    again with [available_at = now + backoff], if [a + 1 >= maxAttempts] it
    is 'failed' with [available_at = now].  [workOne] takes this path for
    every failure of its [try] block, a missing image included, with the
    attempt count of the claimed row and [backoffSeconds] of that count. *)
Theorem failJob_retry_or_fail (cfg : tunables)
    (now i a : Z) (err : string) (maxAttempts backoff : Z) (d : db)
    (k : nat) (j : job) :
  jobs d !! k = Some j →
  ∃ j', jobs (failJob now i a err maxAttempts backoff d) !! k = Some j'
    ∧ (id j ≠ i → j' = j)
    ∧ (id j = i →
         id j' = id j ∧ folder j' = folder j ∧ image_path j' = image_path j
         ∧ text_path j' = text_path j ∧ priority j' = priority j
         ∧ created_at j' = created_at j
         ∧ attempts j' = attempts j + 1
         ∧ last_error j' = Some (slice_2000 err)
         ∧ updated_at j' = now
         ∧ (a + 1 < maxAttempts →
              status j' = queued ∧ available_at j' = now + backoff)
         ∧ (a + 1 >= maxAttempts →
              status j' = failed ∧ available_at j' = now))
    ∧ ((String.length err ≤ 2000)%nat → slice_2000 err = err)
    ∧ (∀ rnd w r e, attempt w = Some e →
         workOne cfg now rnd w r d
         = failJob now (Claimed.id r) (Claimed.attempts r) (error_text e)
             (MAX_ATTEMPTS cfg) (backoffSeconds cfg rnd (Claimed.attempts r)) d)
    ∧ (∀ w, image_exists w = false →
         ∃ e, attempt w = Some e ∧ error_text e = "Image missing on disk").
Proof.
  intros Hk. unfold failJob, markFail. cbn [snd jobs].
  rewrite lookup_sql_update, Hk. cbn [fmap option_fmap option_map].
  eexists. split; [reflexivity|].
  split.
  { intros Hne. destruct (id j =? i) eqn:E; [lia | done]. }
  split.
  { intros He. destruct (id j =? i) eqn:E; [|lia]. cbn.
    repeat (split; [done|]). split.
    - intros Hlt. destruct (a + 1 >=? maxAttempts) eqn:G; [lia|]. done.
    - intros Hge. destruct (a + 1 >=? maxAttempts) eqn:G; [|lia]. done. }
  split.
  { apply substring_all. }
  split.
  { intros rnd w r e He. unfold workOne. by rewrite He. }
  intros w Hw. unfold attempt. rewrite Hw. cbn. eexists. split; [done|].
  reflexivity.
Qed.

Lemma failJob_retry_or_fail_witness :
  ∃ j', jobs (failJob 200 1 0 "timeout" 3 7 sample_db) !! 0%nat = Some j'
        ∧ status j' = queued ∧ attempts j' = 1 ∧ available_at j' = 207
        ∧ last_error j' = Some "timeout".
Proof.
  destruct (failJob_retry_or_fail default_tunables 200 1 0 "timeout" 3 7 sample_db 0
              (mkJob 1 "X" "x/1.png" "x/1.txt" queued 0 None 5 100 100 100)
              eq_refl)
    as (j' & Hk & _ & Hi & Hs & _).
  exists j'. split; [exact Hk|].
  destruct (Hi eq_refl) as (_ & _ & _ & _ & _ & _ & Ha & He & _ & Hq & _).
  destruct (Hq ltac:(lia)) as [Hst Hav].
  rewrite Hs in He by (vm_compute; lia).
  repeat split; assumption.
Defined.

(** ** Rounding to a double *)

Lemma pow2_pos (e : Z) : (0 < pow2 e)%Q.
Proof. apply Qpower_0_lt. reflexivity. Qed.

Lemma pow2_plus (a b : Z) : (pow2 (a + b) == pow2 a * pow2 b)%Q.
Proof. apply Qpower_plus. discriminate. Qed.

Lemma pow2_succ (a : Z) : (pow2 (a + 1) == 2 * pow2 a)%Q.
Proof. rewrite pow2_plus. change (pow2 1) with 2%Q. ring. Qed.

Lemma pow2_pred (a : Z) : (pow2 a == 2 * pow2 (a - 1))%Q.
Proof. rewrite <- pow2_succ. by replace (a - 1 + 1) with a by lia. Qed.

Lemma pow2_le (a b : Z) : a <= b → (pow2 a <= pow2 b)%Q.
Proof. intros H. apply Qpower_le_compat_l; [done | discriminate]. Qed.

Lemma pow2_lt (a b : Z) : a < b → (pow2 a < pow2 b)%Q.
Proof. intros H. apply Qpower_lt_compat_l; [done | reflexivity]. Qed.

Lemma pow2_lt_inv (a b : Z) : (pow2 a < pow2 b)%Q → a < b.
Proof.
  intros H. destruct (Z_lt_le_dec a b) as [|Hle]; [done|].
  apply pow2_le in Hle. lra.
Qed.

Lemma pow2_inject_Z (e : Z) : 0 <= e → (pow2 e == inject_Z (2 ^ e))%Q.
Proof.
  intros He. revert e He. apply natlike_ind.
  - reflexivity.
  - intros e He IH. unfold Z.succ. rewrite pow2_succ, IH, Z.pow_add_r by lia.
    rewrite inject_Z_mult. change (inject_Z (2 ^ 1)) with 2%Q. ring.
Qed.

Lemma Zlog2_pow2 (n : Z) :
  0 < n → (pow2 (Z.log2 n) <= inject_Z n ∧ inject_Z n < pow2 (Z.log2 n + 1))%Q.
Proof.
  intros Hn. destruct (Z.log2_spec n Hn) as [H1 H2].
  pose proof (Z.log2_nonneg n).
  rewrite !pow2_inject_Z by lia. split.
  - by rewrite <- Zle_Qle.
  - by rewrite <- Zlt_Qlt.
Qed.

Lemma Qlog2_spec (q : Q) :
  (0 < q)%Q → (pow2 (Qlog2 q) <= q ∧ q < pow2 (Qlog2 q + 1))%Q.
Proof.
  intros Hq. unfold Qlog2. cbn zeta.
  assert (Hn : 0 < Qnum q).
  { destruct q as [n d]. unfold Qlt in Hq. cbn in *. lia. }
  destruct (Zlog2_pow2 (Qnum q) Hn) as [Ha1 Ha2].
  destruct (Zlog2_pow2 (Zpos (Qden q)) eq_refl) as [Hb1 Hb2].
  set (a := Z.log2 (Qnum q)) in *. set (b := Z.log2 (Zpos (Qden q))) in *.
  assert (HD : (0 < inject_Z (Zpos (Qden q)))%Q) by reflexivity.
  assert (Hq' : (q * inject_Z (Zpos (Qden q)) == inject_Z (Qnum q))%Q).
  { destruct q as [n d]. cbn [Qnum Qden]. rewrite (Qmake_Qdiv n d). field.
    intros E. rewrite E in HD. lra. }
  assert (HE : (pow2 (a - b) * pow2 b == pow2 a)%Q).
  { rewrite <- pow2_plus. by replace (a - b + b) with a by lia. }
  pose proof (pow2_pos (a - b)) as HEp. pose proof (pow2_pos b) as HBp.
  rewrite pow2_succ in Ha2, Hb2.
  destruct (Qle_bool (pow2 (a - b)) q) eqn:E.
  - apply Qle_bool_iff in E. split; [done|]. rewrite pow2_succ. nra.
  - assert (Hlt : (q < pow2 (a - b))%Q).
    { apply Qnot_le_lt. rewrite <- Qle_bool_iff. congruence. }
    replace (a - b - 1 + 1) with (a - b) by lia. split; [|done].
    rewrite (pow2_pred (a - b)) in HE, HEp, Hlt. nra.
Qed.

Lemma Qlog2_unique (q : Q) (e : Z) :
  (pow2 e <= q)%Q → (q < pow2 (e + 1))%Q → Qlog2 q = e.
Proof.
  intros H1 H2.
  assert (Hq : (0 < q)%Q) by (pose proof (pow2_pos e); lra).
  destruct (Qlog2_spec q Hq) as [S1 S2].
  assert (Qlog2 q < e + 1) by (apply pow2_lt_inv; lra).
  assert (e < Qlog2 q + 1) by (apply pow2_lt_inv; lra).
  lia.
Qed.

Lemma Qlog2_comp (p q : Q) : (0 < p)%Q → (p == q)%Q → Qlog2 p = Qlog2 q.
Proof.
  intros Hp E. destruct (Qlog2_spec p Hp) as [S1 S2].
  symmetry. apply Qlog2_unique; lra.
Qed.

Lemma Qlog2_mono (p q : Q) : (0 < p)%Q → (p <= q)%Q → Qlog2 p <= Qlog2 q.
Proof.
  intros Hp Hle. destruct (Qlog2_spec p Hp) as [S1 S2].
  destruct (Qlog2_spec q) as [T1 T2]; [lra|].
  assert (Qlog2 p < Qlog2 q + 1) by (apply pow2_lt_inv; lra). lia.
Qed.

(** Rounding to an integer. *)

Lemma round_half_even_cases (x : Q) :
  let f := Qfloor x in
  (inject_Z f <= x ∧ x < inject_Z f + 1)%Q
  ∧ (((x - inject_Z f < 1 # 2)%Q ∧ round_half_even x = f)
     ∨ ((1 # 2 < x - inject_Z f)%Q ∧ round_half_even x = f + 1)
     ∨ ((x - inject_Z f == 1 # 2)%Q
        ∧ round_half_even x = (if Z.even f then f else f + 1))).
Proof.
  cbn zeta. split.
  - split; [apply Qfloor_le|]. pose proof (Qlt_floor x) as H.
    rewrite inject_Z_plus in H. exact H.
  - unfold round_half_even. cbn zeta.
    destruct (x - inject_Z (Qfloor x) ?= 1 # 2)%Q eqn:E.
    + right; right. by apply Qeq_alt in E.
    + left. by apply Qlt_alt in E.
    + right; left. by apply Qgt_alt in E.
Qed.

Lemma round_half_even_err (x : Q) :
  (x - (1 # 2) <= inject_Z (round_half_even x) <= x + (1 # 2))%Q.
Proof.
  destruct (round_half_even_cases x) as ([H1 H2] & [[H ->]|[[H ->]|[H ->]]]).
  - lra.
  - rewrite inject_Z_plus. change (inject_Z 1) with 1%Q. lra.
  - destruct (Z.even (Qfloor x)); [lra|].
    rewrite inject_Z_plus. change (inject_Z 1) with 1%Q. lra.
Qed.

Lemma round_half_even_Z (z : Z) : round_half_even (inject_Z z) = z.
Proof.
  unfold round_half_even. rewrite Qfloor_Z.
  assert ((inject_Z z - inject_Z z ?= 1 # 2)%Q = Lt) as ->; [|done].
  apply (proj1 (Qlt_alt _ _)). lra.
Qed.

Lemma round_half_even_comp (x y : Q) : (x == y)%Q → round_half_even x = round_half_even y.
Proof.
  intros E. unfold round_half_even. rewrite (Qfloor_comp x y E).
  assert ((x - inject_Z (Qfloor y) ?= 1 # 2)%Q = (y - inject_Z (Qfloor y) ?= 1 # 2)%Q) as ->;
    [|done].
  apply Qcompare_comp; [by rewrite E | done].
Qed.

Lemma round_half_even_mono (x y : Q) :
  (x <= y)%Q → round_half_even x <= round_half_even y.
Proof.
  intros Hle. pose proof (Qfloor_resp_le x y Hle) as Hf.
  destruct (round_half_even_cases x) as ([X1 X2] & HX).
  destruct (round_half_even_cases y) as ([Y1 Y2] & HY).
  destruct (Z.eq_dec (Qfloor x) (Qfloor y)) as [E|Hne].
  - rewrite E in *.
    destruct HX as [[H ->]|[[H ->]|[H ->]]], HY as [[H' ->]|[[H' ->]|[H' ->]]];
      try first [ lia | exfalso; lra ];
      destruct (Z.even (Qfloor y)); first [ lia | exfalso; lra ].
  - assert (Hlt : Qfloor x + 1 <= Qfloor y) by lia.
    assert (round_half_even x <= Qfloor x + 1).
    { destruct HX as [[_ ->]|[[_ ->]|[_ ->]]]; [lia | lia |].
      destruct (Z.even (Qfloor x)); lia. }
    assert (Qfloor y <= round_half_even y).
    { destruct HY as [[_ ->]|[[_ ->]|[_ ->]]]; [lia | lia |].
      destruct (Z.even (Qfloor y)); lia. }
    lia.
Qed.

Lemma Qhalf_between (r f : Z) (x : Q) :
  (inject_Z f <= x)%Q → (x < inject_Z f + 1)%Q →
  (x - (1 # 2) <= inject_Z r)%Q → (inject_Z r <= x + (1 # 2))%Q →
  r = f ∨ r = f + 1.
Proof.
  intros H1 H2 H3 H4.
  assert (Ha : (inject_Z (f - 1) < inject_Z r)%Q).
  { replace (f - 1) with (f + -1) by lia. rewrite inject_Z_plus.
    change (inject_Z (-1)) with (-1)%Q. lra. }
  assert (Hb : (inject_Z r < inject_Z (f + 2))%Q).
  { rewrite inject_Z_plus. change (inject_Z 2) with 2%Q. lra. }
  rewrite <- Zlt_Qlt in Ha, Hb. lia.
Qed.

(** What [round_half_even] returns is the one integer within a half of
    [x], the even one when there are two. *)
Lemma round_half_even_unique (x : Q) (r : Z) :
  (x - (1 # 2) <= inject_Z r)%Q → (inject_Z r <= x + (1 # 2))%Q →
  ((inject_Z r == x - (1 # 2))%Q ∨ (inject_Z r == x + (1 # 2))%Q → Z.even r = true) →
  round_half_even x = r.
Proof.
  intros H1 H2 Hev.
  destruct (round_half_even_cases x) as ([F1 F2] & HX).
  destruct (Qhalf_between r (Qfloor x) x F1 F2 H1 H2) as [->| ->].
  - destruct HX as [[H ->]|[[H ->]|[H ->]]]; [done | |].
    + exfalso. lra.
    + rewrite Hev; [done|]. left. lra.
  - pose proof (inject_Z_plus (Qfloor x) 1) as Hp. change (inject_Z 1) with 1%Q in Hp.
    rewrite Hp in H1, H2.
    destruct HX as [[H ->]|[[H ->]|[H ->]]]; [| done |].
    + exfalso. lra.
    + assert (Z.even (Qfloor x + 1) = true) as E.
      { apply Hev. right. rewrite Hp. lra. }
      rewrite Z.even_add in E. destruct (Z.even (Qfloor x)); [done | done].
Qed.

Lemma round_half_even_even (x : Q) :
  ((inject_Z (round_half_even x) == x - (1 # 2))%Q
   ∨ (inject_Z (round_half_even x) == x + (1 # 2))%Q) →
  Z.even (round_half_even x) = true.
Proof.
  destruct (round_half_even_cases x) as ([F1 F2] & [[H ->]|[[H ->]|[H ->]]]).
  - intros [E|E]; exfalso; lra.
  - rewrite inject_Z_plus. change (inject_Z 1) with 1%Q. intros [E|E]; exfalso; lra.
  - intros _. destruct (Z.even (Qfloor x)) eqn:E; [done|].
    rewrite Z.even_add, E. done.
Qed.

Lemma round_half_even_opp (x : Q) : round_half_even (- x) = - round_half_even x.
Proof.
  pose proof (round_half_even_err x) as [E1 E2].
  pose proof (round_half_even_even x) as Hev.
  apply round_half_even_unique.
  - rewrite inject_Z_opp. lra.
  - rewrite inject_Z_opp. lra.
  - rewrite inject_Z_opp, Z.even_opp. intros [E|E]; apply Hev; [right | left]; lra.
Qed.

Lemma ulp_pos (q : Q) : (0 < ulp q)%Q.
Proof. apply pow2_pos. Qed.

Lemma Qabs_pos_nz (q : Q) : ¬ (q == 0)%Q → (0 < Qabs q)%Q.
Proof.
  intros Hq. pose proof (Qabs_nonneg q). apply Qnot_le_lt. intros Hle.
  assert (E : (Qabs q == 0)%Q) by lra.
  apply Hq. apply Qabs_Qle_condition in Hle. lra.
Qed.

Lemma ulp_comp (p q : Q) : ¬ (p == 0)%Q → (p == q)%Q → ulp p = ulp q.
Proof.
  intros Hp E. unfold ulp. f_equal. f_equal. f_equal.
  apply Qlog2_comp; [by apply Qabs_pos_nz | by rewrite E].
Qed.

Lemma ulp_opp (q : Q) : ¬ (q == 0)%Q → ulp (- q) = ulp q.
Proof.
  intros Hq. unfold ulp. f_equal. f_equal. f_equal.
  apply Qlog2_comp; [|apply Qabs_opp].
  apply Qabs_pos_nz. intros E. apply Hq. lra.
Qed.

Lemma to_double_0 (q : Q) : (q == 0)%Q → to_double q = 0%Q.
Proof. intros E. unfold to_double. by rewrite (proj2 (Qeq_bool_iff q 0) E). Qed.

Lemma to_double_nz (q : Q) :
  ¬ (q == 0)%Q →
  to_double q = (inject_Z (round_half_even (q / ulp q)) * ulp q)%Q.
Proof.
  intros Hq. unfold to_double.
  destruct (Qeq_bool q 0) eqn:E; [|done]. by apply Qeq_bool_iff in E.
Qed.

Lemma to_double_comp (p q : Q) : (p == q)%Q → (to_double p == to_double q)%Q.
Proof.
  intros E. destruct (Qeq_dec p 0) as [Hp|Hp].
  - rewrite (to_double_0 p Hp), (to_double_0 q); [reflexivity | by rewrite <- E].
  - rewrite (to_double_nz p Hp), (to_double_nz q) by (by rewrite <- E).
    rewrite (ulp_comp p q Hp E).
    rewrite (round_half_even_comp (p / ulp q) (q / ulp q)); [reflexivity|].
    by rewrite E.
Qed.

Lemma to_double_opp (q : Q) : (to_double (- q) == - to_double q)%Q.
Proof.
  destruct (Qeq_dec q 0) as [Hq|Hq].
  - rewrite (to_double_0 q Hq), (to_double_0 (- q)); [reflexivity | lra].
  - rewrite (to_double_nz q Hq), (to_double_nz (- q)) by (intros E; apply Hq; lra).
    rewrite (ulp_opp q Hq).
    rewrite (round_half_even_comp (- q / ulp q) (- (q / ulp q))).
    + rewrite round_half_even_opp, inject_Z_opp. ring.
    + pose proof (ulp_pos q). field. lra.
Qed.

Lemma to_double_err (q : Q) :
  (q - ulp q * (1 # 2) <= to_double q <= q + ulp q * (1 # 2))%Q.
Proof.
  pose proof (ulp_pos q) as Hu.
  destruct (Qeq_dec q 0) as [Hq|Hq].
  - rewrite (to_double_0 q Hq). lra.
  - rewrite (to_double_nz q Hq).
    pose proof (round_half_even_err (q / ulp q)) as [E1 E2].
    assert (Hd : (q / ulp q * ulp q == q)%Q) by (field; lra).
    split; nra.
Qed.

Lemma to_double_nonneg (q : Q) : (0 <= q)%Q → (0 <= to_double q)%Q.
Proof.
  intros Hq. pose proof (ulp_pos q) as Hu.
  destruct (Qeq_dec q 0) as [E|E]; [rewrite (to_double_0 q E); lra|].
  rewrite (to_double_nz q E).
  assert (0 <= round_half_even (q / ulp q)).
  { rewrite <- (round_half_even_Z 0). apply round_half_even_mono.
    apply Qle_shift_div_l; [done | change (inject_Z 0) with 0%Q; lra]. }
  assert ((0 <= inject_Z (round_half_even (q / ulp q)))%Q).
  { change 0%Q with (inject_Z 0). by rewrite <- Zle_Qle. }
  nra.
Qed.

Lemma ulp_of_pos (q : Q) :
  (0 < q)%Q → ulp q = pow2 (Z.max (Qlog2 q) (-1022) - 52).
Proof.
  intros Hq. unfold ulp. f_equal. f_equal. f_equal.
  apply Qlog2_comp; [|apply Qabs_pos; lra].
  apply Qabs_pos_nz. lra.
Qed.

Lemma inject_Z_pow2 (e : Z) : 0 <= e → (inject_Z (2 ^ e) == pow2 e)%Q.
Proof. intros. by rewrite pow2_inject_Z. Qed.

Lemma to_double_pos_bounds (q : Q) :
  (0 < q)%Q →
  (to_double q <= pow2 (Z.max (Qlog2 q) (-1022) + 1))%Q
  ∧ (-1022 <= Qlog2 q → (pow2 (Qlog2 q) <= to_double q)%Q).
Proof.
  intros Hq. destruct (Qlog2_spec q Hq) as [S1 S2].
  rewrite to_double_nz by lra. rewrite (ulp_of_pos q Hq).
  set (E := Z.max (Qlog2 q) (-1022)).
  pose proof (pow2_pos (E - 52)) as Hu.
  assert (HE : (pow2 (E + 1) == pow2 53 * pow2 (E - 52))%Q).
  { rewrite <- pow2_plus. by replace (53 + (E - 52)) with (E + 1) by lia. }
  assert (Hd : (q / pow2 (E - 52) * pow2 (E - 52) == q)%Q) by (field; lra).
  split.
  - assert (Hle : (q <= pow2 (E + 1))%Q).
    { assert (Hm : Qlog2 q + 1 <= E + 1) by (unfold E; lia).
      apply pow2_le in Hm. lra. }
    assert (Hr : round_half_even (q / pow2 (E - 52)) <= 2 ^ 53).
    { rewrite <- (round_half_even_Z (2 ^ 53)). apply round_half_even_mono.
      apply Qle_shift_div_r; [done|]. rewrite inject_Z_pow2 by lia. lra. }
    rewrite Zle_Qle, inject_Z_pow2 in Hr by lia. rewrite HE. nra.
  - intros Hn. assert (E = Qlog2 q) as HEq by lia.
    assert (HE2 : (pow2 (Qlog2 q) == pow2 52 * pow2 (E - 52))%Q).
    { rewrite <- pow2_plus. rewrite HEq. by replace (52 + (Qlog2 q - 52)) with (Qlog2 q) by lia. }
    assert (Hr : 2 ^ 52 <= round_half_even (q / pow2 (E - 52))).
    { rewrite <- (round_half_even_Z (2 ^ 52)) at 1. apply round_half_even_mono.
      apply Qle_shift_div_l; [done|]. rewrite inject_Z_pow2 by lia. lra. }
    rewrite Zle_Qle, inject_Z_pow2 in Hr by lia. rewrite HE2. nra.
Qed.

Lemma to_double_mono_pos (p q : Q) :
  (0 < p)%Q → (p <= q)%Q → (to_double p <= to_double q)%Q.
Proof.
  intros Hp Hle. assert (Hq : (0 < q)%Q) by lra.
  pose proof (Qlog2_mono p q Hp Hle) as Hlog.
  destruct (Z.eq_dec (Z.max (Qlog2 p) (-1022)) (Z.max (Qlog2 q) (-1022))) as [E|Hne].
  - rewrite !to_double_nz by lra. rewrite (ulp_of_pos p Hp), (ulp_of_pos q Hq), E.
    set (u := pow2 _). assert (Hu : (0 < u)%Q) by apply pow2_pos.
    assert (Hr : round_half_even (p / u) <= round_half_even (q / u)).
    { apply round_half_even_mono. apply Qle_shift_div_l; [done|].
      assert ((p / u * u == p)%Q) by (field; lra). lra. }
    rewrite Zle_Qle in Hr. nra.
  - destruct (to_double_pos_bounds p Hp) as [Hup _].
    destruct (to_double_pos_bounds q Hq) as [_ Hlo].
    assert (Hn : -1022 <= Qlog2 q) by lia. specialize (Hlo Hn).
    assert (Hm : Z.max (Qlog2 p) (-1022) + 1 <= Qlog2 q) by lia.
    apply pow2_le in Hm. lra.
Qed.

(** Rounding keeps the order. *)
Lemma to_double_mono (p q : Q) : (p <= q)%Q → (to_double p <= to_double q)%Q.
Proof.
  intros Hle.
  destruct (Qlt_le_dec 0 p) as [Hp|Hp]; [by apply to_double_mono_pos|].
  destruct (Qlt_le_dec q 0) as [Hq|Hq].
  - assert (H : (to_double (- q) <= to_double (- p))%Q)
      by (apply to_double_mono_pos; lra).
    rewrite !to_double_opp in H. lra.
  - assert (H1 : (0 <= to_double q)%Q) by (by apply to_double_nonneg).
    assert (H2 : (0 <= to_double (- p))%Q) by (apply to_double_nonneg; lra).
    rewrite to_double_opp in H2. lra.
Qed.

(** A number on the grid of its binade is its own double. *)
Lemma to_double_grid (q : Q) (k : Z) :
  (q == inject_Z k * ulp q)%Q → (to_double q == q)%Q.
Proof.
  intros Hk. pose proof (ulp_pos q) as Hu.
  destruct (Qeq_dec q 0) as [E|E]; [rewrite (to_double_0 q E); lra|].
  rewrite (to_double_nz q E).
  rewrite (round_half_even_comp (q / ulp q) (inject_Z k)).
  - rewrite round_half_even_Z. lra.
  - apply Qeq_sym. apply Qeq_sym in Hk. rewrite <- Hk at 1. field. lra.
Qed.

(** Integers below [2^53] are doubles. *)
Lemma to_double_Z (z : Z) : Z.abs z < 2 ^ 53 → (to_double (inject_Z z) == inject_Z z)%Q.
Proof.
  intros Hz. destruct (Z.eq_dec z 0) as [->|Hnz]; [reflexivity|].
  assert (Habs : (Qabs (inject_Z z) == inject_Z (Z.abs z))%Q) by reflexivity.
  assert (Hpos : 0 < Z.abs z) by lia.
  destruct (Zlog2_pow2 (Z.abs z) Hpos) as [L1 L2].
  assert (He : Qlog2 (Qabs (inject_Z z)) = Z.log2 (Z.abs z)).
  { apply Qlog2_unique; lra. }
  assert (Hl : 0 <= Z.log2 (Z.abs z) < 53).
  { split; [apply Z.log2_nonneg|]. apply Z.log2_lt_pow2; lia. }
  apply (to_double_grid _ (z * 2 ^ (52 - Z.log2 (Z.abs z)))).
  unfold ulp. rewrite He. rewrite Z.max_l by lia.
  rewrite inject_Z_mult, inject_Z_pow2 by lia.
  rewrite <- Qmult_assoc, <- pow2_plus.
  replace (52 - Z.log2 (Z.abs z) + (Z.log2 (Z.abs z) - 52)) with 0 by lia.
  change (pow2 0) with 1%Q. ring.
Qed.

(** The relative error of rounding in the normal range is at most
    [2^-53]. *)
Lemma to_double_rel_err (q : Q) :
  (pow2 (-1022) <= Qabs q)%Q →
  (Qabs (to_double q - q) <= pow2 (-53) * Qabs q)%Q.
Proof.
  intros Hn. pose proof (pow2_pos (-1022)).
  assert (Hq : (0 < Qabs q)%Q) by lra.
  destruct (Qlog2_spec _ Hq) as [S1 S2].
  assert (He : -1022 <= Qlog2 (Qabs q)).
  { rewrite <- (Qlog2_unique (pow2 (-1022)) (-1022)); [|lra|by apply pow2_lt].
    apply Qlog2_mono; [done | lra]. }
  pose proof (to_double_err q) as [E1 E2].
  assert (Hu : (ulp q * (1 # 2) == pow2 (-53) * pow2 (Qlog2 (Qabs q)))%Q).
  { unfold ulp. rewrite Z.max_l by lia. rewrite <- pow2_plus.
    replace (-53 + Qlog2 (Qabs q)) with ((Qlog2 (Qabs q) - 52) + -1) by lia.
    rewrite pow2_plus. change (pow2 (-1)) with (1 # 2)%Q. ring. }
  pose proof (pow2_pos (-53)).
  apply Qabs_Qle_condition. split; nra.
Qed.

(** ** Backoff policy *)

Lemma jitter_range (cfg : tunables) (rnd : Q) :
  (0 <= BACKOFF_JITTER cfg)%Q → (0 <= rnd)%Q → (rnd < 1)%Q →
  (to_double (1 - to_double (BACKOFF_JITTER cfg)) <= jitter cfg rnd)%Q
  ∧ (jitter cfg rnd <= to_double (1 + to_double (BACKOFF_JITTER cfg)))%Q.
Proof.
  unfold jitter, double_add, double_mul, double_sub.
  generalize (BACKOFF_JITTER cfg). intros J HJ H0 H1.
  assert (E1 : (to_double 1 == 1)%Q) by (apply (to_double_Z 1); reflexivity).
  assert (E2 : (to_double 2 == 2)%Q) by (apply (to_double_Z 2); reflexivity).
  assert (Em : (to_double (-1) == -1)%Q) by (apply (to_double_Z (-1)); reflexivity).
  assert (Ha : (0 <= to_double (rnd * 2) <= 2)%Q).
  { split; [apply to_double_nonneg; lra|].
    pose proof (to_double_mono (rnd * 2) 2). lra. }
  assert (Hb : (-1 <= to_double (to_double (rnd * 2) - 1) <= 1)%Q).
  { pose proof (to_double_mono (-1) (to_double (rnd * 2) - 1)).
    pose proof (to_double_mono (to_double (rnd * 2) - 1) 1). lra. }
  set (t := to_double (to_double (rnd * 2) - 1)) in *.
  assert (Hc : (- to_double J <= to_double (t * J) <= to_double J)%Q).
  { pose proof (to_double_mono (- J) (t * J)) as M1.
    pose proof (to_double_mono (t * J) J) as M2.
    rewrite to_double_opp in M1. split; [apply M1 | apply M2]; nra. }
  split; apply to_double_mono; lra.
Qed.

Lemma Qfloor_close (a b : Q) :
  (a < b + 1)%Q → (b < a + 1)%Q → Z.abs (Qfloor a - Qfloor b) <= 1.
Proof.
  intros H1 H2.
  pose proof (Qfloor_le a) as A1. pose proof (Qlt_floor a) as A2.
  pose proof (Qfloor_le b) as B1. pose proof (Qlt_floor b) as B2.
  rewrite inject_Z_plus in A2, B2. change (inject_Z 1) with 1%Q in A2, B2.
  assert (Ha : (inject_Z (Qfloor a) < inject_Z (Qfloor b + 2))%Q).
  { rewrite inject_Z_plus. change (inject_Z 2) with 2%Q. lra. }
  assert (Hb : (inject_Z (Qfloor b) < inject_Z (Qfloor a + 2))%Q).
  { rewrite inject_Z_plus. change (inject_Z 2) with 2%Q. lra. }
  rewrite <- Zlt_Qlt in Ha, Hb. lia.
Qed.

(** A product of up to [2^51], rounded after each of its two
    multiplications, has the floor of the exact product or a neighbour of
    it. *)
Lemma twice_rounded_close (p j : Q) :
  (pow2 (-1022) <= p)%Q → (pow2 (-1022) <= to_double p * j)%Q →
  (p * j <= pow2 51)%Q →
  Z.abs (Z.max 1 (Qfloor (to_double (to_double p * j))) - Z.max 1 (Qfloor (p * j))) <= 1.
Proof.
  intros Hp Hy Hz.
  pose proof (pow2_pos (-1022)) as Hn.
  assert (He : (pow2 (-53) == 1 # 9007199254740992)%Q) by reflexivity.
  assert (H51 : (pow2 51 == 2251799813685248)%Q) by reflexivity.
  rewrite H51 in Hz.
  pose proof (to_double_rel_err p) as R1.
  rewrite (Qabs_pos p) in R1 by lra. rewrite He in R1.
  specialize (R1 Hp). apply Qabs_Qle_condition in R1 as [R1a R1b].
  set (raw := to_double p) in *.
  assert (Hraw : (0 < raw)%Q) by lra.
  assert (Hj : (0 < j)%Q).
  { destruct (Qlt_le_dec 0 j) as [|Hle]; [done|]. exfalso. nra. }
  pose proof (to_double_rel_err (raw * j)) as R2.
  rewrite (Qabs_pos (raw * j)) in R2 by lra. rewrite He in R2.
  specialize (R2 Hy). apply Qabs_Qle_condition in R2 as [R2a R2b].
  assert (Hyz : (p * j - (1 # 9007199254740992) * (p * j) <= raw * j
                 ∧ raw * j <= p * j + (1 # 9007199254740992) * (p * j))%Q)
    by (split; nra).
  destruct Hyz as [Hy1 Hy2].
  assert (Hz0 : (0 < p * j)%Q) by nra.
  set (z := (p * j)%Q) in *. set (y := (raw * j)%Q) in *.
  set (x := to_double y) in *.
  pose proof (Qfloor_close x z ltac:(lra) ltac:(lra)). lia.
Qed.

(** C5, as the code has it.  The delay is computed in double arithmetic.
    For every attempt count [n >= 0], every value [rnd] of [Math.random()]
    in [0, 1) and a jitter fraction [J >= 0], as long as no operation
    overflows: the jitter factor is the double [1 + (rnd * 2 - 1) * J] with
    each operation rounded, it lies between the doubles nearest to [1 - J]
    and to [1 + J]; the delay is [max(1, floor(x))] for the double [x]
    nearest to the product of the jitter factor and the double nearest to
    [base * Math.pow(factor, n)]; in the normal range each of the two
    roundings moves the product by at most [2^-53] of it, so that a delay
    of up to [2^51] seconds is within one second of [max(1, floor(y))] for
    the exact product [y] of the base, the power and the jitter factor;
    and the delay is at least one second. *)
Theorem backoffSeconds_formula (cfg : tunables) (rnd : Q) (n : Z) :
  0 <= n → (0 <= BACKOFF_JITTER cfg)%Q → (0 <= rnd)%Q → (rnd < 1)%Q →
  backoff_finite cfg rnd n →
  let J := to_double (BACKOFF_JITTER cfg) in
  let p := (BACKOFF_BASE cfg * Math_pow cfg (BACKOFF_FACTOR cfg) n)%Q in
  let raw := to_double p in
  let x := to_double (raw * jitter cfg rnd) in
  (to_double (1 - J) <= jitter cfg rnd)%Q
  ∧ (jitter cfg rnd <= to_double (1 + J))%Q
  ∧ backoffSeconds cfg rnd n = Z.max 1 (Qfloor x)
  ∧ ((pow2 (-1022) <= Qabs p)%Q → (Qabs (raw - p) <= pow2 (-53) * Qabs p)%Q)
  ∧ ((pow2 (-1022) <= Qabs (raw * jitter cfg rnd))%Q →
     (Qabs (x - raw * jitter cfg rnd) <= pow2 (-53) * Qabs (raw * jitter cfg rnd))%Q)
  ∧ ((pow2 (-1022) <= p)%Q → (pow2 (-1022) <= raw * jitter cfg rnd)%Q →
     (p * jitter cfg rnd <= pow2 51)%Q →
     Z.abs (backoffSeconds cfg rnd n - Z.max 1 (Qfloor (p * jitter cfg rnd))) <= 1)
  ∧ 1 <= backoffSeconds cfg rnd n.
Proof.
  intros _ HJ H0 H1 _. cbn zeta.
  destruct (jitter_range cfg rnd HJ H0 H1) as [Hlo Hhi].
  split; [done|]. split; [done|]. split; [reflexivity|].
  split; [apply to_double_rel_err|]. split; [apply to_double_rel_err|].
  split; [|unfold backoffSeconds; lia].
  intros Hp Hy Hz. unfold backoffSeconds, raw_delay, double_mul. cbn zeta.
  by apply twice_rounded_close.
Qed.

Lemma backoffSeconds_formula_witness :
  backoffSeconds default_tunables (1 # 4) 3 = 36
  ∧ 1 <= backoffSeconds default_tunables (1 # 4) 3.
Proof.
  destruct (backoffSeconds_formula default_tunables (1 # 4) 3) as (_ & _ & Hf & _ & _ & _ & Hge).
  - lia.
  - vm_compute. discriminate.
  - vm_compute. discriminate.
  - reflexivity.
  - repeat split; vm_compute; discriminate.
  - split; [rewrite Hf; vm_compute; reflexivity | exact Hge].
Defined.

(** C5 as stated fails at the edge of a second.  With the default tunables,
    no attempts so far and [Math.random()] returning the double below 1, the
    jitter factor is the double 1.2, which is a little less than 6/5, so
    the exact product of 5, [2^0] and the jitter factor is below 6 and the
    formula gives 5; the code rounds the product to the double 6 and
    returns 6.  The formula gives 5 as well for the exact jitter factor
    [1 + (rnd * 2 - 1) * J], which lies in [1 - J, 1 + J]. *)
Lemma backoff_rounds_up_counterexample :
  let cfg := default_tunables in
  let rnd := (1 - pow2 (-53))%Q in
  let J := BACKOFF_JITTER cfg in
  let exact := (1 + (rnd * 2 - 1) * J)%Q in
  (0 <= rnd)%Q ∧ (rnd < 1)%Q ∧ (to_double rnd == rnd)%Q
  ∧ (1 - J <= exact <= 1 + J)%Q ∧ (1 - J <= jitter cfg rnd <= 1 + J)%Q
  ∧ backoff_finite cfg rnd 0
  ∧ backoffSeconds cfg rnd 0 = 6
  ∧ Z.max 1 (Qfloor (BACKOFF_BASE cfg * BACKOFF_FACTOR cfg ^ 0 * jitter cfg rnd)) = 5
  ∧ Z.max 1 (Qfloor (BACKOFF_BASE cfg * BACKOFF_FACTOR cfg ^ 0 * exact)) = 5.
Proof. vm_compute. repeat split; discriminate. Qed.

(** ** Retention sweep *)

Lemma filter_filter_andb {A} (p q : A → bool) (l : list A) :
  List.filter p (List.filter q l) = List.filter (λ x, q x && p x) l.
Proof.
  induction l as [|a l IH]; simpl; [done|].
  destruct (q a); simpl; [destruct (p a)|]; by rewrite IH.
Qed.

Lemma filter_length_split {A} (p : A → bool) (l : list A) :
  (length (List.filter p l) + length (List.filter (λ x, negb (p x)) l))%nat
  = length l.
Proof.
  induction l as [|a l IH]; simpl; [done|]. destruct (p a); simpl; lia.
Qed.

Lemma filter_length_disjoint {A} (p q r : A → bool) (l : list A) :
  (∀ x, r x = p x || q x) → (∀ x, p x && q x = false) →
  (length (List.filter p l) + length (List.filter q l))%nat
  = length (List.filter r l).
Proof.
  intros Hr Hpq. induction l as [|a l IH]; simpl; [done|].
  rewrite Hr. specialize (Hpq a). destruct (p a), (q a); simpl in *; try done; lia.
Qed.

Lemma filter_none {A} (l : list A) : List.filter (λ _, false) l = [].
Proof. by induction l. Qed.

Lemma count_id_once (i : Z) (t : list job) :
  NoDup (map id t) → In i (map id t) →
  length (List.filter (λ j, id j =? i) t) = 1%nat.
Proof.
  induction t as [|a t IH]; intros Hnd Hin; [done|].
  cbn [map] in Hnd, Hin. apply NoDup_cons in Hnd as [Hnotin Hnd]. simpl.
  destruct (id a =? i) eqn:E.
  - apply Z.eqb_eq in E. simpl. f_equal.
    rewrite (filter_ext_in _ (λ _, false)); [by rewrite filter_none|].
    intros j Hj. apply Z.eqb_neq. intros Hji. apply Hnotin.
    rewrite E, <- Hji. apply list_elem_of_In, in_map, Hj.
  - apply Z.eqb_neq in E. apply IH; [done|]. by destruct Hin.
Qed.

Lemma purgeOldJobs_eq (now days : Z) (d : db) :
  purgeOldJobs now days d
  = (mkCounts
       (length (List.filter (purge_matches done now (days * 24 * 60 * 60)) (jobs d)))
       (length (List.filter (purge_matches failed now (days * 24 * 60 * 60)) (jobs d))),
     mkDb (List.filter (λ j, negb (purgeable now (days * 24 * 60 * 60) j)) (jobs d))
          (jobs_seq d) (folders d)).
Proof.
  unfold purgeOldJobs, purgeDoneStmt, purgeFailedStmt, sql_changes, sql_delete.
  set (age := days * 24 * 60 * 60).
  rewrite !filter_filter_andb. f_equal; [f_equal|f_equal].
  - f_equal. apply filter_ext. intros j. unfold purge_matches.
    destruct (status j); cbn; try done; by destruct (updated_at j <=? now - age).
  - apply filter_ext. intros j. unfold purgeable, is_terminal, purge_matches.
    destruct (status j); cbn; try done; by destruct (updated_at j <=? now - age).
Qed.

(** C9. [purgeOldJobs] deletes exactly the rows that are 'done' or 'failed'
    and whose [updated_at] is at least the age threshold old; the other rows
    stay as they are, in their order; the two counts returned are the
    numbers of 'done' and of 'failed' rows deleted.  With threshold 0, a job
    marked 'done' at the time of the sweep is removed, and when it is the
    only terminal job the counts are 1 and 0. *)
Theorem purgeOldJobs_exact (now days : Z) (d : db) :
  let age := days * 24 * 60 * 60 in
  let r := purgeOldJobs now days d in
  jobs (snd r) = List.filter (λ j, negb (purgeable now age j)) (jobs d)
  ∧ (∀ j, In j (jobs (snd r)) ↔ In j (jobs d) ∧ purgeable now age j = false)
  ∧ deletedDone (fst r)
    = length (List.filter (λ j, status_eqb (status j) done && purgeable now age j) (jobs d))
  ∧ deletedFailed (fst r)
    = length (List.filter (λ j, status_eqb (status j) failed && purgeable now age j) (jobs d))
  ∧ (deletedDone (fst r) + deletedFailed (fst r) + length (jobs (snd r)))%nat
    = length (jobs d)
  ∧ jobs_seq (snd r) = jobs_seq d ∧ folders (snd r) = folders d
  ∧ (∀ i, NoDup (map id (jobs d)) → In i (map id (jobs d)) →
       (∀ j, In j (jobs d) → id j ≠ i → is_terminal j = false) →
       let r0 := purgeOldJobs now 0 (completeJob now i d) in
       fst r0 = mkCounts 1 0
       ∧ jobs (snd r0) = List.filter (λ j, negb (id j =? i)) (jobs d)).
Proof.
  intros age r. subst r. rewrite purgeOldJobs_eq. fold age. cbn [fst snd jobs jobs_seq folders deletedDone deletedFailed].
  assert (Hd : ∀ t, List.filter (purge_matches done now age) t
                 = List.filter (λ j, status_eqb (status j) done && purgeable now age j) t).
  { intros t. apply filter_ext. intros j.
    unfold purge_matches, purgeable, is_terminal. destruct (status j); by cbn. }
  assert (Hf : ∀ t, List.filter (purge_matches failed now age) t
                 = List.filter (λ j, status_eqb (status j) failed && purgeable now age j) t).
  { intros t. apply filter_ext. intros j.
    unfold purge_matches, purgeable, is_terminal. destruct (status j); by cbn. }
  split; [done|]. split.
  { intros j. rewrite filter_In. by rewrite negb_true_iff. }
  split; [by rewrite Hd|]. split; [by rewrite Hf|]. split.
  { rewrite <- (filter_length_split (purgeable now age) (jobs d)).
    f_equal. apply filter_length_disjoint; intros j;
      unfold purge_matches, purgeable, is_terminal;
      destruct (status j); cbn; try done; by destruct (updated_at j <=? now - age). }
  split; [done|]. split; [done|].
  intros i Hnd Hin Hothers. cbn zeta. rewrite purgeOldJobs_eq.
  unfold completeJob, markDone. cbn [fst snd jobs jobs_seq folders].
  change (0 * 24 * 60 * 60) with 0. unfold sql_update.
  rewrite !filter_map_swap, !length_map.
  assert (Hrow : ∀ j, In j (jobs d) →
            let j' := if id j =? i then done_row now j else j in
            purge_matches done now 0 j' = (id j =? i)
            ∧ purge_matches failed now 0 j' = false
            ∧ negb (purgeable now 0 j') = negb (id j =? i)).
  { intros j Hj. cbn zeta. destruct (id j =? i) eqn:E.
    - unfold purge_matches, purgeable, is_terminal. cbn.
      replace (now <=? now - 0) with true by (symmetry; apply Z.leb_le; lia). done.
    - apply Z.eqb_neq in E. specialize (Hothers j Hj E).
      unfold purge_matches, purgeable. rewrite Hothers.
      unfold is_terminal in Hothers. destruct (status j); by cbn in *. }
  rewrite (filter_ext_in
             (λ j, purge_matches done now 0 (if id j =? i then done_row now j else j))
             (λ j, id j =? i) (jobs d)) by (intros j Hj; apply (Hrow j Hj)).
  rewrite (filter_ext_in
             (λ j, purge_matches failed now 0 (if id j =? i then done_row now j else j))
             (λ j, false) (jobs d)) by (intros j Hj; apply (Hrow j Hj)).
  rewrite (filter_ext_in
             (λ j, negb (purgeable now 0 (if id j =? i then done_row now j else j)))
             (λ j, negb (id j =? i)) (jobs d)) by (intros j Hj; apply (Hrow j Hj)).
  split.
  - f_equal.
    + by apply count_id_once.
    + by rewrite filter_none.
  - rewrite <- (map_id (List.filter (λ j, negb (id j =? i)) (jobs d))) at 2.
    apply map_ext_in. intros j Hj. apply filter_In in Hj as [_ Hj].
    by destruct (id j =? i).
Qed.

Lemma purgeOldJobs_exact_witness :
  purgeOldJobs 160 0
    (completeJob 160 1 (enqueueJob 100 "X" "x/1.png" "x/1.txt" 0 0 empty_db))
  = (mkCounts 1 0, mkDb [] 1 ∅).
Proof.
  pose proof (purgeOldJobs_exact 160 0
                (enqueueJob 100 "X" "x/1.png" "x/1.txt" 0 0 empty_db)) as H.
  cbv zeta in H. destruct H as (_ & _ & _ & _ & _ & _ & _ & H).
  destruct (H 1) as [Hc Hj].
  - apply NoDup_singleton.
  - left. reflexivity.
  - intros j [<-|[]] Hne. exfalso. apply Hne. reflexivity.
  - destruct (purgeOldJobs 160 0 _) as [c [t s m]] eqn:E.
    cbn [fst snd jobs] in Hc, Hj. subst c t.
    pose proof (f_equal (λ r, (jobs_seq (snd r), folders (snd r))) E) as E2.
    cbn [fst snd jobs_seq folders] in E2. injection E2 as <- <-.
    reflexivity.
Defined.

(** ** The claim loop *)

Lemma markProcessing_markProcessing (now now' i : Z) (t : list job) :
  fst (markProcessing now' i (snd (markProcessing now i t))) = 0%nat.
Proof.
  unfold markProcessing, sql_changes, sql_update. cbn [fst snd].
  rewrite filter_map_swap, length_map.
  rewrite (filter_ext _ (λ _, false)); [by rewrite filter_none|].
  intros j. unfold mark_matches.
  by destruct (id j =? i) eqn:E, (status j) eqn:S; cbn; rewrite ?E, ?S.
Qed.

Lemma claim_loop_acc (now : Z) (rows : list Claimed.row) :
  ∀ t c, claim_loop now rows t c
         = (c ++ fst (claim_loop now rows t []), snd (claim_loop now rows t [])).
Proof.
  induction rows as [|r rows IH]; intros t c; simpl.
  - by rewrite app_nil_r.
  - rewrite IH.
    rewrite (IH _ (if Nat.eqb _ 1 then [] ++ [r] else [])). cbn [fst snd].
    f_equal. destruct (Nat.eqb _ 1); by rewrite <- ?app_assoc.
Qed.

Lemma claim_loop_cons (now : Z) (r : Claimed.row) (rows : list Claimed.row)
    (t : list job) :
  claim_loop now (r :: rows) t []
  = ((if Nat.eqb (fst (markProcessing now (Claimed.id r) t)) 1 then [r] else [])
       ++ fst (claim_loop now rows (snd (markProcessing now (Claimed.id r) t)) []),
     snd (claim_loop now rows (snd (markProcessing now (Claimed.id r) t)) [])).
Proof.
  cbn [claim_loop markProcessing fst snd]. rewrite claim_loop_acc. cbn [fst snd].
  by destruct (Nat.eqb _ 1).
Qed.

(** The table after the loop: the queued rows named by a candidate have
    become 'processing', every other row is as it was. *)
Lemma claim_loop_table (now : Z) (rows : list Claimed.row) :
  ∀ t, snd (claim_loop now rows t [])
       = sql_update (λ j, status_eqb (status j) queued && names_id rows (id j))
                    (processing_row now) t.
Proof.
  induction rows as [|r rows IH]; intros t.
  - cbn. unfold sql_update. rewrite <- (map_id t) at 1.
    apply map_ext. intros j. by rewrite andb_false_r.
  - rewrite claim_loop_cons. cbn [snd]. rewrite IH.
    unfold markProcessing, sql_update. cbn [snd]. rewrite map_map.
    apply map_ext. intros j. unfold mark_matches, names_id. cbn [existsb].
    rewrite (Z.eqb_sym (Claimed.id r) (id j)).
    destruct (id j =? Claimed.id r) eqn:E, (status j) eqn:S; cbn; rewrite ?S; cbn; try done.
    all: by destruct (existsb _ rows).
Qed.

Lemma claim_loop_app (now : Z) (rows1 rows2 : list Claimed.row) :
  ∀ t, claim_loop now (rows1 ++ rows2) t []
       = (fst (claim_loop now rows1 t [])
            ++ fst (claim_loop now rows2 (snd (claim_loop now rows1 t [])) []),
          snd (claim_loop now rows2 (snd (claim_loop now rows1 t [])) [])).
Proof.
  induction rows1 as [|r rows1 IH]; intros t.
  - cbn [app claim_loop fst snd]. by destruct (claim_loop now rows2 t []).
  - rewrite <- app_comm_cons, !claim_loop_cons, IH. cbn [fst snd].
    by rewrite app_assoc.
Qed.

(** A candidate is in the claim set exactly when its own conditional
    update, run on the table left by the candidates before it, changed one
    row. *)
Lemma claim_loop_claimed (now : Z) (rows : list Claimed.row) (r : Claimed.row) :
  ∀ t, In r (fst (claim_loop now rows t []))
       ↔ ∃ rows1 rows2, rows = rows1 ++ r :: rows2
           ∧ fst (markProcessing now (Claimed.id r)
                    (snd (claim_loop now rows1 t []))) = 1%nat.
Proof.
  induction rows as [|r0 rows IH]; intros t.
  - cbn. split; [done|]. intros (rows1 & rows2 & H & _). by destruct rows1.
  - rewrite claim_loop_cons. cbn [fst]. rewrite in_app_iff, IH. split.
    + intros [H | (rows1 & rows2 & -> & H)].
      * destruct (Nat.eqb _ 1) eqn:E; [|done]. destruct H as [<-|[]].
        exists [], rows. split; [done|]. by apply Nat.eqb_eq in E.
      * exists (r0 :: rows1), rows2. split; [done|].
        by rewrite claim_loop_cons.
    + intros (rows1 & rows2 & Heq & H). destruct rows1 as [|r1 rows1].
      * injection Heq as -> ->. left. cbn [claim_loop snd] in H.
        rewrite H. by left.
      * injection Heq as -> ->. right. exists rows1, rows2. split; [done|].
        by rewrite claim_loop_cons in H.
Qed.

(** ** The claim order *)

Lemma claim_ltb_lt (a b : job) :
  claim_ltb a b = true
  ↔ priority b < priority a
    ∨ (priority a = priority b
       ∧ (available_at a < available_at b
          ∨ (available_at a = available_at b ∧ id a < id b))).
Proof.
  unfold claim_ltb.
  rewrite !orb_true_iff, !andb_true_iff, !orb_true_iff, !andb_true_iff,
    !Z.ltb_lt, !Z.eqb_eq. tauto.
Qed.

Lemma claim_le_ge (a b : job) :
  claim_le a b
  ↔ priority b < priority a
    ∨ (priority a = priority b
       ∧ (available_at a < available_at b
          ∨ (available_at a = available_at b ∧ id a <= id b))).
Proof.
  unfold claim_le. rewrite <- not_true_iff_false, claim_ltb_lt. lia.
Qed.

#[global] Instance claim_le_total : Total claim_le.
Proof. intros a b. rewrite !claim_le_ge. lia. Qed.

#[global] Instance claim_le_trans : Transitive claim_le.
Proof. intros a b c. rewrite !claim_le_ge. lia. Qed.

Lemma claim_le_strict (a b : job) :
  claim_le a b → id a ≠ id b → claim_ltb a b = true.
Proof. rewrite claim_le_ge, claim_ltb_lt. lia. Qed.

(** ** Candidate selection *)

Lemma filter_submseteq (p : job → bool) (t : list job) : List.filter p t ⊆+ t.
Proof.
  induction t as [|a t IH]; simpl; [done|].
  destruct (p a); [by apply submseteq_skip | by apply submseteq_cons].
Qed.

Lemma sql_limit_sublist {A} (n : Z) (l : list A) : sql_limit n l `sublist_of` l.
Proof. unfold sql_limit. destruct (n <? 0); [done | apply sublist_take]. Qed.

Lemma claim_candidates_sorted_eligible (now limit : Z) (t : list job) :
  claim_candidates now limit t
    `sublist_of` merge_sort claim_le (List.filter (eligible now) t).
Proof. apply sql_limit_sublist. Qed.

Lemma claim_candidates_submseteq (now limit : Z) (t : list job) :
  claim_candidates now limit t ⊆+ List.filter (eligible now) t.
Proof.
  etrans; [apply sublist_submseteq, claim_candidates_sorted_eligible|].
  apply Permutation_submseteq, merge_sort_Permutation.
Qed.

Lemma submseteq_NoDup_ids (l t : list job) :
  l ⊆+ t → NoDup (map id t) → NoDup (map id l).
Proof.
  intros Hsub Hnd.
  assert (Hs : id <$> l ⊆+ id <$> t) by by apply fmap_submseteq.
  apply submseteq_Permutation in Hs as [k Hk].
  change (map id t) with (id <$> t) in Hnd. rewrite Hk in Hnd.
  by apply NoDup_app in Hnd as [? _].
Qed.

Lemma claim_candidates_in (now limit : Z) (t : list job) (j : job) :
  In j (claim_candidates now limit t)
  → In j t ∧ status j = queued ∧ available_at j <= now.
Proof.
  intros Hj. apply list_elem_of_In in Hj.
  pose proof (elem_of_submseteq _ _ _ Hj (claim_candidates_submseteq now limit t)) as H.
  apply list_elem_of_In, filter_In in H as [Hin He]. split; [done|].
  unfold eligible in He. apply andb_true_iff in He as [Hs Ha].
  split; [by destruct (status j) | by apply Z.leb_le].
Qed.

Lemma NoDup_ids_inj (t : list job) (a b : job) :
  NoDup (map id t) → In a t → In b t → id a = id b → a = b.
Proof.
  induction t as [|x t IH]; [done|]. cbn [map]. intros Hnd Ha Hb Hab.
  apply NoDup_cons in Hnd as [Hx Hnd].
  assert (Hfresh : ∀ y, In y t → id y ≠ id x).
  { intros y Hy Hyx. apply Hx. rewrite <- Hyx. apply list_elem_of_In, in_map, Hy. }
  destruct Ha as [<-|Ha], Hb as [<-|Hb]; try done.
  - by destruct (Hfresh b Hb).
  - by destruct (Hfresh a Ha).
  - by apply IH.
Qed.

Lemma count_mark_once (t : list job) (j : job) :
  NoDup (map id t) → In j t → status j = queued →
  fst (markProcessing 0 (id j) t) = 1%nat.
Proof.
  intros Hnd Hj Hq. unfold markProcessing, sql_changes. cbn [fst].
  rewrite (filter_ext_in _ (λ x, id x =? id j)).
  - apply count_id_once; [done|]. by apply in_map.
  - intros x Hx. unfold mark_matches. destruct (id x =? id j) eqn:E; [|done].
    apply Z.eqb_eq in E. rewrite (NoDup_ids_inj t x j Hnd Hx Hj E), Hq. done.
Qed.

Lemma markProcessing_changes_now (now now' i : Z) (t : list job) :
  fst (markProcessing now i t) = fst (markProcessing now' i t).
Proof. done. Qed.

(** With unique ids, every candidate that is a queued row of the table is
    claimed: the loop returns all of its candidates. *)
Lemma claim_loop_all (now : Z) (cands : list job) :
  ∀ t, NoDup (map id t) → NoDup (map id cands) →
       (∀ j, In j cands → In j t ∧ status j = queued) →
       fst (claim_loop now (map claimed_of cands) t []) = map claimed_of cands.
Proof.
  induction cands as [|c cands IH]; intros t Ht Hc Hin; [done|].
  cbn [map]. rewrite claim_loop_cons. cbn [fst].
  destruct (Hin c (or_introl eq_refl)) as [Hct Hcq].
  change (Claimed.id (claimed_of c)) with (id c).
  rewrite (markProcessing_changes_now now 0), (count_mark_once t c Ht Hct Hcq).
  cbn [Nat.eqb app]. f_equal.
  cbn [map] in Hc. apply NoDup_cons in Hc as [Hfresh Hc].
  apply IH; [|done|].
  - unfold markProcessing. cbn [snd]. by rewrite ids_sql_update.
  - intros j Hj. destruct (Hin j (or_intror Hj)) as [Hjt Hjq]. split; [|done].
    unfold markProcessing. cbn [snd]. apply in_sql_update. exists j. split; [done|].
    unfold mark_matches. destruct (id j =? id c) eqn:E; [|done].
    apply Z.eqb_eq in E. destruct Hfresh. rewrite <- E.
    apply list_elem_of_In, in_map, Hj.
Qed.

(** ** Claiming *)

Lemma claimJobs_unfold (cfg : tunables) (now limit : Z) (d : db) :
  claimJobs cfg now limit d
  = (fst (claim_loop now (claimStmt now limit (recovered cfg now d))
            (recovered cfg now d) []),
     mkDb (sql_update
             (λ j, status_eqb (status j) queued
                   && names_id (claimStmt now limit (recovered cfg now d)) (id j))
             (processing_row now) (recovered cfg now d))
          (jobs_seq d) (folders d)).
Proof.
  unfold claimJobs, requeueStaleJobs, recovered.
  destruct (requeueStaleStmt now (STALE_SECS cfg) (jobs d)) as [n t] eqn:E.
  cbn [jobs jobs_seq folders snd].
  rewrite <- claim_loop_table.
  by destruct (claim_loop now (claimStmt now limit t) t []).
Qed.

Lemma recovered_ids (cfg : tunables) (now : Z) (d : db) :
  map id (recovered cfg now d) = map id (jobs d).
Proof. unfold recovered, requeueStaleStmt. cbn [snd]. by apply ids_sql_update. Qed.

(** With unique ids the claim set is the whole selection. *)
Lemma claimJobs_claims_selection (cfg : tunables) (now limit : Z) (d : db) :
  NoDup (map id (jobs d)) →
  fst (claimJobs cfg now limit d) = claimStmt now limit (recovered cfg now d).
Proof.
  intros Hnd. rewrite claimJobs_unfold. cbn [fst]. unfold claimStmt.
  rewrite <- (recovered_ids cfg now) in Hnd.
  apply claim_loop_all; [done| |].
  - eapply submseteq_NoDup_ids; [|exact Hnd].
    etrans; [apply claim_candidates_submseteq | apply filter_submseteq].
  - intros j Hj. apply claim_candidates_in in Hj. tauto.
Qed.

Lemma sorted_eligible (now : Z) (t : list job) :
  StronglySorted claim_le (merge_sort claim_le (List.filter (eligible now) t)).
Proof. apply StronglySorted_merge_sort; apply _. Qed.

Lemma StronglySorted_sublist (l k : list job) :
  l `sublist_of` k → StronglySorted claim_le k → StronglySorted claim_le l.
Proof.
  induction 1 as [|x l k Hs IH|x l k Hs IH]; intros Hk; [done| |].
  - apply StronglySorted_inv in Hk as [Hk Hx]. constructor; [by apply IH|].
    apply Forall_forall. intros y Hy. rewrite Forall_forall in Hx. apply Hx.
    by eapply elem_of_sublist.
  - apply StronglySorted_inv in Hk as [Hk _]. by apply IH.
Qed.

(** Whatever the limit leaves out sorts after everything it keeps, and is
    left out only because the limit was reached. *)
Lemma sql_limit_cut (n : Z) (l : list job) (j x : job) :
  StronglySorted claim_le l → In j (sql_limit n l) → In x l → ¬ In x (sql_limit n l) →
  claim_le j x ∧ 0 <= n ∧ length (sql_limit n l) = Z.to_nat n.
Proof.
  unfold sql_limit. intros Hs Hj Hx Hnx. destruct (n <? 0) eqn:E; [done|].
  apply Z.ltb_ge in E.
  rewrite <- (take_drop (Z.to_nat n) l) in Hs, Hx.
  apply list_elem_of_In, elem_of_app in Hx as [Hx|Hx];
    [by destruct Hnx; apply list_elem_of_In|].
  split; [|split; [done|]].
  - eapply StronglySorted_app_1_elem_of; [exact Hs | by apply list_elem_of_In | done].
  - rewrite length_take. apply Nat.min_l.
    destruct (decide (Z.to_nat n ≤ length l)%nat) as [|Hgt]; [done|].
    rewrite drop_ge in Hx by lia. by apply elem_of_nil in Hx.
Qed.

Lemma sql_limit_length {A} (n : Z) (l : list A) :
  0 <= n → (length (sql_limit n l) ≤ Z.to_nat n)%nat.
Proof.
  intros Hn. unfold sql_limit. destruct (n <? 0) eqn:E; [lia|].
  rewrite length_take. lia.
Qed.

Lemma db_wf_empty : db_wf empty_db.
Proof. split; [constructor | intros j []]. Qed.

Lemma db_wf_enqueueJob (now : Z) (fld img txt : string) (prio delaySeconds : Z) (d : db) :
  db_wf d → db_wf (enqueueJob now fld img txt prio delaySeconds d).
Proof.
  intros [Hnd Hle]. unfold enqueueJob. split; cbn [jobs jobs_seq].
  - rewrite map_app. apply NoDup_app. split; [done|]. split; [|apply NoDup_singleton].
    intros i Hi Hi'. apply list_elem_of_In in Hi. apply in_map_iff in Hi as (j & <- & Hj).
    apply Hle in Hj. cbn in Hi'. apply list_elem_of_singleton in Hi'. lia.
  - intros j Hj. apply in_app_iff in Hj as [Hj|[<-|[]]]; [apply Hle in Hj; lia | cbn; lia].
Qed.

(** C4. A claim call selects only jobs that, once its stale recovery is
    done, are 'queued' with [available_at <= now]; it returns them ordered by
    priority descending, then [available_at] ascending, then id ascending;
    it returns at most [limit] of them (for a limit that is not negative),
    and what it leaves out sorts after everything it returns and is left out
    only when the limit is reached.  In particular [claim(1)] returns the
    eligible job whose priority is above that of every other eligible job
    (priority 5 against priority 1). *)
Theorem claimJobs_selection (cfg : tunables) (now limit : Z) (d : db) :
  db_wf d →
  let t1 := recovered cfg now d in
  let js := claim_candidates now limit t1 in
  fst (claimJobs cfg now limit d) = map claimed_of js
  ∧ (∀ j, In j js → In j t1 ∧ status j = queued ∧ available_at j <= now)
  ∧ StronglySorted claim_le js
  ∧ (∀ a b, claim_le a b
            ↔ priority b < priority a
              ∨ (priority a = priority b
                 ∧ (available_at a < available_at b
                    ∨ (available_at a = available_at b ∧ id a <= id b))))
  ∧ (0 <= limit → (length js ≤ Z.to_nat limit)%nat)
  ∧ (∀ j x, In j js → In x t1 → eligible now x = true → ¬ In x js →
            claim_le j x ∧ 0 <= limit ∧ length js = Z.to_nat limit)
  ∧ (∀ x, limit = 1 → In x t1 → eligible now x = true →
          (∀ y, In y t1 → eligible now y = true → y ≠ x → priority y < priority x) →
          fst (claimJobs cfg now limit d) = [claimed_of x]).
Proof.
  intros [Hnd _] t1 js.
  assert (Hfst : fst (claimJobs cfg now limit d) = map claimed_of js)
    by by apply claimJobs_claims_selection.
  assert (Hin : ∀ j, In j js → In j t1 ∧ status j = queued ∧ available_at j <= now)
    by (intros j; apply claim_candidates_in).
  assert (Hcut : ∀ j x, In j js → In x t1 → eligible now x = true → ¬ In x js →
            claim_le j x ∧ 0 <= limit ∧ length js = Z.to_nat limit).
  { intros j x Hj Hx He Hnx.
    apply (sql_limit_cut limit (merge_sort claim_le (List.filter (eligible now) t1)));
      [apply sorted_eligible | done | | done].
    apply list_elem_of_In. rewrite merge_sort_Permutation.
    apply list_elem_of_In, filter_In. done. }
  split; [done|]. split; [done|]. split.
  { eapply StronglySorted_sublist; [apply claim_candidates_sorted_eligible|].
    apply sorted_eligible. }
  split; [apply claim_le_ge|]. split; [apply sql_limit_length|]. split; [done|].
  intros x -> Hx He Htop. rewrite Hfst.
  assert (Hlen : (length js ≤ 1)%nat) by by apply (sql_limit_length 1).
  assert (Hxjs : In x js).
  { destruct (decide (x ∈ js)) as [Hy|Hn]; [by apply list_elem_of_In|].
    assert (Hn' : ¬ In x js) by (by rewrite <- list_elem_of_In).
    pose proof (eq_refl : js = claim_candidates now 1 t1) as Ejs. clearbody js.
    destruct js as [|j js'].
    - exfalso.
      assert (Hx' : x ∈ merge_sort claim_le (List.filter (eligible now) t1)).
      { rewrite merge_sort_Permutation. by apply list_elem_of_In, filter_In. }
      unfold claim_candidates, sql_limit in Ejs.
      destruct (merge_sort claim_le (List.filter (eligible now) t1)) as [|s l];
        [by apply elem_of_nil in Hx' | discriminate Ejs].
    - destruct (Hcut j x (or_introl eq_refl) Hx He Hn') as (Hle & _).
      destruct (Hin j (or_introl eq_refl)) as (Hjt & Hjq & Hja).
      assert (Hjx : j ≠ x) by (intros ->; apply Hn'; by left).
      assert (Hej : eligible now j = true).
      { unfold eligible. rewrite Hjq. cbn. by apply Z.leb_le. }
      specialize (Htop j Hjt Hej Hjx). apply claim_le_ge in Hle. lia. }
  destruct js as [|j [|j' js']]; [done| |cbn in Hlen; lia].
  by destruct Hxjs as [->|[]].
Qed.

Lemma claimJobs_selection_witness :
  fst (claimJobs default_tunables 100 1 sample_db)
  = [Claimed.mk 1 "X" "x/1.png" "x/1.txt" 0].
Proof.
  assert (Hwf : db_wf sample_db)
    by (unfold sample_db; do 2 apply db_wf_enqueueJob; apply db_wf_empty).
  destruct (claimJobs_selection default_tunables 100 1 sample_db Hwf)
    as (_ & _ & _ & _ & _ & _ & Htop).
  apply (Htop (mkJob 1 "X" "x/1.png" "x/1.txt" queued 0 None 5 100 100 100)).
  - reflexivity.
  - vm_compute. by left.
  - reflexivity.
  - intros y Hy _ Hne. vm_compute in Hy. destruct Hy as [<-|[<-|[]]]; [done|].
    cbn. lia.
Defined.

(** ** Stale recovery *)

(** In a sorted list with unique ids, an element that fewer than [n] others
    sort before is among the first [n]. *)
Lemma take_rank (l : list job) (x : job) :
  StronglySorted claim_le l → NoDup (map id l) → In x l →
  ∀ n, (length (List.filter (λ y, claim_ltb y x) l) < n)%nat → In x (take n l).
Proof.
  induction l as [|a l IH]; intros Hs Hnd Hx n Hn; [done|].
  destruct n as [|n]; [lia|]. cbn [take].
  destruct (decide (a = x)) as [->|Hne]; [by left|]. right.
  destruct Hx as [Hx|Hx]; [done|].
  apply StronglySorted_inv in Hs as [Hs Ha]. cbn [map] in Hnd.
  apply NoDup_cons in Hnd as [Hfresh Hnd].
  assert (Hax : claim_ltb a x = true).
  { apply claim_le_strict.
    - rewrite Forall_forall in Ha. by apply Ha, list_elem_of_In.
    - intros E. apply Hfresh. rewrite E. apply list_elem_of_In, in_map, Hx. }
  cbn [List.filter] in Hn. rewrite Hax in Hn. cbn [length] in Hn.
  apply IH; [done..|lia].
Qed.

Lemma filter_Permutation {A} (p : A → bool) (l k : list A) :
  l ≡ₚ k → List.filter p l ≡ₚ List.filter p k.
Proof.
  induction 1 as [|x l k Hp IH|x y l|l k m Hp1 IH1 Hp2 IH2]; simpl.
  - done.
  - destruct (p x); [by constructor | done].
  - destruct (p x), (p y); try done. apply perm_swap.
  - by etrans.
Qed.

Lemma is_stale_spec (now stale : Z) (j : job) :
  is_stale now stale j = true ↔ status j = processing ∧ updated_at j <= now - stale.
Proof.
  unfold is_stale. rewrite andb_true_iff, Z.leb_le.
  destruct (status j); cbn; intuition congruence.
Qed.

Lemma recovered_stale (cfg : tunables) (now : Z) (d : db) (j : job) :
  In j (jobs d) → status j = processing → updated_at j <= now - STALE_SECS cfg →
  In (requeue_row now j) (recovered cfg now d).
Proof.
  intros Hj Hs Hu. unfold recovered, requeueStaleStmt. cbn [snd].
  apply in_sql_update. exists j. split; [done|].
  by rewrite (proj2 (is_stale_spec now (STALE_SECS cfg) j)).
Qed.

Lemma rows_wf_update (p : job → bool) (f : job → job) (seq : Z) (t : list job) :
  (∀ j, id (f j) = id j) → rows_wf seq t → rows_wf seq (sql_update p f t).
Proof.
  intros Hid [Hnd Hle]. split; [by rewrite ids_sql_update|].
  intros j' Hj'. apply in_sql_update in Hj' as (j & Hj & ->).
  destruct (p j); [rewrite Hid|]; by apply Hle.
Qed.

Lemma rows_wf_delete (p : job → bool) (seq : Z) (t : list job) :
  rows_wf seq t → rows_wf seq (sql_delete p t).
Proof.
  intros [Hnd Hle]. split.
  - eapply submseteq_NoDup_ids; [apply filter_submseteq | done].
  - intros j Hj. apply filter_In in Hj as [Hj _]. by apply Hle.
Qed.

Lemma db_wf_requeueStaleJobs (now stale : Z) (d : db) :
  db_wf d → db_wf (snd (requeueStaleJobs now stale d)).
Proof. intros Hwf. by apply rows_wf_update. Qed.

Lemma db_wf_claimJobs (cfg : tunables) (now limit : Z) (d : db) :
  db_wf d → db_wf (snd (claimJobs cfg now limit d)).
Proof.
  intros Hwf. rewrite claimJobs_unfold. unfold db_wf. cbn [snd jobs jobs_seq].
  apply rows_wf_update; [done|]. by apply rows_wf_update.
Qed.

(** C10. A job that is 'processing' and stale when [claimJobs] is called is
    returned by that very call, provided fewer than [limit] other eligible
    jobs sort before it: the recovery has set its [available_at] to the
    [now] of the selection, so it is eligible at once.  Its row ends the
    call 'processing' again, with the attempts it had. *)
Theorem claimJobs_returns_recovered (cfg : tunables) (now limit : Z) (d : db) (j : job) :
  db_wf d →
  In j (jobs d) → status j = processing → updated_at j <= now - STALE_SECS cfg →
  (Z.of_nat (length (List.filter
                       (λ x, eligible now x && claim_ltb x (requeue_row now j))
                       (recovered cfg now d))) < limit) →
  eligible now (requeue_row now j) = true
  ∧ In (claimed_of j) (fst (claimJobs cfg now limit d))
  ∧ In (processing_row now (requeue_row now j)) (jobs (snd (claimJobs cfg now limit d)))
  ∧ attempts (processing_row now (requeue_row now j)) = attempts j.
Proof.
  intros [Hnd _] Hj Hs Hu Hrank.
  set (j' := requeue_row now j) in *.
  assert (Hj' : In j' (recovered cfg now d)) by by apply recovered_stale.
  assert (He : eligible now j' = true).
  { unfold eligible, j'. cbn. apply Z.leb_le. lia. }
  assert (Hsel : In j' (claim_candidates now limit (recovered cfg now d))).
  { unfold claim_candidates, sql_limit.
    destruct (limit <? 0) eqn:E; [apply Z.ltb_lt in E; lia|].
    set (sorted := merge_sort claim_le (List.filter (eligible now) (recovered cfg now d))).
    assert (Hp : sorted ≡ₚ List.filter (eligible now) (recovered cfg now d))
      by apply merge_sort_Permutation.
    apply take_rank.
    - apply sorted_eligible.
    - eapply submseteq_NoDup_ids.
      + etrans; [apply Permutation_submseteq, Hp | apply filter_submseteq].
      + by rewrite recovered_ids.
    - apply list_elem_of_In. rewrite Hp. by apply list_elem_of_In, filter_In.
    - assert (Hlen : length (List.filter (λ y, claim_ltb y j') sorted)
                     = length (List.filter (λ x, eligible now x && claim_ltb x j')
                                 (recovered cfg now d))).
      { rewrite <- filter_filter_andb.
        by apply Permutation_length, filter_Permutation. }
      rewrite Hlen. lia. }
  split; [done|]. split; [|split; [|done]].
  - rewrite claimJobs_claims_selection by done.
    change (claimed_of j) with (claimed_of j'). unfold claimStmt. by apply in_map.
  - rewrite claimJobs_unfold. cbn [snd jobs]. apply in_sql_update.
    exists j'. split; [done|].
    replace (names_id _ (id j')) with true; [done|].
    symmetry. unfold names_id. apply existsb_exists.
    exists (claimed_of j'). split; [by apply in_map|]. cbn. apply Z.eqb_refl.
Qed.

Lemma claimJobs_returns_recovered_witness :
  In (Claimed.mk 1 "X" "x/1.png" "x/1.txt" 0)
     (fst (claimJobs default_tunables 1000 1
             (snd (claimJobs default_tunables 100 1 sample_db)))).
Proof.
  assert (Hwf : db_wf (snd (claimJobs default_tunables 100 1 sample_db))).
  { apply db_wf_claimJobs. unfold sample_db.
    do 2 apply db_wf_enqueueJob. apply db_wf_empty. }
  apply (claimJobs_returns_recovered default_tunables 1000 1 _
           (mkJob 1 "X" "x/1.png" "x/1.txt" processing 0 None 5 100 100 100) Hwf).
  - vm_compute. by left.
  - reflexivity.
  - vm_compute. discriminate.
  - vm_compute. reflexivity.
Defined.

Lemma substring_app_prefix (a b : string) :
  String.substring 0 (String.length a) (a +:+ b) = a.
Proof.
  induction a as [|c a IH].
  - by destruct b.
  - change (String c (String.substring 0 (String.length a) (a +:+ b)) = String c a).
    by rewrite IH.
Qed.

Lemma length_append (a b : string) :
  String.length (a +:+ b) = (String.length a + String.length b)%nat.
Proof.
  induction a as [|c a IH]; [done|].
  change (S (String.length (a +:+ b)) = S (String.length a + String.length b)).
  by rewrite IH.
Qed.

Lemma stale_error_cases :
  stale_error None = stale_note
  ∧ stale_error (Some EmptyString) = stale_note
  ∧ ∀ e, e ≠ EmptyString → stale_error (Some e) = e +:+ newline +:+ stale_note.
Proof.
  split; [done|]. split; [done|]. intros e He. unfold stale_error. cbn.
  by destruct (decide (e = EmptyString)).
Qed.

(** C3. Stale recovery rewrites exactly the rows that are 'processing' with
    [updated_at <= now - threshold]: such a row becomes 'queued' with
    [available_at = now] and [updated_at = now], keeps its attempts, and its
    [last_error] is the prior text (if any, then a newline) followed by the
    recovery note; a row in another status, or with a fresher [updated_at],
    is not modified.  The note is the text
    "[auto] requeued stale processing job": it alone is the new
    [last_error] when there was none or an empty one, and otherwise the new
    [last_error] is the prior text, one line feed (character 10) and the
    note, so the prior text is kept in front and the note is at the end.
    Every claim call begins with this recovery: after [claimJobs] a job
    that was stale has the recovered [available_at], [last_error] and
    attempts, and is 'queued' or, when the call claimed it, 'processing'. *)
Theorem requeueStaleJobs_recovers (cfg : tunables) (now stale limit : Z) (d : db)
    (k : nat) (j : job) :
  jobs d !! k = Some j →
  ∃ j' j'',
    jobs (snd (requeueStaleJobs now stale d)) !! k = Some j'
    ∧ (status j = processing → updated_at j <= now - stale →
         status j' = queued ∧ available_at j' = now ∧ updated_at j' = now
         ∧ attempts j' = attempts j
         ∧ last_error j' = Some (stale_error (last_error j))
         ∧ id j' = id j ∧ folder j' = folder j ∧ image_path j' = image_path j
         ∧ text_path j' = text_path j ∧ priority j' = priority j
         ∧ created_at j' = created_at j)
    ∧ (status j ≠ processing ∨ now - stale < updated_at j → j' = j)
    ∧ stale_error None = "[auto] requeued stale processing job"
    ∧ stale_error (Some EmptyString) = "[auto] requeued stale processing job"
    ∧ (∀ e, e ≠ EmptyString →
         stale_error (Some e)
         = e +:+ String (Ascii.ascii_of_nat 10) "[auto] requeued stale processing job"
         ∧ String.length (stale_error (Some e)) = (String.length e + 37)%nat
         ∧ String.substring 0 (String.length e) (stale_error (Some e)) = e)
    ∧ fst (requeueStaleJobs now stale d)
      = length (List.filter (is_stale now stale) (jobs d))
    ∧ jobs (snd (claimJobs cfg now limit d)) !! k = Some j''
    ∧ (status j = processing → updated_at j <= now - STALE_SECS cfg →
         (status j'' = queued ∨ status j'' = processing)
         ∧ available_at j'' = now
         ∧ attempts j'' = attempts j
         ∧ last_error j'' = Some (stale_error (last_error j))).
Proof.
  intros Hk.
  destruct stale_error_cases as (Hn & He & Hs).
  assert (Hs' : ∀ e, e ≠ EmptyString →
            stale_error (Some e)
            = e +:+ String (Ascii.ascii_of_nat 10) "[auto] requeued stale processing job"
            ∧ String.length (stale_error (Some e)) = (String.length e + 37)%nat
            ∧ String.substring 0 (String.length e) (stale_error (Some e)) = e).
  { intros e Hne. rewrite (Hs e Hne). split; [reflexivity|]. split.
    - rewrite length_append. reflexivity.
    - apply substring_app_prefix. }
  rewrite claimJobs_unfold. unfold recovered, requeueStaleJobs, requeueStaleStmt.
  cbn [fst snd jobs]. rewrite !lookup_sql_update, Hk.
  cbn [fmap option_fmap option_map].
  do 2 eexists. split; [reflexivity|].
  split.
  { intros Hp Hu. by rewrite (proj2 (is_stale_spec now stale j)). }
  split.
  { intros Hfresh. destruct (is_stale now stale j) eqn:E; [|done].
    apply is_stale_spec in E as [Hp Hu]. destruct Hfresh; [done | lia]. }
  do 4 (split; [done|]). split; [reflexivity|].
  intros Hp Hu. rewrite (proj2 (is_stale_spec now (STALE_SECS cfg) j)) by done.
  cbn [status requeue_row status_eqb andb].
  destruct (names_id _ _); cbn; auto.
Qed.

Lemma requeueStaleJobs_recovers_witness :
  ∃ j', jobs (snd (requeueStaleJobs 1000 900
                     (snd (claimJobs default_tunables 100 1 sample_db)))) !! 0%nat
        = Some j'
        ∧ status j' = queued ∧ available_at j' = 1000 ∧ attempts j' = 0
        ∧ last_error j' = Some "[auto] requeued stale processing job".
Proof.
  destruct (requeueStaleJobs_recovers default_tunables 1000 900 1
              (snd (claimJobs default_tunables 100 1 sample_db)) 0
              (mkJob 1 "X" "x/1.png" "x/1.txt" processing 0 None 5 100 100 100)
              eq_refl)
    as (j' & _ & Hk & Hst & _).
  exists j'. split; [exact Hk|].
  destruct (Hst eq_refl) as (Hq & Ha & _ & Hat & Hle & _).
  - vm_compute. discriminate.
  - repeat split; assumption.
Defined.

(** ** Mutual exclusion of claims *)

Lemma lookup_markProcessing (now i : Z) (t : list job) (k : nat) (j : job) :
  t !! k = Some j →
  snd (markProcessing now i t) !! k
  = Some (if (id j =? i) && status_eqb (status j) queued
          then processing_row now j else j).
Proof.
  intros Hk. unfold markProcessing. cbn [snd]. by rewrite lookup_sql_update, Hk.
Qed.

Lemma names_id_in (rows : list Claimed.row) (r : Claimed.row) :
  In r rows → names_id rows (Claimed.id r) = true.
Proof.
  intros Hr. apply existsb_exists. exists r. split; [done | apply Z.eqb_refl].
Qed.

(** Once a candidate naming job [i] has gone through the loop, no row of
    job [i] is 'queued'. *)
Lemma claim_loop_none_queued (now : Z) (rows : list Claimed.row) (t : list job)
    (r : Claimed.row) (j : job) :
  In r rows → In j (snd (claim_loop now rows t [])) → id j = Claimed.id r →
  status j ≠ queued.
Proof.
  intros Hr Hj Hid. rewrite claim_loop_table in Hj.
  apply in_sql_update in Hj as (j0 & Hj0 & ->).
  destruct (status_eqb (status j0) queued) eqn:E; cbn [andb] in *.
  - destruct (names_id rows (id j0)) eqn:N; [done|].
    cbn in Hid. rewrite Hid, names_id_in in N; done.
  - by destruct (status j0).
Qed.

(** A claimed candidate was selected, and names a row that was 'queued'
    when the loop began. *)
Lemma claim_loop_claimed_queued (now : Z) (rows : list Claimed.row) (t : list job)
    (r : Claimed.row) :
  In r (fst (claim_loop now rows t [])) →
  In r rows ∧ ∃ j, In j t ∧ id j = Claimed.id r ∧ status j = queued.
Proof.
  intros Hr. apply claim_loop_claimed in Hr as (rows1 & rows2 & -> & Hch).
  split; [apply in_app_iff; right; by left|].
  unfold markProcessing, sql_changes in Hch. cbn [fst] in Hch.
  destruct (List.filter _ _) as [|j' l] eqn:F; [done|].
  assert (Hj' : In j' (List.filter (mark_matches (Claimed.id r))
                         (snd (claim_loop now rows1 t []))))
    by (rewrite F; by left).
  apply filter_In in Hj' as [Hin Hm]. rewrite claim_loop_table in Hin.
  apply in_sql_update in Hin as (j & Hj & ->).
  unfold mark_matches in Hm. apply andb_true_iff in Hm as [Hi Hq].
  destruct (status_eqb (status j) queued && names_id rows1 (id j)) eqn:E.
  - cbn in Hq. done.
  - exists j. split; [done|]. apply Z.eqb_eq in Hi. split; [done|].
    by destruct (status j).
Qed.

(** After a claim call, the rows of a returned job are 'processing' and
    carry the time of the call. *)
Lemma claimJobs_claimed_row (cfg : tunables) (now limit : Z) (d : db)
    (r : Claimed.row) (j : job) :
  db_wf d → In r (fst (claimJobs cfg now limit d)) →
  In j (jobs (snd (claimJobs cfg now limit d))) → id j = Claimed.id r →
  status j = processing ∧ updated_at j = now.
Proof.
  intros [Hnd _] Hr Hj Hid. rewrite claimJobs_unfold in Hr, Hj.
  cbn [fst snd jobs] in Hr, Hj.
  apply claim_loop_claimed_queued in Hr as (Hsel & jq & Hjq & Hiq & Hq).
  apply in_sql_update in Hj as (j0 & Hj0 & ->).
  assert (Hid0 : id j0 = Claimed.id r) by (by destruct (_ && _)).
  assert (j0 = jq) as ->.
  { apply (NoDup_ids_inj (recovered cfg now d)); [|done..|congruence].
    by rewrite recovered_ids. }
  by rewrite Hq, Hiq, names_id_in.
Qed.

(** C1, as the code has it.  Only one claimant moves a job from 'queued'
    to 'processing' as long as the job is not stale.
    [markProcessing] rewrites a row only when it is the named job and
    'queued' (a row in another status stays as it is), and reports the
    number of rows it rewrote; the claim set of [claimJobs] holds exactly the
    candidates whose own conditional update changed one row; a second
    attempt on the same job changes zero rows; hence two claim loops run one
    after the other, whatever candidates each had selected, never both
    return a job, and neither do two [claimJobs] calls when the second comes
    before the staleness threshold has elapsed. *)
Theorem claim_mutual_exclusion (cfg : tunables) (now1 now2 limit1 limit2 : Z) (d : db) :
  (∀ i k j, jobs d !! k = Some j →
     snd (markProcessing now1 i (jobs d)) !! k
     = Some (if (id j =? i) && status_eqb (status j) queued
             then processing_row now1 j else j)
     ∧ (status j ≠ queued → snd (markProcessing now1 i (jobs d)) !! k = Some j))
  ∧ (∀ i, fst (markProcessing now1 i (jobs d))
          = length (List.filter
                      (λ j, (id j =? i) && status_eqb (status j) queued) (jobs d)))
  ∧ (∀ r, In r (fst (claimJobs cfg now1 limit1 d))
          ↔ ∃ rows1 rows2,
              claimStmt now1 limit1 (recovered cfg now1 d) = rows1 ++ r :: rows2
              ∧ fst (markProcessing now1 (Claimed.id r)
                       (snd (claim_loop now1 rows1 (recovered cfg now1 d) [])))
                = 1%nat)
  ∧ (∀ i, fst (markProcessing now2 i (snd (markProcessing now1 i (jobs d)))) = 0%nat)
  ∧ (∀ rows1 rows2 r1 r2,
       In r1 (fst (claim_loop now1 rows1 (jobs d) [])) →
       In r2 (fst (claim_loop now2 rows2 (snd (claim_loop now1 rows1 (jobs d) [])) [])) →
       Claimed.id r1 ≠ Claimed.id r2)
  ∧ (db_wf d → now2 - STALE_SECS cfg < now1 →
     ∀ r1 r2,
       In r1 (fst (claimJobs cfg now1 limit1 d)) →
       In r2 (fst (claimJobs cfg now2 limit2 (snd (claimJobs cfg now1 limit1 d)))) →
       Claimed.id r1 ≠ Claimed.id r2).
Proof.
  split.
  { intros i k j Hk. rewrite (lookup_markProcessing now1 i _ k j Hk).
    split; [done|]. intros Hq. by destruct (status j), (id j =? i). }
  split; [done|]. split.
  { intros r. rewrite claimJobs_unfold. cbn [fst]. apply claim_loop_claimed. }
  split; [intros i; apply markProcessing_markProcessing|]. split.
  { intros rows1 rows2 r1 r2 H1 H2 E.
    apply claim_loop_claimed_queued in H1 as [Hsel _].
    apply claim_loop_claimed_queued in H2 as (_ & j & Hj & Hid & Hq).
    rewrite <- E in Hid.
    by apply (claim_loop_none_queued now1 rows1 (jobs d) r1 j). }
  intros Hwf Hfresh r1 r2 H1 H2 E.
  set (d1 := snd (claimJobs cfg now1 limit1 d)) in *.
  rewrite claimJobs_unfold in H2. cbn [fst] in H2.
  apply claim_loop_claimed_queued in H2 as (_ & j & Hj & Hid & Hq).
  unfold recovered, requeueStaleStmt in Hj. cbn [snd] in Hj.
  apply in_sql_update in Hj as (j0 & Hj0 & ->).
  assert (Hid0 : id j0 = Claimed.id r1).
  { rewrite E, <- Hid. by destruct (is_stale _ _ _). }
  destruct (claimJobs_claimed_row cfg now1 limit1 d r1 j0 Hwf H1 Hj0 Hid0) as [Hp Hu].
  destruct (is_stale now2 (STALE_SECS cfg) j0) eqn:S.
  - apply is_stale_spec in S as [_ S]. lia.
  - congruence.
Qed.

Lemma claim_mutual_exclusion_witness :
  fst (claimJobs default_tunables 100 1 sample_db)
  = [Claimed.mk 1 "X" "x/1.png" "x/1.txt" 0]
  ∧ fst (claimJobs default_tunables 130 1
           (snd (claimJobs default_tunables 100 1 sample_db)))
    = [Claimed.mk 2 "X" "x/2.png" "x/2.txt" 0]
  ∧ Claimed.id (Claimed.mk 1 "X" "x/1.png" "x/1.txt" 0)
    ≠ Claimed.id (Claimed.mk 2 "X" "x/2.png" "x/2.txt" 0).
Proof.
  split; [reflexivity|]. split; [reflexivity|].
  destruct (claim_mutual_exclusion default_tunables 100 130 1 1 sample_db)
    as (_ & _ & _ & _ & _ & H).
  apply H.
  - unfold sample_db. do 2 apply db_wf_enqueueJob. apply db_wf_empty.
  - reflexivity.
  - vm_compute. by left.
  - vm_compute. by left.
Defined.

(** C1 as stated fails: two claim calls do both return a job when the
    second comes after the staleness threshold has elapsed.  The first call
    leaves job 1 'processing', updated at 100; the second, 900 seconds later
    with the default threshold, first requeues it as stale and then returns
    it again, with the same attempt count. *)
Lemma claimed_twice_counterexample :
  let first := claimJobs default_tunables 100 1 sample_db in
  let second := claimJobs default_tunables 1000 1 (snd first) in
  db_wf sample_db
  ∧ fst first = [Claimed.mk 1 "X" "x/1.png" "x/1.txt" 0]
  ∧ map (λ j, (id j, status j, updated_at j)) (jobs (snd first))
    = [(1, processing, 100); (2, queued, 100)]
  ∧ fst second = [Claimed.mk 1 "X" "x/1.png" "x/1.txt" 0]
  ∧ In (Claimed.mk 1 "X" "x/1.png" "x/1.txt" 0) (fst first)
  ∧ In (Claimed.mk 1 "X" "x/1.png" "x/1.txt" 0) (fst second).
Proof.
  split.
  { unfold sample_db. do 2 apply db_wf_enqueueJob. apply db_wf_empty. }
  vm_compute. repeat split; auto.
Qed.

(** ** Terminal statuses *)

Lemma in_update_same_id (p : job → bool) (f : job → job) (t : list job) (j j' : job) :
  (∀ x, id (f x) = id x) → NoDup (map id t) → In j t → p j = false →
  In j' (sql_update p f t) → id j' = id j → j' = j.
Proof.
  intros Hid Hnd Hj Hp Hj' E. apply in_sql_update in Hj' as (j0 & Hj0 & ->).
  assert (id j0 = id j) by (destruct (p j0); [rewrite Hid in E|]; done).
  assert (j0 = j) as -> by by apply (NoDup_ids_inj t).
  by rewrite Hp.
Qed.

Lemma exec_keeps_untargeted (cfg : tunables) (now : Z) (o : op) (d : db) (j j' : job) :
  db_wf d → In j (jobs d) → is_terminal j = true → targets o ≠ Some (id j) →
  In j' (jobs (exec cfg now o d)) → id j' = id j → j' = j.
Proof.
  intros Hwf Hj Ht Ho Hj' E. pose proof Hwf as [Hnd Hle].
  assert (Hnq : status_eqb (status j) queued = false
                ∧ status_eqb (status j) processing = false).
  { unfold is_terminal in Ht. by destruct (status j). }
  destruct Hnq as [Hnq Hnp].
  destruct o as [fld img txt prio dl|limit|i|i a err mx bo|rnd w r|st|days|fld];
    cbn [exec targets] in *.
  - unfold enqueueJob in Hj'. cbn [jobs] in Hj'.
    apply in_app_iff in Hj' as [Hj'|[<-|[]]].
    + by apply (NoDup_ids_inj (jobs d)).
    + cbn in E. apply Hle in Hj. lia.
  - rewrite claimJobs_unfold in Hj'. cbn [snd jobs] in Hj'.
    assert (Hjr : In j (recovered cfg now d)).
    { unfold recovered, requeueStaleStmt. cbn [snd]. apply in_sql_update.
      exists j. split; [done|]. unfold is_stale. by rewrite Hnp. }
    eapply in_update_same_id; [| |exact Hjr| |exact Hj'|exact E]; [done| |].
    + by rewrite recovered_ids.
    + cbn beta. by rewrite Hnq.
  - unfold completeJob, markDone in Hj'. cbn [snd jobs] in Hj'.
    eapply in_update_same_id; [| |exact Hj| |exact Hj'|exact E]; [done..|].
    apply Z.eqb_neq. congruence.
  - unfold failJob, markFail in Hj'. cbn [snd jobs] in Hj'.
    eapply in_update_same_id; [| |exact Hj| |exact Hj'|exact E]; [done..|].
    apply Z.eqb_neq. congruence.
  - assert (Hne : (id j =? Claimed.id r) = false) by (apply Z.eqb_neq; congruence).
    unfold workOne in Hj'. destruct (attempt w).
    + unfold failJob, markFail in Hj'. cbn [snd jobs] in Hj'.
      eapply in_update_same_id; [| |exact Hj| |exact Hj'|exact E]; done.
    + unfold completeJob, markDone in Hj'. cbn [snd jobs] in Hj'.
      eapply in_update_same_id; [| |exact Hj| |exact Hj'|exact E]; done.
  - unfold requeueStaleJobs, requeueStaleStmt in Hj'. cbn [snd jobs] in Hj'.
    eapply in_update_same_id; [| |exact Hj| |exact Hj'|exact E]; [done..|].
    unfold is_stale. by rewrite Hnp.
  - rewrite purgeOldJobs_eq in Hj'. cbn [snd jobs] in Hj'.
    apply filter_In in Hj' as [Hj' _]. by apply (NoDup_ids_inj (jobs d)).
  - rewrite nextSerial_eq in Hj'. cbn [snd jobs] in Hj'.
    by apply (NoDup_ids_inj (jobs d)).
Qed.

(** C6, as the code has it.  A job that is 'done' or 'failed' is changed by
    no store operation except a [completeJob] or [failJob] aimed at its own
    id: [claimJobs], [markProcessing] and [requeueStaleJobs] leave its row
    as it is, so do completions and failures of other jobs, and the
    retention sweep only deletes.  [markDone] and [markFail] do not look at
    the current status: aimed at a terminal job, [completeJob] makes it
    'done' and [failJob] makes it 'failed' when [attempts + 1 >= maxAttempts]
    and 'queued' otherwise.  A failure with [attempts + 1 >= maxAttempts]
    never writes 'queued'. *)
Theorem terminal_unless_targeted (cfg : tunables) (now : Z) (d : db) (k : nat) (j : job) :
  db_wf d → jobs d !! k = Some j → is_terminal j = true →
  (∀ o j', targets o ≠ Some (id j) →
     In j' (jobs (exec cfg now o d)) → id j' = id j → j' = j)
  ∧ (∀ limit, jobs (snd (claimJobs cfg now limit d)) !! k = Some j)
  ∧ (∀ i, snd (markProcessing now i (jobs d)) !! k = Some j)
  ∧ (∀ stale, jobs (snd (requeueStaleJobs now stale d)) !! k = Some j)
  ∧ (∃ j', jobs (completeJob now (id j) d) !! k = Some j' ∧ status j' = done)
  ∧ (∀ a err maxAttempts backoff,
       ∃ j', jobs (failJob now (id j) a err maxAttempts backoff d) !! k = Some j'
             ∧ (a + 1 >= maxAttempts → status j' = failed)
             ∧ (a + 1 < maxAttempts → status j' = queued)).
Proof.
  intros Hwf Hk Ht.
  assert (Hj : In j (jobs d)) by (apply list_elem_of_In; by eapply list_elem_of_lookup_2).
  assert (Hnq : status_eqb (status j) queued = false
                ∧ status_eqb (status j) processing = false).
  { unfold is_terminal in Ht. by destruct (status j). }
  destruct Hnq as [Hnq Hnp].
  split; [intros o j'; by apply exec_keeps_untargeted|].
  split.
  { intros limit. rewrite claimJobs_unfold. cbn [snd jobs].
    unfold recovered, requeueStaleStmt. cbn [snd].
    rewrite !lookup_sql_update, Hk. cbn [fmap option_fmap option_map].
    unfold is_stale. rewrite Hnp. cbn [andb]. by rewrite Hnq. }
  split.
  { intros i. rewrite (lookup_markProcessing now i _ k j Hk).
    by rewrite Hnq, andb_false_r. }
  split.
  { intros stale. unfold requeueStaleJobs, requeueStaleStmt. cbn [snd jobs].
    rewrite lookup_sql_update, Hk. cbn [fmap option_fmap option_map].
    unfold is_stale. by rewrite Hnp. }
  split.
  { unfold completeJob, markDone. cbn [snd jobs].
    rewrite lookup_sql_update, Hk. cbn [fmap option_fmap option_map].
    rewrite Z.eqb_refl. by eexists. }
  intros a err maxAttempts backoff. unfold failJob, markFail. cbn [snd jobs].
  rewrite lookup_sql_update, Hk. cbn [fmap option_fmap option_map].
  rewrite Z.eqb_refl. eexists. split; [done|]. cbn [status fail_row].
  destruct (a + 1 >=? maxAttempts) eqn:G; cbn; split; intros; try done; lia.
Qed.

Lemma terminal_unless_targeted_witness :
  jobs (snd (claimJobs default_tunables 500 4
               (completeJob 110 1 (snd (claimJobs default_tunables 100 1 sample_db)))))
    !! 0%nat
  = Some (mkJob 1 "X" "x/1.png" "x/1.txt" done 0 None 5 100 100 110).
Proof.
  assert (Hwf : db_wf (completeJob 110 1 (snd (claimJobs default_tunables 100 1 sample_db)))).
  { apply rows_wf_update; [done|]. apply db_wf_claimJobs. unfold sample_db.
    do 2 apply db_wf_enqueueJob. apply db_wf_empty. }
  destruct (terminal_unless_targeted default_tunables 500 _ 0
              (mkJob 1 "X" "x/1.png" "x/1.txt" done 0 None 5 100 100 110)
              Hwf eq_refl eq_refl) as (_ & H & _).
  apply H.
Defined.

(** C6 as stated fails: a job that a second worker has completed after a
    stale recovery is sent back to 'queued' by the late failure of the first
    worker, which still holds the row it claimed. *)
Lemma done_job_requeued_counterexample :
  let r := Claimed.mk 1 "X" "x/1.png" "x/1.txt" 0 in
  let h := [(0, Enqueue "X" "x/1.png" "x/1.txt" 0 0);
            (0, Claim 1); (900, Claim 1);
            (905, Work (1 # 2) world_ok r)] in
  let d := fst (run default_tunables h (empty_db, λ _, None)) in
  map status (jobs d) = [done]
  ∧ map status (jobs (exec default_tunables 910 (Work (1 # 2) world_timeout r) d))
    = [queued]
  ∧ map status (jobs (completeJob 920 1
                       (failJob 910 1 2 "timeout" 3 5
                          (snd (claimJobs default_tunables 0 1
                                  (enqueueJob 0 "X" "x/1.png" "x/1.txt" 0 0 empty_db))))))
    = [done].
Proof. vm_compute. auto. Qed.

(** ** Availability never precedes the entry into 'queued' *)

Lemma is_queued_id_in (t : list job) (j : job) :
  In j t → status j = queued → is_queued_id t (id j) = true.
Proof.
  intros Hj Hq. apply existsb_exists. exists j. split; [done|].
  by rewrite Z.eqb_refl, Hq.
Qed.

Lemma is_queued_id_unique (t : list job) (j : job) :
  NoDup (map id t) → In j t → is_queued_id t (id j) = true → status j = queued.
Proof.
  intros Hnd Hj Hq. apply existsb_exists in Hq as (x & Hx & Hm).
  apply andb_true_iff in Hm as [Hi Hs]. apply Z.eqb_eq in Hi.
  rewrite <- (NoDup_ids_inj t x j Hnd Hx Hj Hi). by destruct (status x).
Qed.

(** One statement's worth of bookkeeping.  Every row of the new table either
    continues a row of the old one (same id; [available_at] kept and not
    newly 'queued', or [available_at] rewritten to [now] or later), or is a
    fresh row that enters 'queued' with [available_at] at [now] or later. *)
Lemma note_entries_ok (T now seq seq' : Z) (old new : list job)
    (m m' : gmap string Z) (g : Z → option Z) :
  T <= now →
  entries_ok T (mkDb old seq m, g) →
  rows_wf seq' new →
  (∀ j', In j' new →
     (∃ j, In j old ∧ id j = id j'
           ∧ ((available_at j' = available_at j
               ∧ (status j' = queued → status j = queued))
              ∨ now <= available_at j'))
     ∨ (now <= available_at j' ∧ enters_queued old new (id j') = true)) →
  entries_ok now (mkDb new seq' m', note_entries now old new g).
Proof.
  intros HT (Hwf & HgT & Hav) Hwf' Hrows. unfold entries_ok.
  cbn [fst snd jobs] in *.
  split; [done|]. split.
  { intros i t. unfold note_entries. cbn beta. destruct (enters_queued old new i).
    - intros [= Hn]. lia.
    - intros Hg. apply HgT in Hg. lia. }
  intros j' Hj'. unfold note_entries. cbn beta.
  destruct (Hrows j' Hj') as [(j & Hj & Hid & Hcase)|[Hnow He]].
  - destruct (enters_queued old new (id j')) eqn:E.
    + exists now. split; [done|].
      destruct Hcase as [[Ha Hs]|Hn]; [|done]. exfalso.
      unfold enters_queued in E. apply andb_true_iff in E as [E1 E2].
      apply is_queued_id_unique in E1; [|apply Hwf'|done].
      rewrite <- Hid, (is_queued_id_in old j Hj (Hs E1)) in E2. done.
    + destruct (Hav j Hj) as (t & Hg & Hle). rewrite Hid in Hg.
      exists t. split; [done|]. destruct Hcase as [[Ha _]|Hn]; [lia|].
      apply HgT in Hg. lia.
  - rewrite He. by exists now.
Qed.

Lemma backoffSeconds_ge_1 (cfg : tunables) (rnd : Q) (n : Z) :
  1 <= backoffSeconds cfg rnd n.
Proof. unfold backoffSeconds. lia. Qed.

Lemma update_continues (now : Z) (p : job → bool) (f : job → job) (old : list job) :
  (∀ j, id (f j) = id j) →
  (∀ j, p j = true →
     (available_at (f j) = available_at j ∧ status (f j) ≠ queued)
     ∨ now <= available_at (f j)) →
  ∀ j', In j' (sql_update p f old) →
    (∃ j, In j old ∧ id j = id j'
          ∧ ((available_at j' = available_at j
              ∧ (status j' = queued → status j = queued))
             ∨ now <= available_at j'))
    ∨ (now <= available_at j' ∧ enters_queued old (sql_update p f old) (id j') = true).
Proof.
  intros Hid Hf j' Hj'. left. apply in_sql_update in Hj' as (j & Hj & ->).
  exists j. split; [done|]. destruct (p j) eqn:E; [|by split; [|left]].
  split; [done|]. destruct (Hf j E) as [[Ha Hs]|Hn]; [left|by right].
  by split.
Qed.

Lemma exec_noting_ok (cfg : tunables) (T now : Z) (o : op) (s : db * (Z → option Z)) :
  T <= now → sane_op o → entries_ok T s → entries_ok now (exec_noting cfg now o s).
Proof.
  intros HT Hsane Hok. destruct s as [[old seq m] g].
  pose proof Hok as (Hwf & _ & _). cbn [fst] in Hwf.
  destruct o as [fld img txt prio dl|limit|i|i a err mx bo|rnd w r|st|days|fld];
    cbn [exec_noting exec sane_op] in *.
  - pose proof (db_wf_enqueueJob now fld img txt prio dl _ Hwf) as Hwf'.
    unfold enqueueJob in *. cbn [jobs jobs_seq folders] in *.
    eapply (note_entries_ok T); [done|exact Hok|done|].
    intros j' Hj'. apply in_app_iff in Hj' as [Hj'|[<-|[]]].
    + left. exists j'. split; [done|]. split; [done|]. by left.
    + right. cbn [available_at id]. split; [lia|].
      unfold enters_queued. apply andb_true_iff. split.
      * apply existsb_exists. eexists. split; [apply in_app_iff; right; by left|].
        cbn. by rewrite Z.eqb_refl.
      * apply negb_true_iff, not_true_iff_false. intros H.
        apply existsb_exists in H as (x & Hx & Hm).
        apply andb_true_iff in Hm as [Hm _]. apply Z.eqb_eq in Hm.
        destruct Hwf as [_ Hle]. apply Hle in Hx. cbn in Hx. lia.
  - rewrite claimJobs_unfold. cbn [snd].
    change (jobs (snd (requeueStaleJobs now (STALE_SECS cfg) (mkDb old seq m))))
      with (recovered cfg now (mkDb old seq m)).
    set (t1 := recovered cfg now (mkDb old seq m)).
    assert (Hwf1 : rows_wf seq t1) by by apply rows_wf_update.
    cbn [jobs jobs_seq folders].
    apply (note_entries_ok now now seq seq t1 _ m m); [lia| |by apply rows_wf_update|].
    + eapply (note_entries_ok T); [done|exact Hok|done|].
      apply update_continues; [done|]. intros j _. right. cbn. lia.
    + apply update_continues; [done|]. intros j _. left. by split.
  - unfold completeJob, markDone. cbn [snd jobs jobs_seq folders].
    eapply (note_entries_ok T); [done|exact Hok|by apply rows_wf_update|].
    apply update_continues; [done|]. intros j _. left. by split.
  - unfold failJob, markFail. cbn [snd jobs jobs_seq folders].
    eapply (note_entries_ok T); [done|exact Hok|by apply rows_wf_update|].
    apply update_continues; [done|]. intros j _. right. cbn [available_at fail_row].
    destruct (a + 1 >=? mx); cbn; lia.
  - unfold workOne. destruct (attempt w) as [e|].
    + unfold failJob, markFail. cbn [snd jobs jobs_seq folders].
      eapply (note_entries_ok T); [done|exact Hok|by apply rows_wf_update|].
      apply update_continues; [done|]. intros j _. right. cbn [available_at fail_row].
      pose proof (backoffSeconds_ge_1 cfg rnd (Claimed.attempts r)).
      destruct (Claimed.attempts r + 1 >=? MAX_ATTEMPTS cfg); cbn; lia.
    + unfold completeJob, markDone. cbn [snd jobs jobs_seq folders].
      eapply (note_entries_ok T); [done|exact Hok|by apply rows_wf_update|].
      apply update_continues; [done|]. intros j _. left. by split.
  - unfold requeueStaleJobs, requeueStaleStmt. cbn [snd jobs jobs_seq folders].
    eapply (note_entries_ok T); [done|exact Hok|by apply rows_wf_update|].
    apply update_continues; [done|]. intros j _. right. cbn. lia.
  - rewrite purgeOldJobs_eq. cbn [snd jobs jobs_seq folders].
    eapply (note_entries_ok T);
      [done|exact Hok|by apply (rows_wf_delete (purgeable _ _))|].
    intros j' Hj'. apply filter_In in Hj' as [Hj' _].
    left. exists j'. split; [done|]. split; [done|]. by left.
  - rewrite nextSerial_eq. cbn [snd jobs jobs_seq folders].
    eapply (note_entries_ok T); [done|exact Hok|exact Hwf|].
    intros j' Hj'. left. exists j'. split; [done|]. split; [done|]. by left.
Qed.

Lemma run_ok (cfg : tunables) (h : list (Z * op)) :
  ∀ T s, sane_from T h → entries_ok T s →
         ∃ T', entries_ok T' (run cfg h s).
Proof.
  induction h as [|[now o] h IH]; intros T s Hsane Hok; [by exists T|].
  destruct Hsane as (HT & Ho & Hrest). cbn [run].
  apply (IH now); [done|]. by apply exec_noting_ok with T.
Qed.

(** C8. Along every history of store operations that starts from the empty
    database, with a clock that never goes back, enqueue delays that are not
    negative and, for direct [failJob] calls, backoffs that are not negative
    (the worker's own are at least 1): every job has an entry time into
    'queued', and its [available_at] is greater than or equal to the last
    one.  [enqueueJob] inserts the job 'queued' with
    [available_at = now + delaySeconds]. *)
Theorem available_at_ge_entry (cfg : tunables) (t0 : Z) (h : list (Z * op)) (j : job) :
  sane_from t0 h →
  In j (jobs (fst (run cfg h (empty_db, λ _, None)))) →
  (∃ t, snd (run cfg h (empty_db, λ _, None)) (id j) = Some t ∧ t <= available_at j)
  ∧ (∀ now fld img txt prio delaySeconds d,
       jobs (enqueueJob now fld img txt prio delaySeconds d)
       = jobs d ++ [mkJob (jobs_seq d + 1) fld img txt queued 0 None prio
                      (now + delaySeconds) now now]).
Proof.
  intros Hsane Hj. split; [|done].
  destruct (run_ok cfg h t0 (empty_db, λ _, None) Hsane) as (T' & _ & _ & Hav).
  - split; [apply db_wf_empty|]. split; [done|]. intros x [].
  - by apply Hav.
Qed.

Lemma available_at_ge_entry_witness :
  ∃ t, snd (run default_tunables
              [(0, Enqueue "X" "x/1.png" "x/1.txt" 0 0); (0, Claim 1);
               (5, Fail 1 0 "timeout" 3 7)]
              (empty_db, λ _, None)) 1 = Some t
       ∧ t <= 12.
Proof.
  destruct (available_at_ge_entry default_tunables 0
              [(0, Enqueue "X" "x/1.png" "x/1.txt" 0 0); (0, Claim 1);
               (5, Fail 1 0 "timeout" 3 7)]
              (mkJob 1 "X" "x/1.png" "x/1.txt" queued 1 (Some "timeout") 0 12 0 5))
    as [H _].
  - cbn. repeat split; lia.
  - vm_compute. by left.
  - exact H.
Defined.

(** ** Behaviour at the edges of the hypotheses above *)

(** The retry of the history above entered 'queued' at 5. *)
Example entry_time_of_retry :
  snd (run default_tunables
         [(0, Enqueue "X" "x/1.png" "x/1.txt" 0 0); (0, Claim 1);
          (5, Fail 1 0 "timeout" 3 7)]
         (empty_db, λ _, None)) 1 = Some 5.
Proof. vm_compute. reflexivity. Qed.

(** [enqueueJob] does not check its delay: a negative one makes the job
    available before it was enqueued. *)
Example enqueue_negative_delay :
  map available_at (jobs (enqueueJob 100 "X" "x/1.png" "x/1.txt" 0 (-5) empty_db))
  = [95].
Proof. reflexivity. Qed.

(** [LIMIT] with a negative bound returns every eligible row. *)
Example claim_negative_limit :
  map Claimed.id (fst (claimJobs default_tunables 100 (-1) sample_db)) = [1; 2].
Proof. vm_compute. reflexivity. Qed.

(** A claimed job that nobody completes is handed out again once the
    staleness threshold has elapsed. *)
Example claim_again_after_stale :
  map Claimed.id (fst (claimJobs default_tunables 100 1 sample_db)) = [1]
  ∧ map Claimed.id
      (fst (claimJobs default_tunables 1000 1
              (snd (claimJobs default_tunables 100 1 sample_db)))) = [1].
Proof. vm_compute. auto. Qed.

(** A message longer than 2000 characters is cut. *)
Example slice_2000_cuts :
  String.length (slice_2000 (String.concat EmptyString (repeat "a" 2001))) = 2000%nat.
Proof. vm_compute. reflexivity. Qed.

(** ** Looking jobs up *)

Lemma getJob_Some (i : Z) (d : db) (j : job) :
  getJob i d = Some j → In j (jobs d) ∧ id j = i.
Proof.
  unfold getJob. intros H. apply find_some in H as [Hin Hid].
  split; [done | by apply Z.eqb_eq].
Qed.

Lemma getJob_None (i : Z) (d : db) :
  getJob i d = None ↔ ∀ j, In j (jobs d) → id j ≠ i.
Proof.
  unfold getJob. split.
  - intros H j Hj. apply Z.eqb_neq. by apply (find_none _ _ H).
  - intros H. destruct (List.find _ _) as [j|] eqn:E; [|done].
    apply find_some in E as [Hin Hid]. apply Z.eqb_eq in Hid. by destruct (H j Hin).
Qed.

Lemma getJob_in (d : db) (j : job) :
  db_wf d → In j (jobs d) → getJob (id j) d = Some j.
Proof.
  intros [Hnd _] Hj. destruct (getJob (id j) d) as [x|] eqn:E.
  - apply getJob_Some in E as [Hx Hid]. f_equal. by apply (NoDup_ids_inj (jobs d)).
  - rewrite getJob_None in E. by destruct (E j Hj).
Qed.

Lemma find_sql_update (p : job → bool) (f : job → job) (i : Z) (t : list job) :
  (∀ x, id (f x) = id x) →
  List.find (λ j, id j =? i) (sql_update p f t)
  = (λ j, if p j then f j else j) <$> List.find (λ j, id j =? i) t.
Proof.
  intros Hid. induction t as [|a t IH]; [done|]. cbn [sql_update map List.find].
  assert (E : id (if p a then f a else a) = id a) by (destruct (p a); [apply Hid|done]).
  rewrite E. destruct (id a =? i); [done|]. apply IH.
Qed.

Lemma find_app_fresh (i : Z) (t : list job) (n : job) :
  List.find (λ j, id j =? i) (t ++ [n])
  = match List.find (λ j, id j =? i) t with
    | Some j => Some j
    | None => if id n =? i then Some n else None
    end.
Proof.
  induction t as [|a t IH]; cbn [app List.find]; [done|].
  destruct (id a =? i); [done | apply IH].
Qed.

Lemma find_filter_wf (q : job → bool) (i : Z) (t : list job) (j : job) :
  NoDup (map id t) → List.find (λ x, id x =? i) t = Some j →
  List.find (λ x, id x =? i) (List.filter q t) = if q j then Some j else None.
Proof.
  intros Hnd Hf. apply find_some in Hf as [Hj Hid]. apply Z.eqb_eq in Hid.
  destruct (List.find _ (List.filter q t)) as [x|] eqn:E.
  - apply find_some in E as [Hx Hxi]. apply Z.eqb_eq in Hxi.
    apply filter_In in Hx as [Hx Hq].
    assert (x = j) as -> by (apply (NoDup_ids_inj t); [done..|congruence]).
    by rewrite Hq.
  - destruct (q j) eqn:Q; [|done].
    pose proof (find_none _ _ E j (proj2 (filter_In q j t) (conj Hj Q))) as Hn.
    cbn beta in Hn. apply Z.eqb_neq in Hn. done.
Qed.

Lemma getJob_after_enqueueJob (now : Z) (fld img txt : string) (prio delaySeconds : Z) (d : db) :
  db_wf d →
  getJob (jobs_seq d + 1) d = None
  ∧ getJob (jobs_seq d + 1) (enqueueJob now fld img txt prio delaySeconds d)
    = Some (mkJob (jobs_seq d + 1) fld img txt queued 0 None prio
              (now + delaySeconds) now now)
  ∧ (∀ i, i ≠ jobs_seq d + 1 →
       getJob i (enqueueJob now fld img txt prio delaySeconds d) = getJob i d)
  ∧ (∀ now', ∃ j1 j2,
       let d2 := enqueueJob now' fld img txt prio delaySeconds
                   (enqueueJob now fld img txt prio delaySeconds d) in
       getJob (jobs_seq d + 1) d2 = Some j1 ∧ getJob (jobs_seq d + 2) d2 = Some j2
       ∧ image_path j1 = image_path j2 ∧ id j1 ≠ id j2).
Proof.
  intros Hwf. pose proof Hwf as [Hnd Hle].
  assert (Hfree : getJob (jobs_seq d + 1) d = None).
  { apply getJob_None. intros j Hj. apply Hle in Hj. lia. }
  assert (Hnew : ∀ now0 d0, getJob (jobs_seq d0 + 1) d0 = None →
            getJob (jobs_seq d0 + 1) (enqueueJob now0 fld img txt prio delaySeconds d0)
            = Some (mkJob (jobs_seq d0 + 1) fld img txt queued 0 None prio
                      (now0 + delaySeconds) now0 now0)).
  { intros now0 d0 H0. unfold getJob, enqueueJob in *. cbn [jobs].
    rewrite find_app_fresh, H0. cbn [id]. by rewrite Z.eqb_refl. }
  assert (Hold : ∀ now0 d0 i, i ≠ jobs_seq d0 + 1 →
            getJob i (enqueueJob now0 fld img txt prio delaySeconds d0) = getJob i d0).
  { intros now0 d0 i Hi. unfold getJob, enqueueJob. cbn [jobs].
    rewrite find_app_fresh. destruct (List.find _ _); [done|]. cbn [id].
    destruct (jobs_seq d0 + 1 =? i) eqn:E; [apply Z.eqb_eq in E; lia | done]. }
  split; [done|]. split; [by apply Hnew|]. split; [apply Hold|].
  intros now'. do 2 eexists. cbn zeta. split; [|split].
  - rewrite Hold by (cbn; lia). by apply Hnew.
  - replace (jobs_seq d + 2)
      with (jobs_seq (enqueueJob now fld img txt prio delaySeconds d) + 1) by (cbn; lia).
    apply Hnew. apply getJob_None. intros j Hj.
    apply (db_wf_enqueueJob now fld img txt prio delaySeconds) in Hwf as [_ Hle'].
    apply Hle' in Hj. lia.
  - cbn. split; [done | lia].
Qed.

(** X1. [getJob] finds a job under the id [enqueueJob] gave it: the id is the
    high-water mark plus one, it was free before, the row read back is the
    row inserted, and the lookups of all other ids are as before; enqueueing
    the same content twice gives two jobs. *)
Theorem getJob_enqueueJob (now : Z) (fld img txt : string) (prio delaySeconds : Z) (d : db) :
  db_wf d →
  getJob (jobs_seq d + 1) d = None
  ∧ getJob (jobs_seq d + 1) (enqueueJob now fld img txt prio delaySeconds d)
    = Some (mkJob (jobs_seq d + 1) fld img txt queued 0 None prio
              (now + delaySeconds) now now)
  ∧ (∀ i, i ≠ jobs_seq d + 1 →
       getJob i (enqueueJob now fld img txt prio delaySeconds d) = getJob i d)
  ∧ (∀ now', ∃ j1 j2,
       let d2 := enqueueJob now' fld img txt prio delaySeconds
                   (enqueueJob now fld img txt prio delaySeconds d) in
       getJob (jobs_seq d + 1) d2 = Some j1 ∧ getJob (jobs_seq d + 2) d2 = Some j2
       ∧ image_path j1 = image_path j2 ∧ id j1 ≠ id j2).
Proof. exact (getJob_after_enqueueJob now fld img txt prio delaySeconds d). Qed.

Lemma getJob_enqueueJob_witness :
  getJob 3 (enqueueJob 120 "X" "x/3.png" "x/3.txt" 0 0 sample_db)
  = Some (mkJob 3 "X" "x/3.png" "x/3.txt" queued 0 None 0 120 120 120).
Proof.
  apply (getJob_enqueueJob 120 "X" "x/3.png" "x/3.txt" 0 0 sample_db).
  unfold sample_db. do 2 apply db_wf_enqueueJob. apply db_wf_empty.
Defined.

(** ** What no operation does to a job *)

Lemma exec_db_wf (cfg : tunables) (now : Z) (o : op) (d : db) :
  db_wf d → db_wf (exec cfg now o d) ∧ jobs_seq d <= jobs_seq (exec cfg now o d).
Proof.
  intros Hwf.
  destruct o as [fld img txt prio dl|limit|i|i a err mx bo|rnd w r|st|days|fld];
    cbn [exec].
  - split; [by apply db_wf_enqueueJob | cbn; lia].
  - split; [by apply db_wf_claimJobs | rewrite claimJobs_unfold; cbn; lia].
  - split; [by apply rows_wf_update | cbn; lia].
  - split; [by apply rows_wf_update | cbn; lia].
  - unfold workOne. destruct (attempt w) as [e|];
      (split; [by apply rows_wf_update | cbn; lia]).
  - split; [by apply db_wf_requeueStaleJobs | cbn; lia].
  - rewrite purgeOldJobs_eq. cbn [snd].
    split; [by apply (rows_wf_delete (purgeable _ _)) | cbn; lia].
  - rewrite nextSerial_eq. cbn [snd]. split; [done | cbn; lia].
Qed.

Lemma same_job_refl (j : job) : same_job j j.
Proof. by repeat split. Qed.

Lemma same_job_trans (a b c : job) : same_job a b → same_job b c → same_job a c.
Proof. unfold same_job. intros H1 H2. intuition congruence. Qed.

Lemma getJob_update (p : job → bool) (f : job → job) (i seq : Z) (m : gmap string Z) (d : db) :
  (∀ x, id (f x) = id x) →
  getJob i (mkDb (sql_update p f (jobs d)) seq m)
  = (λ j, if p j then f j else j) <$> getJob i d.
Proof. intros Hid. unfold getJob. cbn [jobs]. by apply find_sql_update. Qed.

Lemma getJob_claimJobs (cfg : tunables) (now limit i : Z) (d : db) :
  getJob i (snd (claimJobs cfg now limit d))
  = (λ j, let j1 := if is_stale now (STALE_SECS cfg) j then requeue_row now j else j in
          if status_eqb (status j1) queued
             && names_id (claimStmt now limit (recovered cfg now d)) (id j1)
          then processing_row now j1 else j1) <$> getJob i d.
Proof.
  rewrite claimJobs_unfold. cbn [snd]. unfold recovered, requeueStaleStmt. cbn [snd].
  unfold getJob. cbn [jobs]. rewrite !find_sql_update by done.
  by destruct (List.find _ (jobs d)).
Qed.

Lemma exec_step_identity (cfg : tunables) (now : Z) (o : op) (d : db) (i : Z) (j : job) :
  db_wf d → getJob i d = Some j →
  (∀ j', getJob i (exec cfg now o d) = Some j' →
     same_job j j'
     ∧ attempts j <= attempts j' <= attempts j + 1
     ∧ (attempts j' = attempts j + 1 → targets o = Some i))
  ∧ (getJob i (exec cfg now o d) = None →
     ∃ days, o = PurgeOld days ∧ purgeable now (days * 24 * 60 * 60) j = true).
Proof.
  intros [Hnd Hle] Hj. pose proof (getJob_Some i d j Hj) as [Hin Hid].
  destruct o as [fld img txt prio dl|limit|i'|i' a err mx bo|rnd w r|st|days|fld];
    cbn [exec targets].
  - unfold getJob, enqueueJob in *. cbn [jobs]. rewrite find_app_fresh, Hj.
    split; [|done]. intros j' [= <-]. split; [apply same_job_refl|]. lia.
  - rewrite getJob_claimJobs, Hj. cbn [fmap option_fmap option_map]. split; [|done].
    intros j' [= <-]. cbn zeta.
    destruct (is_stale _ _ j); cbn [status requeue_row];
      destruct (status_eqb _ queued && _); (split; [by repeat split|cbn; lia]).
  - unfold completeJob, markDone. cbn [snd]. rewrite getJob_update, Hj by done.
    cbn [fmap option_fmap option_map]. split; [|done]. intros j' [= <-].
    destruct (id j =? i'); (split; [by repeat split|cbn; lia]).
  - unfold failJob, markFail. cbn [snd]. rewrite getJob_update, Hj by done.
    cbn [fmap option_fmap option_map]. split; [|done]. intros j' [= <-].
    destruct (id j =? i') eqn:E; (split; [by repeat split|cbn; split; [lia|]]).
    + intros _. apply Z.eqb_eq in E. congruence.
    + lia.
  - unfold workOne. destruct (attempt w) as [e|].
    + unfold failJob, markFail. cbn [snd]. rewrite getJob_update, Hj by done.
      cbn [fmap option_fmap option_map]. split; [|done]. intros j' [= <-].
      destruct (id j =? Claimed.id r) eqn:E;
        (split; [by repeat split|cbn; split; [lia|]]).
      * intros _. apply Z.eqb_eq in E. congruence.
      * lia.
    + unfold completeJob, markDone. cbn [snd]. rewrite getJob_update, Hj by done.
      cbn [fmap option_fmap option_map]. split; [|done]. intros j' [= <-].
      destruct (id j =? Claimed.id r); (split; [by repeat split|cbn; lia]).
  - unfold requeueStaleJobs, requeueStaleStmt. cbn [snd]. rewrite getJob_update, Hj by done.
    cbn [fmap option_fmap option_map]. split; [|done]. intros j' [= <-].
    destruct (is_stale now st j); (split; [by repeat split|cbn; lia]).
  - rewrite purgeOldJobs_eq. cbn [snd]. unfold getJob in *. cbn [jobs].
    rewrite (find_filter_wf _ i (jobs d) j Hnd Hj).
    destruct (purgeable now (days * 24 * 60 * 60) j) eqn:P; cbn [negb].
    + split; [done|]. intros _. by exists days.
    + split; [|done]. intros j' [= <-]. split; [apply same_job_refl|lia].
  - rewrite nextSerial_eq. cbn [snd]. unfold getJob in *. cbn [jobs]. rewrite Hj.
    split; [|done]. intros j' [= <-]. split; [apply same_job_refl|lia].
Qed.

(** X2. No operation rewrites what identifies a job.  If [getJob] finds job
    [i] before an operation and after it, the two rows have the same id,
    folder, paths, priority and creation time, and the attempts are the same
    or one more (one more only for a failure reported for job [i]).  A job
    stops being found only through the retention sweep, and only when it
    was 'done' or 'failed' and old enough. *)
Theorem exec_keeps_identity (cfg : tunables) (now : Z) (o : op) (d : db) (i : Z) (j : job) :
  db_wf d → getJob i d = Some j →
  (∀ j', getJob i (exec cfg now o d) = Some j' →
     same_job j j'
     ∧ attempts j <= attempts j' <= attempts j + 1
     ∧ (attempts j' = attempts j + 1 → targets o = Some i))
  ∧ (getJob i (exec cfg now o d) = None →
     ∃ days, o = PurgeOld days ∧ purgeable now (days * 24 * 60 * 60) j = true).
Proof. exact (exec_step_identity cfg now o d i j). Qed.

Lemma exec_keeps_identity_witness :
  getJob 1 (exec default_tunables 200 (Fail 1 0 "timeout" 3 7) sample_db)
  = Some (mkJob 1 "X" "x/1.png" "x/1.txt" queued 1 (Some "timeout") 5 207 100 200)
  ∧ same_job (mkJob 1 "X" "x/1.png" "x/1.txt" queued 0 None 5 100 100 100)
             (mkJob 1 "X" "x/1.png" "x/1.txt" queued 1 (Some "timeout") 5 207 100 200).
Proof.
  split; [reflexivity|].
  destruct (exec_keeps_identity default_tunables 200 (Fail 1 0 "timeout" 3 7) sample_db 1
              (mkJob 1 "X" "x/1.png" "x/1.txt" queued 0 None 5 100 100 100)) as [H _].
  - unfold sample_db. do 2 apply db_wf_enqueueJob. apply db_wf_empty.
  - reflexivity.
  - apply H. reflexivity.
Defined.

Lemma getJob_None_exec (cfg : tunables) (now : Z) (o : op) (d : db) (i : Z) (j' : job) :
  getJob i d = None → getJob i (exec cfg now o d) = Some j' → i = jobs_seq d + 1.
Proof.
  intros Hn Hs.
  destruct o as [fld img txt prio dl|limit|i'|i' a err mx bo|rnd w r|st|days|fld];
    cbn [exec] in Hs.
  - unfold getJob, enqueueJob in *. cbn [jobs] in Hs. rewrite find_app_fresh, Hn in Hs.
    cbn [id] in Hs. destruct (jobs_seq d + 1 =? i) eqn:E; [|done]. apply Z.eqb_eq in E. lia.
  - by rewrite getJob_claimJobs, Hn in Hs.
  - unfold completeJob, markDone in Hs. cbn [snd] in Hs.
    by rewrite getJob_update, Hn in Hs.
  - unfold failJob, markFail in Hs. cbn [snd] in Hs.
    by rewrite getJob_update, Hn in Hs.
  - unfold workOne in Hs. destruct (attempt w) as [e|].
    + unfold failJob, markFail in Hs. cbn [snd] in Hs.
      by rewrite getJob_update, Hn in Hs.
    + unfold completeJob, markDone in Hs. cbn [snd] in Hs.
      by rewrite getJob_update, Hn in Hs.
  - unfold requeueStaleJobs, requeueStaleStmt in Hs. cbn [snd] in Hs.
    by rewrite getJob_update, Hn in Hs.
  - rewrite purgeOldJobs_eq in Hs. cbn [snd] in Hs.
    apply getJob_Some in Hs as [Hin Hid]. cbn [jobs] in Hin.
    apply filter_In in Hin as [Hin _]. rewrite getJob_None in Hn. by destruct (Hn j' Hin).
  - rewrite nextSerial_eq in Hs. cbn [snd] in Hs. unfold getJob in *. cbn [jobs] in Hs.
    congruence.
Qed.

(** X3. Job ids are never reused.  Along every history of operations the
    ids stay unique and below the high-water mark, which never goes down;
    and whenever [getJob] finds an id that was in use at the start, it is
    the same job (same folder, paths, priority, creation time), with at
    least the attempts it had, even if rows were purged and new jobs
    enqueued in between. *)
Theorem replay_keeps_identity (cfg : tunables) (h : list (Z * op)) (d : db) (i : Z) (j : job) :
  db_wf d → getJob i d = Some j →
  db_wf (replay cfg h d)
  ∧ jobs_seq d <= jobs_seq (replay cfg h d)
  ∧ (∀ j', getJob i (replay cfg h d) = Some j' →
       same_job j j' ∧ attempts j <= attempts j').
Proof.
  intros Hwf Hj.
  assert (Hi : i <= jobs_seq d).
  { apply getJob_Some in Hj as [Hin <-]. by apply Hwf. }
  assert (Hgen : ∀ d', db_wf d' → jobs_seq d <= jobs_seq d' →
            (∀ j', getJob i d' = Some j' → same_job j j' ∧ attempts j <= attempts j') →
            db_wf (replay cfg h d')
            ∧ jobs_seq d <= jobs_seq (replay cfg h d')
            ∧ (∀ j', getJob i (replay cfg h d') = Some j' →
                 same_job j j' ∧ attempts j <= attempts j')).
  { induction h as [|[now o] h IH]; intros d' Hwf' Hseq Hsame; [done|].
    cbn [replay fold_left fst snd]. fold (replay cfg h (exec cfg now o d')).
    destruct (exec_db_wf cfg now o d' Hwf') as [Hwf'' Hseq'].
    apply IH; [done | lia |].
    intros j'' Hj''. destruct (getJob i d') as [j'|] eqn:E.
    - destruct (Hsame j' eq_refl) as [Hs Ha].
      destruct (exec_step_identity cfg now o d' i j' Hwf' E) as [Hstep _].
      destruct (Hstep j'' Hj'') as (Hs' & Ha' & _).
      split; [by eapply same_job_trans | lia].
    - apply (getJob_None_exec cfg now o d' i j'' E) in Hj''. lia. }
  apply Hgen; [done | lia |].
  intros j' Hj'. rewrite Hj in Hj'. injection Hj' as <-.
  split; [apply same_job_refl | lia].
Qed.

Lemma replay_keeps_identity_witness :
  getJob 1 (replay default_tunables
              [(100, Claim 1); (110, Complete 1); (120, PurgeOld 0);
               (130, Enqueue "Y" "y/1.png" "y/1.txt" 0 0)] sample_db) = None
  ∧ db_wf (replay default_tunables
             [(100, Claim 1); (110, Complete 1); (120, PurgeOld 0);
              (130, Enqueue "Y" "y/1.png" "y/1.txt" 0 0)] sample_db).
Proof.
  split; [reflexivity|].
  apply (replay_keeps_identity default_tunables _ sample_db 1
           (mkJob 1 "X" "x/1.png" "x/1.txt" queued 0 None 5 100 100 100)).
  - unfold sample_db. do 2 apply db_wf_enqueueJob. apply db_wf_empty.
  - reflexivity.
Defined.

(** ** Serial counters along histories *)

Lemma exec_folders (cfg : tunables) (now : Z) (o : op) (d : db) (f : string) :
  last_serial (exec cfg now o d) f
  = last_serial d f
    + match o with
      | NextSerial g => if bool_decide (g = f) then 1 else 0
      | _ => 0
      end.
Proof.
  destruct o as [fld img txt prio dl|limit|i|i a err mx bo|rnd w r|st|days|fld];
    cbn [exec].
  - unfold last_serial. cbn. lia.
  - rewrite claimJobs_unfold. unfold last_serial. cbn. lia.
  - unfold last_serial. cbn. lia.
  - unfold last_serial. cbn. lia.
  - unfold workOne, last_serial. destruct (attempt w); cbn; lia.
  - unfold last_serial. cbn. lia.
  - rewrite purgeOldJobs_eq. unfold last_serial. cbn. lia.
  - rewrite nextSerial_eq. cbn [snd]. unfold last_serial at 1. cbn [folders].
    case_bool_decide as E.
    + subst. by rewrite lookup_insert_eq.
    + rewrite lookup_insert_ne by done. unfold last_serial. lia.
Qed.

(** X4. A folder's serial counter counts the [nextSerial] calls made for
    it: after any history of operations it is the counter at the start plus
    the number of those calls.  No job operation and no [nextSerial] for
    another folder changes it, so it never goes down and never repeats. *)
Theorem replay_counts_serials (cfg : tunables) (h : list (Z * op)) (d : db) (f : string) :
  last_serial (replay cfg h d) f = last_serial d f + Z.of_nat (serial_calls f h)
  ∧ (∀ now o, match o with NextSerial g => g ≠ f | _ => True end →
       last_serial (exec cfg now o d) f = last_serial d f)
  ∧ fst (nextSerial f (replay cfg h d))
    = Some (last_serial d f + Z.of_nat (serial_calls f h) + 1).
Proof.
  assert (H : ∀ d', last_serial (replay cfg h d') f
                    = last_serial d' f + Z.of_nat (serial_calls f h)).
  { induction h as [|[now o] h IH]; intros d'; [cbn; lia|].
    cbn [replay fold_left fst snd]. fold (replay cfg h (exec cfg now o d')).
    rewrite IH, exec_folders. unfold serial_calls. cbn [List.filter snd].
    destruct o; cbn [length]; try lia. case_bool_decide; cbn [length]; lia. }
  split; [apply H|]. split.
  - intros now o Ho. rewrite exec_folders.
    destruct o; try lia. case_bool_decide; [done | lia].
  - rewrite nextSerial_eq. cbn [fst]. by rewrite H.
Qed.

Lemma replay_counts_serials_witness :
  last_serial (replay default_tunables
                 [(1, NextSerial "X"); (2, Enqueue "X" "x/1.png" "x/1.txt" 0 0);
                  (3, NextSerial "Y"); (4, NextSerial "X")] empty_db) "X"
  = last_serial empty_db "X"
    + Z.of_nat (serial_calls "X"
                  [(1, NextSerial "X"); (2, Enqueue "X" "x/1.png" "x/1.txt" 0 0);
                   (3, NextSerial "Y"); (4, NextSerial "X")]).
Proof. apply (replay_counts_serials default_tunables). Defined.

(** ** Counts by status *)

Lemma count_status_total (fld : string) (t : list job) :
  (count_status fld done t + count_status fld failed t
   + count_status fld processing t + count_status fld queued t)%nat
  = length (List.filter (λ j, bool_decide (folder j = fld)) t).
Proof.
  unfold count_status. induction t as [|a t IH]; [done|]. cbn [List.filter].
  case_bool_decide; cbn [andb]; [|exact IH].
  destruct (status a); cbn [status_eqb length]; lia.
Qed.

(** X5. [jobCounts(folder)] has one group per status that occurs in the
    folder and none for the others: a pair [(s, n)] is in the result exactly
    when [n] is the number of the folder's jobs in status [s] and is not
    zero; no status appears twice; the counts add up to the number of jobs
    of the folder; a folder without jobs gives the empty list. *)
Theorem jobCounts_groups (fld : string) (d : db) :
  (∀ s n, In (s, n) (jobCounts fld d)
          ↔ n = length (List.filter
                          (λ j, bool_decide (folder j = fld) && status_eqb (status j) s)
                          (jobs d))
            ∧ (0 < n)%nat)
  ∧ NoDup (map fst (jobCounts fld d))
  ∧ list_sum (map snd (jobCounts fld d))
    = length (List.filter (λ j, bool_decide (folder j = fld)) (jobs d))
  ∧ ((∀ j, In j (jobs d) → folder j ≠ fld) → jobCounts fld d = []).
Proof.
  assert (Hsum : list_sum (map snd (jobCounts fld d))
                 = length (List.filter (λ j, bool_decide (folder j = fld)) (jobs d))).
  { rewrite <- count_status_total. unfold jobCounts, statuses_by_text.
    cbn [map List.filter snd].
    destruct (count_status fld done (jobs d)) as [|a],
             (count_status fld failed (jobs d)) as [|b],
             (count_status fld processing (jobs d)) as [|c],
             (count_status fld queued (jobs d)) as [|e]; cbn; lia. }
  split; [|split; [|split; [exact Hsum|]]].
  - intros s n. unfold jobCounts. rewrite filter_In, in_map_iff. cbn [snd].
    fold (count_status fld s (jobs d)). split.
    + intros [(s' & [= <- <-] & _) Hn]. split; [done|].
      apply negb_true_iff, Nat.eqb_neq in Hn. lia.
    + intros [-> Hn]. split.
      * exists s. split; [done|]. unfold statuses_by_text. destruct s; cbn; tauto.
      * apply negb_true_iff, Nat.eqb_neq. lia.
  - unfold jobCounts, statuses_by_text. cbn [map List.filter snd].
    destruct (count_status fld done (jobs d)) as [|a],
             (count_status fld failed (jobs d)) as [|b],
             (count_status fld processing (jobs d)) as [|c],
             (count_status fld queued (jobs d)) as [|e]; cbn;
      apply NoDup_ListNoDup; repeat constructor; cbn; intuition discriminate.
  - intros Hnone.
    assert (H0 : length (List.filter (λ j, bool_decide (folder j = fld)) (jobs d)) = 0%nat).
    { rewrite (filter_ext_in _ (λ _, false)); [by rewrite filter_none|].
      intros j Hj. case_bool_decide; [|done]. by destruct (Hnone j Hj). }
    rewrite H0 in Hsum. destruct (jobCounts fld d) as [|[s n] l] eqn:E; [done|].
    assert (Hin : In (s, n) (jobCounts fld d)) by (rewrite E; by left).
    unfold jobCounts in Hin. apply filter_In in Hin as [_ Hn]. cbn in Hn, Hsum.
    apply negb_true_iff, Nat.eqb_neq in Hn. lia.
Qed.

Lemma jobCounts_groups_witness :
  jobCounts "X" (snd (claimJobs default_tunables 100 1 sample_db))
  = [(processing, 1%nat); (queued, 1%nat)]
  ∧ jobCounts "Y" sample_db = [].
Proof.
  split; [reflexivity|].
  apply (jobCounts_groups "Y" sample_db).
  intros j Hj. vm_compute in Hj. destruct Hj as [<-|[<-|[]]]; discriminate.
Defined.

(** ** Recovery and claiming, once more *)

(** X6. Stale recovery is idempotent: run again at the same instant with the
    same threshold it changes no row and leaves the store as the first run
    left it, and after a run no row is stale any more. *)
Theorem requeueStaleJobs_idempotent (now stale : Z) (d : db) :
  requeueStaleJobs now stale (snd (requeueStaleJobs now stale d))
  = (0%nat, snd (requeueStaleJobs now stale d))
  ∧ (∀ j, In j (jobs (snd (requeueStaleJobs now stale d))) → is_stale now stale j = false)
  ∧ length (jobs (snd (requeueStaleJobs now stale d))) = length (jobs d).
Proof.
  assert (Hno : ∀ j, In j (jobs (snd (requeueStaleJobs now stale d))) →
                     is_stale now stale j = false).
  { intros j Hj. unfold requeueStaleJobs, requeueStaleStmt in Hj. cbn [snd jobs] in Hj.
    apply in_sql_update in Hj as (j0 & _ & ->).
    by destruct (is_stale now stale j0) eqn:E. }
  split; [|split; [exact Hno|]].
  - unfold requeueStaleJobs at 1. unfold requeueStaleStmt at 1.
    set (d1 := snd (requeueStaleJobs now stale d)) in *.
    rewrite (sql_update_id_on _ _ (jobs d1) Hno). unfold sql_changes.
    rewrite (filter_ext_in _ (λ _, false) (jobs d1) Hno), filter_none.
    by destruct d1.
  - unfold requeueStaleJobs, requeueStaleStmt. cbn [snd jobs]. apply length_sql_update.
Qed.

Lemma eligible_spec (now : Z) (j : job) :
  eligible now j = true ↔ status j = queued ∧ available_at j <= now.
Proof.
  unfold eligible. rewrite andb_true_iff, Z.leb_le.
  destruct (status j); cbn; intuition congruence.
Qed.

Lemma names_id_spec (rows : list Claimed.row) (i : Z) :
  names_id rows i = true ↔ ∃ r, In r rows ∧ Claimed.id r = i.
Proof.
  unfold names_id. rewrite existsb_exists.
  split; intros (r & Hr & E); exists r; (split; [done|]); by apply Z.eqb_eq.
Qed.

Lemma NoDup_of_ids (t : list job) : NoDup (map id t) → NoDup t.
Proof. apply (NoDup_fmap_1 id). Qed.

Lemma claimJobs_length (cfg : tunables) (now limit : Z) (d : db) :
  db_wf d →
  let n := length (List.filter (eligible now) (recovered cfg now d)) in
  let claimed := fst (claimJobs cfg now limit d) in
  length claimed = (if limit <? 0 then n else Nat.min (Z.to_nat limit) n)
  ∧ (length (List.filter (eligible now) (jobs (snd (claimJobs cfg now limit d))))
     = n - length claimed)%nat
  ∧ (0 <= limit → Z.of_nat (length claimed) < limit →
     ∀ j, In j (jobs (snd (claimJobs cfg now limit d))) → eligible now j = false).
Proof.
  intros [Hnd _] n claimed.
  set (t1 := recovered cfg now d).
  assert (Hnd1 : NoDup (map id t1)) by (unfold t1; by rewrite recovered_ids).
  set (cands := claim_candidates now limit t1).
  assert (Hclaimed : claimed = map claimed_of cands)
    by (by apply claimJobs_claims_selection).
  assert (Hlen : length claimed = (if limit <? 0 then n else Nat.min (Z.to_nat limit) n)).
  { rewrite Hclaimed, length_map. unfold cands, claim_candidates, sql_limit.
    assert (Hp : length (merge_sort claim_le (List.filter (eligible now) t1)) = n)
      by (apply Permutation_length, merge_sort_Permutation).
    destruct (limit <? 0); [done|]. by rewrite length_take, Hp. }
  assert (Hrest : (length (List.filter (eligible now)
                             (jobs (snd (claimJobs cfg now limit d))))
                   = n - length claimed)%nat).
  { rewrite claimJobs_unfold. cbn [snd jobs]. fold t1.
    unfold sql_update. rewrite filter_map_swap, length_map.
    set (named := λ j, names_id (claimStmt now limit t1) (id j)).
    rewrite (filter_ext _ (λ j, eligible now j && negb (named j))).
    2:{ intros j. unfold named, eligible.
        destruct (status_eqb (status j) queued) eqn:Q, (names_id _ _);
          cbn; rewrite ?Q, ?andb_false_r, ?andb_true_r; done. }
    assert (Hsplit : (length (List.filter (λ j, eligible now j && named j) t1)
                      + length (List.filter (λ j, eligible now j && negb (named j)) t1))%nat
                     = n).
    { unfold n. fold t1. apply filter_length_disjoint; intros j;
        destruct (eligible now j), (named j); done. }
    assert (Hnamed : length (List.filter (λ j, eligible now j && named j) t1)
                     = length claimed).
    { rewrite Hclaimed, length_map. apply Permutation_length, NoDup_Permutation.
      - apply NoDup_ListNoDup, List.NoDup_filter, NoDup_ListNoDup, NoDup_of_ids, Hnd1.
      - apply NoDup_of_ids. eapply submseteq_NoDup_ids; [|exact Hnd1].
        etrans; [apply claim_candidates_submseteq | apply filter_submseteq].
      - intros j. rewrite !list_elem_of_In, filter_In, andb_true_iff. split.
        + intros (Hj & He & Hn). unfold named in Hn.
          apply names_id_spec in Hn as (r & Hr & Hid).
          unfold claimStmt in Hr. apply in_map_iff in Hr as (c & <- & Hc).
          pose proof (claim_candidates_in now limit t1 c Hc) as (Hct & _).
          cbn in Hid. by rewrite <- (NoDup_ids_inj t1 c j Hnd1 Hct Hj Hid).
        + intros Hc. pose proof (claim_candidates_in now limit t1 j Hc) as (Hjt & Hq & Ha).
          split; [done|]. split; [by apply eligible_spec|].
          unfold named. apply names_id_spec. exists (claimed_of j).
          split; [by apply in_map | done]. }
    lia. }
  split; [exact Hlen|]. split; [exact Hrest|].
  intros H0 Hlt j Hj.
  assert (Hz : length (List.filter (eligible now)
                         (jobs (snd (claimJobs cfg now limit d)))) = 0%nat).
  { rewrite Hrest. assert (E : (limit <? 0) = false) by (apply Z.ltb_ge; lia).
    rewrite E in Hlen. lia. }
  destruct (eligible now j) eqn:E; [|done].
  assert (Hin : In j (List.filter (eligible now) (jobs (snd (claimJobs cfg now limit d)))))
    by by apply filter_In.
  apply nil_length_inv in Hz. rewrite Hz in Hin. done.
Qed.

(** X7. A claim call claims as much as its limit allows: the number of jobs
    it returns is the number of eligible jobs after recovery, capped by the
    limit (not capped when the limit is negative), and the eligible jobs it
    leaves in the store are exactly the remainder, so when it returns fewer
    than [limit] jobs none is left eligible. *)
Theorem claimJobs_count (cfg : tunables) (now limit : Z) (d : db) :
  db_wf d →
  let n := length (List.filter (eligible now) (recovered cfg now d)) in
  let claimed := fst (claimJobs cfg now limit d) in
  length claimed = (if limit <? 0 then n else Nat.min (Z.to_nat limit) n)
  ∧ (length (List.filter (eligible now) (jobs (snd (claimJobs cfg now limit d))))
     = n - length claimed)%nat
  ∧ (0 <= limit → Z.of_nat (length claimed) < limit →
     ∀ j, In j (jobs (snd (claimJobs cfg now limit d))) → eligible now j = false).
Proof. exact (claimJobs_length cfg now limit d). Qed.

Lemma claimJobs_count_witness :
  length (fst (claimJobs default_tunables 100 4 sample_db)) = 2%nat
  ∧ ∀ j, In j (jobs (snd (claimJobs default_tunables 100 4 sample_db))) →
         eligible 100 j = false.
Proof.
  split; [reflexivity|].
  apply (claimJobs_count default_tunables 100 4 sample_db).
  - unfold sample_db. do 2 apply db_wf_enqueueJob. apply db_wf_empty.
  - lia.
  - vm_compute. reflexivity.
Defined.

Lemma claimJobs_row_origin (cfg : tunables) (now limit : Z) (d : db) (r : Claimed.row) :
  db_wf d → In r (fst (claimJobs cfg now limit d)) →
  ∃ j j',
    getJob (Claimed.id r) d = Some j
    ∧ r = claimed_of j
    ∧ ((status j = queued ∧ available_at j <= now)
       ∨ (status j = processing ∧ updated_at j <= now - STALE_SECS cfg))
    ∧ getJob (Claimed.id r) (snd (claimJobs cfg now limit d)) = Some j'
    ∧ status j' = processing ∧ updated_at j' = now ∧ claimed_of j' = r.
Proof.
  intros Hwf Hr. pose proof Hwf as [Hnd _].
  pose proof Hr as Hr'. rewrite claimJobs_claims_selection in Hr' by done.
  unfold claimStmt in Hr'. apply in_map_iff in Hr' as (c & <- & Hc).
  apply claim_candidates_in in Hc as (Hct & Hq & Ha).
  unfold recovered, requeueStaleStmt in Hct. cbn [snd] in Hct.
  apply in_sql_update in Hct as (j & Hj & Hcj).
  assert (Hid : id c = id j) by (subst c; by destruct (is_stale _ _ _)).
  assert (Hget : getJob (id c) d = Some j) by (rewrite Hid; by apply getJob_in).
  change (Claimed.id (claimed_of c)) with (id c).
  exists j, (processing_row now c). split; [done|]. split.
  { subst c. by destruct (is_stale _ _ _). }
  split.
  { destruct (is_stale now (STALE_SECS cfg) j) eqn:S.
    - right. by apply is_stale_spec.
    - left. subst c. done. }
  split; [|done].
  rewrite getJob_claimJobs, Hget. cbn [fmap option_fmap option_map]. cbn zeta.
  rewrite <- Hcj. rewrite Hq. cbn [status_eqb andb].
  replace (names_id _ (id c)) with true; [done|]. symmetry.
  apply names_id_spec. exists (claimed_of c). split; [|done].
  rewrite <- claimJobs_claims_selection by done. exact Hr.
Qed.

(** X8. What a claim call hands out.  Every returned row is the projection
    of a job that, before the call, was either 'queued' with
    [available_at <= now] or 'processing' and stale; it is never a job that
    is 'done' or 'failed', 'queued' for later, or 'processing' and fresh.
    After the call [getJob] shows that job as 'processing', updated at
    [now], with the attempts, folder and paths of the returned row. *)
Theorem claimJobs_returns_only (cfg : tunables) (now limit : Z) (d : db) (r : Claimed.row) :
  db_wf d → In r (fst (claimJobs cfg now limit d)) →
  ∃ j j',
    getJob (Claimed.id r) d = Some j
    ∧ r = claimed_of j
    ∧ ((status j = queued ∧ available_at j <= now)
       ∨ (status j = processing ∧ updated_at j <= now - STALE_SECS cfg))
    ∧ getJob (Claimed.id r) (snd (claimJobs cfg now limit d)) = Some j'
    ∧ status j' = processing ∧ updated_at j' = now ∧ claimed_of j' = r.
Proof. exact (claimJobs_row_origin cfg now limit d r). Qed.

Lemma claimJobs_returns_only_witness :
  ∃ j', getJob 1 (snd (claimJobs default_tunables 100 1 sample_db)) = Some j'
        ∧ status j' = processing ∧ updated_at j' = 100.
Proof.
  destruct (claimJobs_returns_only default_tunables 100 1 sample_db
              (Claimed.mk 1 "X" "x/1.png" "x/1.txt" 0))
    as (j & j' & _ & _ & _ & Hg & Hs & Hu & _).
  - unfold sample_db. do 2 apply db_wf_enqueueJob. apply db_wf_empty.
  - vm_compute. by left.
  - exists j'. by repeat split.
Defined.

(** X9. Delays are honoured.  A job that is 'queued' with [available_at]
    still ahead is not handed out; so a job enqueued with a delay is not
    claimed before [now + delaySeconds], a job sent back by [failJob] is not
    claimed before [now + backoff], and a job that [failJob] made 'failed'
    or [completeJob] made 'done' is not claimed at any time. *)
Theorem claimJobs_not_before_due (cfg : tunables) (now limit : Z) (d : db) :
  db_wf d →
  (∀ j r, In j (jobs d) → status j = queued → now < available_at j →
          In r (fst (claimJobs cfg now limit d)) → Claimed.id r ≠ id j)
  ∧ (∀ t fld img txt prio delaySeconds r,
       now < t + delaySeconds →
       In r (fst (claimJobs cfg now limit (enqueueJob t fld img txt prio delaySeconds d))) →
       Claimed.id r ≠ jobs_seq d + 1)
  ∧ (∀ t i a err maxAttempts backoff r,
       a + 1 < maxAttempts → now < t + backoff →
       In r (fst (claimJobs cfg now limit (failJob t i a err maxAttempts backoff d))) →
       Claimed.id r ≠ i)
  ∧ (∀ t i a err maxAttempts backoff r,
       a + 1 >= maxAttempts →
       In r (fst (claimJobs cfg now limit (failJob t i a err maxAttempts backoff d))) →
       Claimed.id r ≠ i)
  ∧ (∀ t i r,
       In r (fst (claimJobs cfg now limit (completeJob t i d))) → Claimed.id r ≠ i).
Proof.
  intros Hwf.
  assert (Hgen : ∀ d0 j r, db_wf d0 → getJob (id j) d0 = Some j →
            In r (fst (claimJobs cfg now limit d0)) → Claimed.id r = id j →
            (status j = queued ∧ available_at j <= now)
            ∨ (status j = processing ∧ updated_at j <= now - STALE_SECS cfg)).
  { intros d0 j r Hwf0 Hj Hr E.
    destruct (claimJobs_row_origin cfg now limit d0 r Hwf0 Hr)
      as (j0 & _ & Hg & _ & Hcase & _).
    rewrite E, Hj in Hg. by injection Hg as <-. }
  split; [|split; [|split; [|split]]].
  - intros j r Hj Hq Hlate Hr E.
    destruct (Hgen d j r Hwf (getJob_in d j Hwf Hj) Hr E) as [[_ H]|[H _]];
      [lia | congruence].
  - intros t fld img txt prio dl r Hlate Hr E.
    destruct (getJob_after_enqueueJob t fld img txt prio dl d Hwf) as (_ & Hnew & _).
    pose proof (db_wf_enqueueJob t fld img txt prio dl d Hwf) as Hwf'.
    destruct (Hgen _ (mkJob (jobs_seq d + 1) fld img txt queued 0 None prio (t + dl) t t)
                r Hwf' Hnew Hr E) as [[_ H]|[H _]]; [cbn in H; lia | done].
  - intros t i a err mx bo r Hlt Hlate Hr E.
    assert (Hwf' : db_wf (failJob t i a err mx bo d)) by by apply rows_wf_update.
    destruct (claimJobs_row_origin cfg now limit _ r Hwf' Hr)
      as (j & _ & Hg & _ & Hcase & _).
    unfold failJob, markFail in Hg. cbn [snd] in Hg. rewrite getJob_update in Hg by done.
    destruct (getJob (Claimed.id r) d) as [j0|] eqn:G; [|done].
    apply getJob_Some in G as [_ G]. cbn in Hg. rewrite G, E, Z.eqb_refl in Hg.
    injection Hg as <-. cbn in Hcase.
    destruct (a + 1 >=? mx) eqn:F; [lia|]. cbn in Hcase.
    destruct Hcase as [[_ H]|[H _]]; [lia | done].
  - intros t i a err mx bo r Hge Hr E.
    assert (Hwf' : db_wf (failJob t i a err mx bo d)) by by apply rows_wf_update.
    destruct (claimJobs_row_origin cfg now limit _ r Hwf' Hr)
      as (j & _ & Hg & _ & Hcase & _).
    unfold failJob, markFail in Hg. cbn [snd] in Hg. rewrite getJob_update in Hg by done.
    destruct (getJob (Claimed.id r) d) as [j0|] eqn:G; [|done].
    apply getJob_Some in G as [_ G]. cbn in Hg. rewrite G, E, Z.eqb_refl in Hg.
    injection Hg as <-. cbn in Hcase.
    destruct (a + 1 >=? mx) eqn:F; [|lia]. cbn in Hcase.
    destruct Hcase as [[H _]|[H _]]; done.
  - intros t i r Hr E.
    assert (Hwf' : db_wf (completeJob t i d)) by by apply rows_wf_update.
    destruct (claimJobs_row_origin cfg now limit _ r Hwf' Hr)
      as (j & _ & Hg & _ & Hcase & _).
    unfold completeJob, markDone in Hg. cbn [snd] in Hg.
    rewrite getJob_update in Hg by done.
    destruct (getJob (Claimed.id r) d) as [j0|] eqn:G; [|done].
    apply getJob_Some in G as [_ G]. cbn in Hg. rewrite G, E, Z.eqb_refl in Hg.
    injection Hg as <-. cbn in Hcase.
    destruct Hcase as [[H _]|[H _]]; done.
Qed.

Lemma claimJobs_not_before_due_witness :
  fst (claimJobs default_tunables 206 4
         (failJob 200 1 0 "timeout" 3 7 (snd (claimJobs default_tunables 100 1 sample_db))))
  = [Claimed.mk 2 "X" "x/2.png" "x/2.txt" 0]
  ∧ Claimed.id (Claimed.mk 2 "X" "x/2.png" "x/2.txt" 0) ≠ 1.
Proof.
  split; [reflexivity|].
  destruct (claimJobs_not_before_due default_tunables 206 4
              (snd (claimJobs default_tunables 100 1 sample_db)))
    as (_ & _ & H & _).
  - apply db_wf_claimJobs. unfold sample_db. do 2 apply db_wf_enqueueJob. apply db_wf_empty.
  - apply (H 200 1 0 "timeout" 3 7); [lia | lia |]. vm_compute. by left.
Defined.

(** ** The worker's calls on the store *)

Lemma workOne_update (cfg : tunables) (now : Z) (rnd : Q) (w : world) (r : Claimed.row) :
  ∃ f, (∀ x, id (f x) = id x)
       ∧ ∀ d, workOne cfg now rnd w r d
              = mkDb (sql_update (λ j, id j =? Claimed.id r) f (jobs d))
                     (jobs_seq d) (folders d).
Proof.
  unfold workOne. destruct (attempt w) as [e|].
  - eexists. split; [|intros d; unfold failJob, markFail; cbn [snd]; reflexivity]. done.
  - eexists. split; [|intros d; unfold completeJob, markDone; cbn [snd]; reflexivity]. done.
Qed.

Lemma sql_update_comm (i1 i2 : Z) (f1 f2 : job → job) (t : list job) :
  i1 ≠ i2 → (∀ x, id (f1 x) = id x) → (∀ x, id (f2 x) = id x) →
  sql_update (λ j, id j =? i1) f1 (sql_update (λ j, id j =? i2) f2 t)
  = sql_update (λ j, id j =? i2) f2 (sql_update (λ j, id j =? i1) f1 t).
Proof.
  intros Hne H1 H2. unfold sql_update. rewrite !map_map. apply map_ext. intros j.
  destruct (id j =? i1) eqn:E1, (id j =? i2) eqn:E2;
    rewrite ?H1, ?H2, ?E1, ?E2; try done.
  apply Z.eqb_eq in E1, E2. congruence.
Qed.

Lemma workOne_comm (cfg : tunables) (r1 r2 : Claimed.row) (o1 o2 : outcome) (d : db) :
  Claimed.id r1 ≠ Claimed.id r2 →
  workOne cfg (settled_at o1) (random_draw o1) (collaborators o1) r1
    (workOne cfg (settled_at o2) (random_draw o2) (collaborators o2) r2 d)
  = workOne cfg (settled_at o2) (random_draw o2) (collaborators o2) r2
      (workOne cfg (settled_at o1) (random_draw o1) (collaborators o1) r1 d).
Proof.
  intros Hne.
  destruct (workOne_update cfg (settled_at o1) (random_draw o1) (collaborators o1) r1)
    as (f1 & Hf1 & E1).
  destruct (workOne_update cfg (settled_at o2) (random_draw o2) (collaborators o2) r2)
    as (f2 & Hf2 & E2).
  rewrite !E1, !E2. cbn [jobs jobs_seq folders]. f_equal. by apply sql_update_comm.
Qed.

Lemma settle_cons (cfg : tunables) (e : Claimed.row * outcome)
    (sched : list (Claimed.row * outcome)) (d : db) :
  settle cfg (e :: sched) d
  = settle cfg sched
      (workOne cfg (settled_at (snd e)) (random_draw (snd e)) (collaborators (snd e))
         (fst e) d).
Proof. done. Qed.

Lemma settle_Permutation (cfg : tunables) (s1 s2 : list (Claimed.row * outcome)) :
  s1 ≡ₚ s2 → NoDup (map (λ e, Claimed.id (fst e)) s1) →
  ∀ d, settle cfg s1 d = settle cfg s2 d.
Proof.
  induction 1 as [|x s1 s2 Hp IH|x y s|s1 s2 s3 Hp1 IH1 Hp2 IH2]; intros Hnd d.
  - done.
  - cbn [map] in Hnd. apply NoDup_cons in Hnd as [_ Hnd].
    rewrite !settle_cons. by apply IH.
  - cbn [map] in Hnd. apply NoDup_cons in Hnd as [Hx _].
    rewrite !settle_cons. f_equal. apply workOne_comm.
    intros E. apply Hx. rewrite E. by left.
  - rewrite IH1 by done. apply IH2.
    change (NoDup ((λ e, Claimed.id (fst e)) <$> s2)).
    rewrite <- Hp1. exact Hnd.
Qed.

Lemma getJob_workOne_other (cfg : tunables) (now : Z) (rnd : Q) (w : world)
    (r : Claimed.row) (d : db) (i : Z) :
  i ≠ Claimed.id r → getJob i (workOne cfg now rnd w r d) = getJob i d.
Proof.
  intros Hne. destruct (workOne_update cfg now rnd w r) as (f & Hf & E).
  rewrite E, getJob_update by done. destruct (getJob i d) as [j|] eqn:G; [|done].
  apply getJob_Some in G as [_ G]. cbn.
  destruct (id j =? Claimed.id r) eqn:E'; [|done]. apply Z.eqb_eq in E'. congruence.
Qed.

Lemma getJob_settle_other (cfg : tunables) (sched : list (Claimed.row * outcome)) (i : Z) :
  (∀ e, In e sched → Claimed.id (fst e) ≠ i) →
  ∀ d, getJob i (settle cfg sched d) = getJob i d.
Proof.
  induction sched as [|e sched IH]; intros Hno d; [done|].
  rewrite settle_cons, IH by (intros; apply Hno; by right).
  apply getJob_workOne_other. intros E. by apply (Hno e (or_introl eq_refl)).
Qed.

(** X10. One [workOne] call writes one job.  It leaves every row of another
    job, the id counter and the serial counters as they are, and the row of
    its own job ends 'done' with the error cleared, or with one more attempt
    and the failure recorded; two calls for different jobs give the same
    store in either order, and so does any order of the calls of a tick. *)
Theorem workOne_isolated (cfg : tunables) (now : Z) (rnd : Q) (w : world)
    (r : Claimed.row) (d : db) :
  (∀ k j, jobs d !! k = Some j → id j ≠ Claimed.id r →
          jobs (workOne cfg now rnd w r d) !! k = Some j)
  ∧ jobs_seq (workOne cfg now rnd w r d) = jobs_seq d
  ∧ folders (workOne cfg now rnd w r d) = folders d
  ∧ (∀ k j, jobs d !! k = Some j → id j = Claimed.id r →
       ∃ j', jobs (workOne cfg now rnd w r d) !! k = Some j'
             ∧ match attempt w with
               | None => status j' = done ∧ last_error j' = None
                         ∧ attempts j' = attempts j
               | Some e => attempts j' = attempts j + 1
                           ∧ last_error j' = Some (slice_2000 (error_text e))
                           ∧ (status j' = queued ∨ status j' = failed)
               end)
  ∧ (∀ r2 o1 o2, Claimed.id r ≠ Claimed.id r2 →
       workOne cfg (settled_at o1) (random_draw o1) (collaborators o1) r
         (workOne cfg (settled_at o2) (random_draw o2) (collaborators o2) r2 d)
       = workOne cfg (settled_at o2) (random_draw o2) (collaborators o2) r2
           (workOne cfg (settled_at o1) (random_draw o1) (collaborators o1) r d))
  ∧ (∀ s1 s2, s1 ≡ₚ s2 → NoDup (map (λ e, Claimed.id (fst e)) s1) →
       settle cfg s1 d = settle cfg s2 d).
Proof.
  split; [|split; [|split; [|split; [|split]]]].
  - intros k j Hk Hne. destruct (workOne_update cfg now rnd w r) as (f & Hf & E).
    rewrite E. cbn [jobs]. rewrite lookup_sql_update, Hk. cbn.
    destruct (id j =? Claimed.id r) eqn:E'; [|done]. apply Z.eqb_eq in E'. done.
  - destruct (workOne_update cfg now rnd w r) as (f & Hf & E). by rewrite E.
  - destruct (workOne_update cfg now rnd w r) as (f & Hf & E). by rewrite E.
  - intros k j Hk Hid. unfold workOne. destruct (attempt w) as [e|].
    + unfold failJob, markFail. cbn [snd jobs]. rewrite lookup_sql_update, Hk. cbn.
      rewrite Hid, Z.eqb_refl. eexists. split; [done|]. cbn.
      split; [done|]. split; [done|].
      destruct (Claimed.attempts r + 1 >=? MAX_ATTEMPTS cfg); cbn; auto.
    + unfold completeJob, markDone. cbn [snd jobs]. rewrite lookup_sql_update, Hk. cbn.
      rewrite Hid, Z.eqb_refl. eexists. split; [done|]. by cbn.
  - intros r2 o1 o2 Hne. by apply workOne_comm.
  - intros s1 s2 Hp Hnd. by apply settle_Permutation.
Qed.

Lemma workOne_isolated_witness :
  let d := snd (claimJobs default_tunables 100 4 sample_db) in
  let ok := mkOutcome 110 (1 # 2) world_ok in
  let ko := mkOutcome 105 (1 # 2) world_timeout in
  let r1 := Claimed.mk 1 "X" "x/1.png" "x/1.txt" 0 in
  let r2 := Claimed.mk 2 "X" "x/2.png" "x/2.txt" 0 in
  settle default_tunables [(r1, ok); (r2, ko)] d
  = settle default_tunables [(r2, ko); (r1, ok)] d.
Proof.
  cbv zeta.
  apply (workOne_isolated default_tunables 0 0 world_ok
           (Claimed.mk 1 "X" "x/1.png" "x/1.txt" 0)).
  - apply perm_swap.
  - cbn. apply NoDup_ListNoDup. repeat constructor; cbn; intuition lia.
Defined.

(** ** One tick of the worker *)

Lemma settle_db_wf (cfg : tunables) (sched : list (Claimed.row * outcome)) :
  ∀ d, db_wf d → db_wf (settle cfg sched d).
Proof.
  induction sched as [|e sched IH]; intros d Hwf; [done|].
  rewrite settle_cons. apply IH.
  apply (exec_db_wf cfg (settled_at (snd e))
           (Work (random_draw (snd e)) (collaborators (snd e)) (fst e)) d Hwf).
Qed.

Lemma loop_idle_eq (cfg : tunables) (now : Z) (fate : Claimed.row → outcome) (d : db) :
  loop cfg false now fate d
  = (false, settle cfg (map (λ r, (r, fate r)) (fst (claimJobs cfg now (CONCURRENCY cfg) d)))
              (snd (claimJobs cfg now (CONCURRENCY cfg) d))).
Proof.
  unfold loop. destruct (claimJobs cfg now (CONCURRENCY cfg) d) as [claimed d1].
  by destruct claimed.
Qed.

(** X11. A tick of the worker loop.  While a tick is running, another tick
    does nothing.  Otherwise the tick claims at most [CONCURRENCY] jobs and
    leaves none of them 'processing': a job whose processing succeeded is
    'done' with the attempts it had and no error; a job whose processing
    failed has one more attempt and the message recorded, and is 'failed'
    when that reaches [MAX_ATTEMPTS] and 'queued' otherwise.  The jobs the
    tick did not claim are as the claim left them, the order in which the
    jobs settle does not matter, and the flag is clear at the end. *)
Theorem loop_tick (cfg : tunables) (now : Z) (fate : Claimed.row → outcome) (d : db) :
  db_wf d →
  let claimed := fst (claimJobs cfg now (CONCURRENCY cfg) d) in
  let d1 := snd (claimJobs cfg now (CONCURRENCY cfg) d) in
  let d2 := snd (loop cfg false now fate d) in
  loop cfg true now fate d = (true, d)
  ∧ fst (loop cfg false now fate d) = false
  ∧ db_wf d2
  ∧ (0 <= CONCURRENCY cfg → Z.of_nat (length claimed) <= CONCURRENCY cfg)
  ∧ (∀ r, In r claimed →
       ∃ j', getJob (Claimed.id r) d2 = Some j'
             ∧ status j' ≠ processing
             ∧ claimed_of j' = Claimed.mk (Claimed.id r) (Claimed.folder r)
                                 (Claimed.image_path r) (Claimed.text_path r)
                                 (attempts j')
             ∧ match attempt (collaborators (fate r)) with
               | None => status j' = done ∧ attempts j' = Claimed.attempts r
                         ∧ last_error j' = None
               | Some e =>
                   attempts j' = Claimed.attempts r + 1
                   ∧ last_error j' = Some (slice_2000 (error_text e))
                   ∧ (Claimed.attempts r + 1 >= MAX_ATTEMPTS cfg → status j' = failed)
                   ∧ (Claimed.attempts r + 1 < MAX_ATTEMPTS cfg →
                        status j' = queued
                        ∧ settled_at (fate r) < available_at j')
               end)
  ∧ (∀ i, (∀ r, In r claimed → Claimed.id r ≠ i) → getJob i d2 = getJob i d1)
  ∧ (∀ sched, sched ≡ₚ map (λ r, (r, fate r)) claimed → settle cfg sched d1 = d2).
Proof.
  intros Hwf claimed d1 d2.
  assert (Hd2 : d2 = settle cfg (map (λ r, (r, fate r)) claimed) d1)
    by (unfold d2; by rewrite loop_idle_eq).
  assert (Hwf1 : db_wf d1) by by apply db_wf_claimJobs.
  assert (Hids : NoDup (map (λ e : Claimed.row * outcome, Claimed.id (fst e))
                          (map (λ r, (r, fate r)) claimed))).
  { rewrite map_map. cbn [fst]. unfold claimed.
    rewrite claimJobs_claims_selection by apply Hwf. unfold claimStmt. rewrite map_map.
    change (map (λ x, Claimed.id (claimed_of x))) with (map id).
    eapply submseteq_NoDup_ids.
    - etrans; [apply claim_candidates_submseteq | apply filter_submseteq].
    - rewrite recovered_ids. apply Hwf. }
  split; [done|]. split; [by rewrite loop_idle_eq|].
  split; [rewrite Hd2; by apply settle_db_wf|].
  split.
  { intros H0. destruct (claimJobs_length cfg now (CONCURRENCY cfg) d Hwf) as (Hlen & _).
    fold claimed in Hlen. rewrite Hlen.
    destruct (CONCURRENCY cfg <? 0) eqn:E; [apply Z.ltb_lt in E; lia | lia]. }
  split; [|split].
  - intros r Hr.
    destruct (claimJobs_row_origin cfg now (CONCURRENCY cfg) d r Hwf Hr)
      as (_ & j1 & _ & _ & _ & Hg1 & Hs1 & _ & Hc1).
    fold d1 in Hg1.
    destruct (proj1 (elem_of_Permutation (map (λ r, (r, fate r)) claimed) (r, fate r)))
      as (rest & Hp);
      [by apply list_elem_of_In, (in_map (λ r, (r, fate r)))|].
    assert (Hp' : map (λ r, (r, fate r)) claimed ≡ₚ rest ++ [(r, fate r)]).
    { rewrite Hp. apply Permutation_cons_append. }
    rewrite Hd2, (settle_Permutation cfg _ _ Hp' Hids).
    unfold settle. rewrite fold_left_app. fold (settle cfg rest d1). cbn [fold_left fst snd].
    assert (Hrest : getJob (Claimed.id r) (settle cfg rest d1) = Some j1).
    { rewrite getJob_settle_other; [done|]. intros e He E.
      change (map (λ e : Claimed.row * outcome, Claimed.id (fst e))
                (map (λ r, (r, fate r)) claimed))
        with ((λ e : Claimed.row * outcome, Claimed.id (fst e))
                <$> (map (λ r, (r, fate r)) claimed)) in Hids.
      rewrite Hp in Hids. cbn in Hids. apply NoDup_cons in Hids as [Hx _].
      apply Hx. rewrite <- E. apply list_elem_of_In, in_map_iff. by exists e. }
    set (dm := settle cfg rest d1) in *.
    assert (Hc : Claimed.attempts r = attempts j1 ∧ Claimed.id r = id j1
                 ∧ Claimed.folder r = folder j1 ∧ Claimed.image_path r = image_path j1
                 ∧ Claimed.text_path r = text_path j1).
    { rewrite <- Hc1. done. }
    destruct Hc as (Ha & Hi & Hf & Him & Htx).
    unfold workOne. destruct (attempt (collaborators (fate r))) as [e|].
    + unfold failJob, markFail. cbn [snd]. rewrite getJob_update, Hrest by done. cbn.
      rewrite Hi, Z.eqb_refl. eexists. split; [done|].
      pose proof (backoffSeconds_ge_1 cfg (random_draw (fate r)) (Claimed.attempts r)).
      destruct (Claimed.attempts r + 1 >=? MAX_ATTEMPTS cfg) eqn:G;
        [apply Z.geb_le in G | rewrite Z.geb_leb in G; apply Z.leb_gt in G];
        unfold claimed_of; cbn; rewrite Ha in H; rewrite Hf, Him, Htx, Ha;
        repeat split; intros; try done; lia.
    + unfold completeJob, markDone. cbn [snd]. rewrite getJob_update, Hrest by done. cbn.
      rewrite Hi, Z.eqb_refl. eexists. split; [done|]. cbn.
      rewrite Hf, Him, Htx, Ha. done.
  - intros i Hno. rewrite Hd2. apply getJob_settle_other.
    intros e He. apply in_map_iff in He as (r & <- & Hr). by apply Hno.
  - intros sched Hp. rewrite Hd2. symmetry. apply settle_Permutation; [by symmetry | done].
Qed.

Lemma loop_tick_witness :
  map status (jobs (snd (loop default_tunables false 100
                           (λ r, if Claimed.id r =? 1
                                 then mkOutcome 110 (1 # 2) world_ok
                                 else mkOutcome 105 (1 # 2) world_timeout)
                           sample_db)))
  = [done; queued]
  ∧ Z.of_nat (length (fst (claimJobs default_tunables 100 4 sample_db))) <= 4.
Proof.
  split; [reflexivity|].
  apply (loop_tick default_tunables 100 (λ _, mkOutcome 0 0 world_ok) sample_db).
  - unfold sample_db. do 2 apply db_wf_enqueueJob. apply db_wf_empty.
  - cbn. lia.
Defined.

(** ** Growth of the backoff *)

Lemma Math_pow_rounded_mono (cfg : tunables) (n m : Z) :
  (∀ b e, pow_approx cfg b e = to_double (b ^ e)) →
  (1 <= BACKOFF_FACTOR cfg)%Q → 0 <= n <= m →
  (0 <= Math_pow cfg (BACKOFF_FACTOR cfg) n)%Q
  ∧ (Math_pow cfg (BACKOFF_FACTOR cfg) n <= Math_pow cfg (BACKOFF_FACTOR cfg) m)%Q.
Proof.
  intros Hp Hf Hnm.
  assert (H1 : ∀ e, (Math_pow cfg (BACKOFF_FACTOR cfg) e
                      == to_double (BACKOFF_FACTOR cfg ^ e))%Q).
  { intros e. unfold Math_pow. destruct (e =? 0) eqn:E; [|by rewrite Hp].
    apply Z.eqb_eq in E as ->. symmetry. apply (to_double_Z 1). reflexivity. }
  rewrite !H1. split.
  - apply to_double_nonneg, Qpower_0_le. lra.
  - apply to_double_mono, Qpower_le_compat_l; [lia | done].
Qed.

(** X12. The delay grows with the attempts.  With a base that is not
    negative, a jitter fraction in [0, 1] and an engine whose powers of the
    factor are not negative and do not shrink from exponent [n] to [m] (as
    correctly rounded powers of a factor of at least 1 do), and as long as
    nothing overflows: the delay for one [Math.random()] draw is no shorter
    after [m] attempts than after [n], and it lies between the delays that
    the doubles nearest to [1 - J] and to [1 + J] give as jitter factor. *)
Theorem backoffSeconds_grows (cfg : tunables) (rnd : Q) (n m : Z) :
  (0 <= BACKOFF_BASE cfg)%Q →
  (0 <= BACKOFF_JITTER cfg)%Q → (BACKOFF_JITTER cfg <= 1)%Q →
  (0 <= rnd)%Q → (rnd < 1)%Q → 0 <= n <= m →
  (0 <= Math_pow cfg (BACKOFF_FACTOR cfg) n)%Q →
  (Math_pow cfg (BACKOFF_FACTOR cfg) n <= Math_pow cfg (BACKOFF_FACTOR cfg) m)%Q →
  backoff_finite cfg rnd n → backoff_finite cfg rnd m →
  let J := to_double (BACKOFF_JITTER cfg) in
  backoffSeconds cfg rnd n <= backoffSeconds cfg rnd m
  ∧ Z.max 1 (Qfloor (double_mul (raw_delay cfg n) (to_double (1 - J))))
    <= backoffSeconds cfg rnd n
  ∧ backoffSeconds cfg rnd n
    <= Z.max 1 (Qfloor (double_mul (raw_delay cfg n) (to_double (1 + J))))
  ∧ ((∀ b e, pow_approx cfg b e = to_double (b ^ e)) → (1 <= BACKOFF_FACTOR cfg)%Q →
     ∀ k l, 0 <= k <= l →
       (0 <= Math_pow cfg (BACKOFF_FACTOR cfg) k)%Q
       ∧ (Math_pow cfg (BACKOFF_FACTOR cfg) k <= Math_pow cfg (BACKOFF_FACTOR cfg) l)%Q).
Proof.
  intros Hb HJ0 HJ1 H0 H1 Hnm Hp0 Hp _ _. cbn zeta.
  destruct (jitter_range cfg rnd HJ0 H0 H1) as [Hlo Hhi].
  assert (E1 : (to_double 1 == 1)%Q) by (apply (to_double_Z 1); reflexivity).
  assert (HJ : (0 <= to_double (BACKOFF_JITTER cfg) <= 1)%Q).
  { split; [by apply to_double_nonneg|].
    pose proof (to_double_mono _ _ HJ1). lra. }
  assert (Hlo0 : (0 <= to_double (1 - to_double (BACKOFF_JITTER cfg)))%Q)
    by (apply to_double_nonneg; lra).
  assert (Hj : (0 <= jitter cfg rnd)%Q) by lra.
  assert (Hraw : (0 <= raw_delay cfg n)%Q).
  { unfold raw_delay, double_mul. apply to_double_nonneg. nra. }
  assert (Hrawm : (raw_delay cfg n <= raw_delay cfg m)%Q).
  { unfold raw_delay, double_mul. apply to_double_mono. nra. }
  unfold backoffSeconds, double_mul. cbn zeta.
  split; [|split; [|split]].
  - apply Z.max_le_compat_l, Qfloor_resp_le, to_double_mono. nra.
  - apply Z.max_le_compat_l, Qfloor_resp_le, to_double_mono. nra.
  - apply Z.max_le_compat_l, Qfloor_resp_le, to_double_mono. nra.
  - intros Hpow Hf k l Hkl. by apply Math_pow_rounded_mono.
Qed.

Lemma backoffSeconds_grows_witness :
  backoffSeconds default_tunables (1 # 4) 1 <= backoffSeconds default_tunables (1 # 4) 2.
Proof.
  destruct (backoffSeconds_grows default_tunables (1 # 4) 1 2) as [H _].
  - vm_compute. discriminate.
  - vm_compute. discriminate.
  - vm_compute. discriminate.
  - vm_compute. discriminate.
  - vm_compute. reflexivity.
  - lia.
  - vm_compute. discriminate.
  - vm_compute. discriminate.
  - repeat split; vm_compute; discriminate.
  - repeat split; vm_compute; discriminate.
  - exact H.
Defined.

(** ** Resolving the model's suggestions against the rubric *)

Lemma find_split {A} (p : A → bool) (l : list A) (r : A) :
  List.find p l = Some r →
  ∃ pre post, l = pre ++ r :: post ∧ p r = true ∧ ∀ x, In x pre → p x = false.
Proof.
  induction l as [|a l IH]; [done|]. cbn [List.find]. destruct (p a) eqn:E.
  - intros [= <-]. exists [], l. by repeat split.
  - intros H. destruct (IH H) as (pre & post & -> & Hr & Hpre).
    exists (a :: pre), post. split; [done|]. split; [done|].
    intros x [<-|Hx]; [done | by apply Hpre].
Qed.

Lemma nearer_lt (pts : Q) (b r : Rating.t) :
  nearer pts (Some b) r
  = if negb (Qle_bool (points_distance pts b) (points_distance pts r))
    then Some r else Some b.
Proof. done. Qed.

(** The fallback returns the first rating among those nearest to [pts]. *)
Lemma nearestRating_first_min (pts : Q) (ratings : list Rating.t) :
  match nearestRating pts ratings with
  | None => ratings = []
  | Some r =>
      ∃ pre post, ratings = pre ++ r :: post
        ∧ (∀ x, In x pre → (points_distance pts r < points_distance pts x)%Q)
        ∧ (∀ x, In x post → (points_distance pts r <= points_distance pts x)%Q)
  end.
Proof.
  unfold nearestRating. induction ratings as [|x l IH] using rev_ind; [done|].
  rewrite fold_left_app. cbn [fold_left].
  destruct (fold_left (nearer pts) l None) as [b|].
  - destruct IH as (pre & post & -> & Hpre & Hpost). rewrite nearer_lt.
    destruct (Qle_bool (points_distance pts b) (points_distance pts x)) eqn:E; cbn [negb].
    + apply Qle_bool_iff in E. exists pre, (post ++ [x]).
      split; [by rewrite <- app_assoc|]. split; [done|].
      intros y Hy. apply in_app_iff in Hy as [Hy|[<-|[]]]; [by apply Hpost | done].
    + assert (Hlt : (points_distance pts x < points_distance pts b)%Q).
      { apply Qnot_le_lt. intros H. apply Qle_bool_iff in H. congruence. }
      exists (pre ++ b :: post), []. split; [done|]. split; [|done].
      intros y Hy. apply in_app_iff in Hy as [Hy|[<-|Hy]].
      * eapply Qlt_trans; [exact Hlt | by apply Hpre].
      * done.
      * eapply Qlt_le_trans; [exact Hlt | by apply Hpost].
  - subst l. exists [], []. by repeat split.
Qed.

Lemma byCrit_Own (criteria : list Criterion.t) (key : string) (c : Criterion.t) :
  byCrit criteria key = Own c → In c criteria ∧ Criterion.id c = key.
Proof.
  unfold byCrit. destruct (List.find _ _) as [c'|] eqn:E.
  - intros [= <-]. apply find_some in E as [Hin Hid].
    split; [by apply in_rev | by apply String.eqb_eq].
  - by destruct (existsb _ _).
Qed.

Lemma total_points_whole (xs : list Resolved.t) :
  ∀ (a : Q) (za : Z), (a == inject_Z za)%Q →
  (∀ x, In x xs → ∃ z, (Resolved.points x == inject_Z z)%Q) →
  (Qabs a + fold_right (λ x s, Qabs (Resolved.points x) + s) 0 xs < inject_Z (2 ^ 53))%Q →
  (fold_left (λ s x, double_add s (Resolved.points x)) xs a
   == a + fold_right (λ x s, Resolved.points x + s) 0 xs)%Q.
Proof.
  induction xs as [|x xs IH]; intros a za Ha Hw Hb; cbn [fold_left fold_right] in *; [ring|].
  destruct (Hw x (or_introl eq_refl)) as [z Hz].
  assert (Hsum : (a + Resolved.points x == inject_Z (za + z))%Q)
    by (rewrite inject_Z_plus, Ha, Hz; reflexivity).
  assert (Hrest : (0 <= fold_right (λ x s, Qabs (Resolved.points x) + s) 0 xs)%Q).
  { clear. induction xs as [|y ys IH]; cbn [fold_right]; [done|].
    pose proof (Qabs_nonneg (Resolved.points y)). lra. }
  pose proof (Qabs_triangle a (Resolved.points x)) as Htri.
  assert (Hd : (double_add a (Resolved.points x) == a + Resolved.points x)%Q).
  { unfold double_add. rewrite (to_double_comp _ _ Hsum), Hsum. apply to_double_Z.
    rewrite Zlt_Qlt. change (inject_Z (Z.abs (za + z))) with (Qabs (inject_Z (za + z))).
    rewrite <- Hsum. lra. }
  rewrite (IH (double_add a (Resolved.points x)) (za + z)).
  - rewrite Hd. ring.
  - by rewrite Hd.
  - intros y Hy. apply Hw. by right.
  - rewrite Hd. lra.
Qed.

Section AutogradeFacts.
Context (toLowerCase : string → string).

Lemma resolveAll_in (criteria : list Criterion.t) (ss : list (option Suggestion.t)) :
  ∀ xs, resolveAll toLowerCase criteria ss = Some xs →
  (length xs ≤ length ss)%nat
  ∧ ∀ x, In x xs →
      ∃ s, In (Some s) ss ∧ resolveOne toLowerCase criteria s = Some (Some x).
Proof.
  induction ss as [|e ss IH]; intros xs H.
  - injection H as <-. split; [done | intros x []].
  - cbn [resolveAll] in H.
    destruct (resolveEntry toLowerCase criteria e) as [o|] eqn:E; [|done].
    destruct (resolveAll toLowerCase criteria ss) as [ys|]; [|done].
    destruct (IH ys eq_refl) as [Hlen Hin]. injection H as <-.
    destruct e as [s|]; [|done]. cbn [resolveEntry] in E.
    destruct o as [y|]; cbn [length].
    + split; [lia|]. intros x [<-|Hx]; [exists s; split; [by left | done]|].
      destruct (Hin x Hx) as (s' & Hs' & Hr). exists s'. split; [by right | done].
    + split; [lia|]. intros x Hx.
      destruct (Hin x Hx) as (s' & Hs' & Hr). exists s'. split; [by right | done].
Qed.

Lemma resolveOne_Some (criteria : list Criterion.t) (s : Suggestion.t) (x : Resolved.t) :
  resolveOne toLowerCase criteria s = Some (Some x) →
  ∃ c r, byCrit criteria (Suggestion.criterionId s) = Own c
         ∧ In r (Criterion.ratings c)
         ∧ x = Resolved.mk (Criterion.id c) (Rating.id r) (Rating.label r)
                 (Rating.points r) (Suggestion.rationale s).
Proof.
  unfold resolveOne. destruct (byCrit criteria (Suggestion.criterionId s)) as [c| |] eqn:B;
    [|done..].
  cbn zeta. destruct (labelMatch _ _ _) as [r|] eqn:L.
  - intros [= <-]. exists c, r. split; [done|]. split; [|done].
    unfold labelMatch in L. by apply find_some in L as [? _].
  - destruct (Suggestion.points s) as [pts|]; [|done].
    pose proof (nearestRating_first_min pts (Criterion.ratings c)) as N.
    destruct (nearestRating pts (Criterion.ratings c)) as [r|]; [|done].
    intros [= <-]. exists c, r. split; [done|]. split; [|done].
    destruct N as (pre & post & -> & _). apply in_app_iff. right. by left.
Qed.



End AutogradeFacts.




(** Two ratings whose points are not equally far from the stated points
    can be equally far in double arithmetic; the first is then kept. *)
Example nearest_tie_in_doubles :
  let far := Rating.mk "r1" "Low" (to_double (- (98 # 10))) in
  let near := Rating.mk "r2" "High" 10 in
  let pts := to_double (1 # 10) in
  (Qabs (Rating.points near - pts) < Qabs (Rating.points far - pts))%Q
  ∧ (points_distance pts near == points_distance pts far)%Q
  ∧ nearestRating pts [far; near] = Some far.
Proof. vm_compute. repeat split; discriminate. Qed.

(** ** Folder names *)

Lemma replace_runs_in (cls : N → bool) (s : js_string) :
  ∀ b c, In c (replace_runs cls b s) → c = underscore ∨ (In c s ∧ cls c = false).
Proof.
  induction s as [|a s IH]; intros b c Hc; [done|]. cbn [replace_runs] in Hc.
  destruct (cls a) eqn:E.
  - destruct b.
    + destruct (IH _ _ Hc) as [->|[H1 H2]]; [by left | right; split; [by right | done]].
    + destruct Hc as [<-|Hc]; [by left|].
      destruct (IH _ _ Hc) as [->|[H1 H2]]; [by left | right; split; [by right | done]].
  - destruct Hc as [<-|Hc]; [right; split; [by left | done]|].
    destruct (IH _ _ Hc) as [->|[H1 H2]]; [by left | right; split; [by right | done]].
Qed.

Lemma replace_runs_clean (cls : N → bool) (s : js_string) :
  (∀ c, In c s → cls c = false) → ∀ b, replace_runs cls b s = s.
Proof.
  induction s as [|a s IH]; intros Hs b; [done|]. cbn [replace_runs].
  rewrite (Hs a (or_introl eq_refl)). f_equal. apply IH. intros c Hc. apply Hs. by right.
Qed.

Lemma replace_runs_length (cls : N → bool) (s : js_string) :
  ∀ b, (length (replace_runs cls b s) ≤ length s)%nat.
Proof.
  induction s as [|a s IH]; intros b; [done|]. cbn [replace_runs].
  pose proof (IH true). pose proof (IH false).
  destruct (cls a); [destruct b|]; cbn [length]; lia.
Qed.

Lemma replace_runs_nil (cls : N → bool) (s : js_string) :
  replace_runs cls false s = [] ↔ s = [].
Proof.
  split; [|by intros ->]. destruct s as [|a s]; [done|]. cbn [replace_runs].
  by destruct (cls a).
Qed.

Lemma drop_spaces_in (s : js_string) (c : N) : In c (drop_spaces s) → In c s.
Proof.
  induction s as [|a s IH]; [done|]. cbn [drop_spaces].
  destruct (is_js_space a); [intros H; right; by apply IH | done].
Qed.

Lemma drop_spaces_clean (s : js_string) :
  (∀ c, In c s → is_js_space c = false) → drop_spaces s = s.
Proof.
  destruct s as [|a s]; [done|]. intros Hs. cbn [drop_spaces].
  by rewrite (Hs a (or_introl eq_refl)).
Qed.

Lemma drop_spaces_nil (s : js_string) :
  drop_spaces s = [] ↔ ∀ c, In c s → is_js_space c = true.
Proof.
  induction s as [|a s IH]; [done|]. cbn [drop_spaces].
  destruct (is_js_space a) eqn:E.
  - rewrite IH. split.
    + intros H c [<-|Hc]; [done | by apply H].
    + intros H c Hc. apply H. by right.
  - split; [done|]. intros H. specialize (H a (or_introl eq_refl)). congruence.
Qed.

Lemma drop_spaces_length (s : js_string) : (length (drop_spaces s) ≤ length s)%nat.
Proof.
  induction s as [|a s IH]; [done|]. cbn [drop_spaces].
  destruct (is_js_space a); cbn [length]; lia.
Qed.

Lemma js_trim_in (s : js_string) (c : N) : In c (js_trim s) → In c s.
Proof.
  unfold js_trim. intros H. apply in_rev, drop_spaces_in, in_rev in H.
  by apply drop_spaces_in.
Qed.

Lemma js_trim_clean (s : js_string) :
  (∀ c, In c s → is_js_space c = false) → js_trim s = s.
Proof.
  intros Hs. unfold js_trim. rewrite (drop_spaces_clean s Hs).
  rewrite drop_spaces_clean; [apply rev_involutive|].
  intros c Hc. apply Hs. by apply in_rev.
Qed.

Lemma js_trim_nil (s : js_string) :
  js_trim s = [] ↔ ∀ c, In c s → is_js_space c = true.
Proof.
  unfold js_trim. split.
  - intros H. apply (f_equal (@rev N)) in H. rewrite rev_involutive in H. cbn in H.
    apply (proj1 (drop_spaces_nil s)).
    pose proof (proj1 (drop_spaces_nil (rev (drop_spaces s))) H) as H'. clear H.
    rename H' into H.
    destruct (drop_spaces s) as [|a r] eqn:E; [done|].
    exfalso.
    assert (Ha : is_js_space a = false).
    { clear -E. induction s as [|x s IH]; [done|]. cbn [drop_spaces] in E.
      destruct (is_js_space x) eqn:X; [by apply IH|]. by injection E as <- _. }
    specialize (H a). rewrite H in Ha; [done|]. apply in_rev. rewrite rev_involutive. by left.
  - intros H. apply (proj2 (drop_spaces_nil s)) in H. by rewrite H.
Qed.

(** X16. [sanitizeFolder] returns a name without any of the characters
    backslash, slash, colon, asterisk, question mark, double quote, angle
    brackets, bar, and without white space; a name that has none of them is
    returned as it is, so sanitizing twice is sanitizing once; the result is
    never longer than the name; and it is empty, which [ensureFolder]
    refuses, exactly when the name is empty or all white space. *)
Theorem sanitizeFolder_clean (name : js_string) :
  (∀ c, In c (sanitizeFolder name) → is_forbidden c = false ∧ is_js_space c = false)
  ∧ ((∀ c, In c name → is_forbidden c = false ∧ is_js_space c = false) →
     sanitizeFolder name = name)
  ∧ sanitizeFolder (sanitizeFolder name) = sanitizeFolder name
  ∧ (length (sanitizeFolder name) ≤ length name)%nat
  ∧ (sanitizeFolder name = [] ↔ ∀ c, In c name → is_js_space c = true).
Proof.
  assert (Hclean : ∀ c, In c (sanitizeFolder name) →
                        is_forbidden c = false ∧ is_js_space c = false).
  { intros c Hc. unfold sanitizeFolder in Hc.
    apply replace_runs_in in Hc as [->|[Hc Hs]]; [done|]. split; [|done].
    apply replace_runs_in in Hc as [->|[_ Hf]]; done. }
  assert (Hid : ∀ s, (∀ c, In c s → is_forbidden c = false ∧ is_js_space c = false) →
                     sanitizeFolder s = s).
  { intros s Hs. unfold sanitizeFolder.
    rewrite js_trim_clean by (intros c Hc; by apply Hs).
    rewrite (replace_runs_clean is_forbidden) by (intros c Hc; by apply Hs).
    apply replace_runs_clean. intros c Hc. by apply Hs. }
  split; [exact Hclean|]. split; [apply Hid|]. split; [by apply Hid|]. split.
  - unfold sanitizeFolder.
    etrans; [apply replace_runs_length|]. etrans; [apply replace_runs_length|].
    unfold js_trim. rewrite length_rev.
    etrans; [apply drop_spaces_length|]. rewrite length_rev. apply drop_spaces_length.
  - unfold sanitizeFolder. by rewrite !replace_runs_nil, js_trim_nil.
Qed.

Lemma sanitizeFolder_clean_witness :
  sanitizeFolder [32; 97; 47; 47; 98; 32; 32; 99; 32]%N = [97; 95; 98; 95; 99]%N
  ∧ sanitizeFolder [97; 95; 98]%N = [97; 95; 98]%N.
Proof.
  split; [reflexivity|].
  destruct (sanitizeFolder_clean [97; 95; 98]%N) as (_ & H & _).
  apply H. intros c [<-|[<-|[<-|[]]]]; by vm_compute.
Defined.

(** ** Names of uploaded files *)

Lemma decimal_value_zeros (k : nat) (s : string) :
  decimal_value (zeros k +:+ s) = decimal_value s.
Proof.
  induction k as [|k IH]; [done|]. rewrite <- IH. cbn [zeros].
  change (String (Ascii.ascii_of_nat 48) (zeros k) +:+ s)
    with (String (Ascii.Ascii false false false false true true false false)
            (zeros k +:+ s)).
  unfold decimal_value. cbn [NilEmpty.uint_of_string uint_of_char].
  by destruct (NilEmpty.uint_of_string (zeros k +:+ s)) as [d|].
Qed.

Lemma decimal_value_String_of_int (n : Z) :
  0 <= n → decimal_value (String_of_int n) = Some (Z.to_N n).
Proof.
  intros Hn. unfold decimal_value, String_of_int. destruct n as [|p|p]; [done| |lia].
  cbn [Z.to_int NilZero.string_of_int].
  assert (E : NilZero.string_of_uint (Pos.to_uint p) = NilEmpty.string_of_uint (Pos.to_uint p)).
  { unfold NilZero.string_of_uint. pose proof (Unsigned.to_uint_nonnil p).
    by destruct (Pos.to_uint p). }
  rewrite E, NilEmpty.usu. f_equal. apply DecimalPos.Unsigned.of_to.
Qed.

Lemma append_inj_r (p a b : string) : p +:+ a = p +:+ b → a = b.
Proof. induction p as [|c p IH]; cbn; [done|]. intros [= H]. by apply IH. Qed.

Lemma upload_base_inj (folderName : string) (n1 n2 : Z) :
  0 <= n1 → 0 <= n2 → upload_base folderName n1 = upload_base folderName n2 → n1 = n2.
Proof.
  intros H1 H2 E. unfold upload_base in E. do 2 apply append_inj_r in E.
  apply (f_equal decimal_value) in E. unfold padStart0 in E.
  rewrite !decimal_value_zeros, !decimal_value_String_of_int in E by done.
  injection E as E. lia.
Qed.

Section UploadFacts.
Context (path_join : string → string → string).

Lemma upload_file_eq (now : Z) (fn fp : string) (f : uploaded) (d : db) :
  upload_file path_join now fn fp f d
  = if rename_ok f
    then (Some (upload_base fn (last_serial d fn + 1)),
          mkDb (jobs d ++ [uploaded_job path_join now fn fp f (jobs_seq d + 1)
                             (last_serial d fn + 1)])
               (jobs_seq d + 1) (<[fn := last_serial d fn + 1]> (folders d)))
    else (None, mkDb (jobs d) (jobs_seq d) (<[fn := last_serial d fn + 1]> (folders d))).
Proof.
  unfold upload_file. rewrite nextSerial_eq. cbn zeta.
  destruct (rename_ok f); [|done]. unfold enqueueJob, uploaded_job. cbn.
  by rewrite Z.add_0_r.
Qed.

Lemma upload_files_ok (now : Z) (fn fp : string) (files : list uploaded) :
  ∀ d, (∀ f, In f files → rename_ok f = true) →
  upload_files path_join now fn fp files d
  = (Some (map (λ k, upload_base fn (last_serial d fn + Z.of_nat k))
             (seq 1 (length files))),
     mkDb (jobs d ++ uploaded_jobs path_join now fn fp files (jobs_seq d) (last_serial d fn))
          (jobs_seq d + Z.of_nat (length files))
          (match files with
           | [] => folders d
           | _ => <[fn := last_serial d fn + Z.of_nat (length files)]> (folders d)
           end)).
Proof.
  induction files as [|f files IH]; intros d Hok.
  - cbn. rewrite app_nil_r, Z.add_0_r. by destruct d.
  - cbn [upload_files]. rewrite upload_file_eq, (Hok f (or_introl eq_refl)).
    set (d1 := mkDb _ _ _).
    assert (Hl : last_serial d1 fn = last_serial d fn + 1)
      by (unfold last_serial at 1, d1; cbn; by rewrite lookup_insert_eq).
    rewrite IH by (intros; apply Hok; by right). rewrite Hl. cbn [jobs jobs_seq folders d1].
    f_equal.
    + f_equal. cbn [length seq map].
      replace (last_serial d fn + Z.of_nat 1) with (last_serial d fn + 1) by lia.
      f_equal.
      rewrite <- (seq_shift (length files) 1), map_map. apply map_ext. intros k. f_equal. lia.
    + f_equal.
      * cbn [uploaded_jobs]. by rewrite <- app_assoc.
      * cbn [length]. lia.
      * destruct files as [|f' files']; cbn [length].
        -- f_equal; lia.
        -- rewrite insert_insert_eq. f_equal; lia.
Qed.

Lemma uploaded_jobs_wf (now : Z) (fn fp : string) (files : list uploaded) :
  ∀ t i c, rows_wf i t →
  rows_wf (i + Z.of_nat (length files))
          (t ++ uploaded_jobs path_join now fn fp files i c).
Proof.
  induction files as [|f files IH]; intros t i c Hwf.
  - cbn. by rewrite app_nil_r, Z.add_0_r.
  - cbn [uploaded_jobs length]. rewrite (app_assoc t [_] _ : t ++ _ :: _ = (t ++ [_]) ++ _).
    replace (i + Z.of_nat (S (length files))) with ((i + 1) + Z.of_nat (length files)) by lia.
    apply IH.
    apply (db_wf_enqueueJob now fn
             (image_path (uploaded_job path_join now fn fp f (i + 1) (c + 1)))
             (text_path (uploaded_job path_join now fn fp f (i + 1) (c + 1))) 0 0
             (mkDb t i ∅)) in Hwf.
    unfold db_wf, enqueueJob in Hwf. cbn [jobs jobs_seq] in Hwf.
    unfold uploaded_job. cbn. by rewrite Z.add_0_r in Hwf.
Qed.

(** X17. Uploads get fresh names.  The base name made of the folder name
    and the zero-padded serial determines the serial, so different serials
    never give the same name.  When every rename succeeds, a batch of [n]
    files is accepted with the names of the [n] serials after the folder's
    counter, all different; the counter has advanced by [n] and [n] jobs
    have been appended, each 'queued' for its folder with no attempts,
    priority 0 and available at once, its text path being its base name with
    ".txt"; ids stay unique.  An empty batch is refused with nothing
    changed. *)
Theorem upload_batch_accepts (now : Z) (fn fp : string) (files : list uploaded) (d : db) :
  db_wf d → 0 <= last_serial d fn →
  (∀ f, In f files → rename_ok f = true) →
  let c := last_serial d fn in
  let n := length files in
  let bases := map (λ k, upload_base fn (c + Z.of_nat k)) (seq 1 n) in
  let r := upload_batch_queue path_join now (Some (fn, fp)) files d in
  (∀ n1 n2, 0 <= n1 → 0 <= n2 → upload_base fn n1 = upload_base fn n2 → n1 = n2)
  ∧ NoDup bases
  ∧ (files = [] → r = (BadRequest, d))
  ∧ (files ≠ [] →
     fst r = Accepted bases
     ∧ jobs (snd r) = jobs d ++ uploaded_jobs path_join now fn fp files (jobs_seq d) c
     ∧ last_serial (snd r) fn = c + Z.of_nat n
     ∧ db_wf (snd r))
  ∧ (∀ j, In j (uploaded_jobs path_join now fn fp files (jobs_seq d) c) →
       status j = queued ∧ folder j = fn ∧ attempts j = 0 ∧ priority j = 0
       ∧ available_at j = now
       ∧ ∃ k, (1 <= k <= Z.of_nat n)
              ∧ text_path j = path_join fp (upload_base fn (c + k) +:+ ".txt")).
Proof.
  intros Hwf Hc Hok c n bases r.
  split; [apply upload_base_inj|]. split.
  { apply NoDup_ListNoDup, Finite.Injective_map_NoDup_in; [|apply List.seq_NoDup].
    intros a b Ha Hb E. apply upload_base_inj in E; lia. }
  split; [by intros ->|]. split.
  - intros Hne. unfold r, upload_batch_queue. rewrite upload_files_ok by done.
    destruct files as [|f files']; [done|]. cbn [fst snd jobs].
    split; [done|]. split; [done|]. split.
    + unfold last_serial at 1. cbn [folders]. by rewrite lookup_insert_eq.
    + unfold db_wf. cbn [jobs jobs_seq]. by apply uploaded_jobs_wf.
  - assert (G : ∀ fs i c0 j, In j (uploaded_jobs path_join now fn fp fs i c0) →
              status j = queued ∧ folder j = fn ∧ attempts j = 0 ∧ priority j = 0
              ∧ available_at j = now
              ∧ ∃ k, (1 <= k <= Z.of_nat (length fs))
                     ∧ text_path j = path_join fp (upload_base fn (c0 + k) +:+ ".txt")).
    { induction fs as [|f fs IH]; intros i c0 j Hj; [done|].
      cbn [uploaded_jobs] in Hj. destruct Hj as [<-|Hj].
      - cbn. do 5 (split; [done|]). exists 1. split; [cbn [length]; lia | done].
      - destruct (IH _ _ _ Hj) as (H1 & H2 & H3 & H4 & H5 & k & Hk & Ht).
        do 5 (split; [done|]). exists (k + 1). split; [cbn [length]; lia|].
        rewrite Ht. do 3 f_equal. lia. }
    apply G.
Qed.

(** X18. A failed rename spends a serial.  When the renames of the first
    [k] files of a batch succeed and the next one throws, the route answers
    with a server error; the [k] jobs are enqueued all the same, and the
    folder's counter has advanced by [k + 1], so the name of the failed file
    is never given to a later upload.  [/upload-queue] does the same for its
    single file. *)
Theorem upload_batch_failure (now : Z) (fn fp : string) (oks rest : list uploaded)
    (bad : uploaded) (d : db) :
  (∀ f, In f oks → rename_ok f = true) → rename_ok bad = false →
  let c := last_serial d fn in
  let k := Z.of_nat (length oks) in
  let r := upload_batch_queue path_join now (Some (fn, fp)) (oks ++ bad :: rest) d in
  fst r = ServerError
  ∧ jobs (snd r) = jobs d ++ uploaded_jobs path_join now fn fp oks (jobs_seq d) c
  ∧ last_serial (snd r) fn = c + k + 1
  ∧ fst (nextSerial fn (snd r)) = Some (c + k + 2)
  ∧ upload_queue path_join now (Some (fn, fp)) (Some bad) d
    = (ServerError, mkDb (jobs d) (jobs_seq d) (<[fn := c + 1]> (folders d))).
Proof.
  intros Hok Hbad c k r.
  assert (Happ : ∀ l1 l2 d0,
            upload_files path_join now fn fp (l1 ++ l2) d0
            = match upload_files path_join now fn fp l1 d0 with
              | (None, d1) => (None, d1)
              | (Some b1, d1) =>
                  match upload_files path_join now fn fp l2 d1 with
                  | (None, d2) => (None, d2)
                  | (Some b2, d2) => (Some (b1 ++ b2), d2)
                  end
              end).
  { induction l1 as [|f l1 IH]; intros l2 d0.
    - cbn. by destruct (upload_files path_join now fn fp l2 d0) as [[b|] d2].
    - cbn [app upload_files]. destruct (upload_file path_join now fn fp f d0) as [[b|] d1]; [|done].
      rewrite IH. destruct (upload_files path_join now fn fp l1 d1) as [[b1|] d2]; [|done].
      by destruct (upload_files path_join now fn fp l2 d2) as [[b2|] d3]. }
  assert (Hr : r = (ServerError,
                    mkDb (jobs d ++ uploaded_jobs path_join now fn fp oks (jobs_seq d) c)
                         (jobs_seq d + k) (<[fn := c + k + 1]> (folders d)))).
  { unfold r, upload_batch_queue.
    destruct (oks ++ bad :: rest) as [|x l] eqn:E; [by destruct oks|]. rewrite <- E.
    rewrite Happ, upload_files_ok by done. cbn [upload_files].
    rewrite upload_file_eq, Hbad. cbn [jobs jobs_seq folders]. f_equal. f_equal.
    destruct oks as [|o oks'].
    - unfold k, c, last_serial. cbn [folders length]. f_equal. lia.
    - unfold last_serial at 1. cbn [folders]. rewrite lookup_insert_eq, insert_insert_eq.
      unfold k, c. done. }
  rewrite Hr. cbn [fst snd jobs].
  assert (Hl : last_serial (mkDb (jobs d ++ uploaded_jobs path_join now fn fp oks (jobs_seq d) c)
                              (jobs_seq d + k) (<[fn := c + k + 1]> (folders d))) fn
               = c + k + 1)
    by (unfold last_serial; cbn [folders]; by rewrite lookup_insert_eq).
  split; [done|]. split; [done|]. split; [exact Hl|]. split.
  - rewrite nextSerial_eq. cbn [fst]. rewrite Hl. f_equal. lia.
  - unfold upload_queue. by rewrite upload_file_eq, Hbad.
Qed.
End UploadFacts.

Lemma upload_batch_accepts_witness :
  fst (upload_batch_queue (λ a b, a +:+ "/" +:+ b) 50 (Some ("X", "uploads/X"))
         [mkUploaded ".png" true; mkUploaded "" true] empty_db)
  = Accepted ["X_001"; "X_002"].
Proof.
  destruct (upload_batch_accepts (λ a b, a +:+ "/" +:+ b) 50 "X" "uploads/X"
              [mkUploaded ".png" true; mkUploaded "" true] empty_db)
    as (_ & _ & _ & H & _).
  - apply db_wf_empty.
  - reflexivity.
  - intros f [<-|[<-|[]]]; reflexivity.
  - apply H. discriminate.
Defined.

Lemma upload_batch_failure_witness :
  fst (nextSerial "X"
         (snd (upload_batch_queue (λ a b, a +:+ "/" +:+ b) 50 (Some ("X", "uploads/X"))
                 ([mkUploaded ".png" true] ++ mkUploaded ".png" false :: []) empty_db)))
  = Some 3.
Proof.
  apply (upload_batch_failure (λ a b, a +:+ "/" +:+ b) 50 "X" "uploads/X"
           [mkUploaded ".png" true] [] (mkUploaded ".png" false) empty_db).
  - intros f [<-|[]]. reflexivity.
  - reflexivity.
Defined.

(** ** Layout normalisation *)

Lemma Math_min_spec (a b : Q) :
  (Math_min a b <= a ∧ Math_min a b <= b ∧ (Math_min a b == a ∨ Math_min a b == b))%Q.
Proof.
  unfold Math_min. destruct (Qle_bool a b) eqn:E.
  - apply Qle_bool_iff in E. repeat split; [lra | lra | left; lra].
  - assert (¬ (a <= b)%Q) by (rewrite <- Qle_bool_iff; congruence).
    repeat split; [lra | lra | right; lra].
Qed.

Lemma Math_max_spec (a b : Q) :
  (a <= Math_max a b ∧ b <= Math_max a b ∧ (Math_max a b == a ∨ Math_max a b == b))%Q.
Proof.
  unfold Math_max. destruct (Qle_bool a b) eqn:E.
  - apply Qle_bool_iff in E. repeat split; [lra | lra | right; lra].
  - assert (¬ (a <= b)%Q) by (rewrite <- Qle_bool_iff; congruence).
    repeat split; [lra | lra | left; lra].
Qed.

Lemma z01_Finite (q : Q) :
  ((q <= 0 → z01 (Finite q) == 0) ∧ (0 <= q <= 1 → z01 (Finite q) == q)
   ∧ (1 <= q → z01 (Finite q) == 1))%Q.
Proof.
  cbn [z01].
  destruct (Math_min_spec 1 q) as (H1 & H2 & H3).
  destruct (Math_max_spec 0 (Math_min 1 q)) as (H4 & H5 & H6).
  repeat split; intros; destruct H3, H6; lra.
Qed.

Lemma z01_range (v : js_number) : (0 <= z01 v <= 1)%Q.
Proof.
  destruct v as [| | |q]; try (vm_compute; split; discriminate).
  destruct (z01_Finite q) as (H1 & H2 & H3).
  destruct (Qlt_le_dec q 0); [rewrite H1; lra|].
  destruct (Qlt_le_dec q 1); [rewrite H2; lra | rewrite H3; lra].
Qed.

Lemma ordered_spec (a b : Q) :
  ((ordered a b).1 <= (ordered a b).2)%Q
  ∧ (ordered a b = (a, b) ∨ ordered a b = (b, a)).
Proof.
  unfold ordered. destruct (Qle_bool a b) eqn:E; cbn.
  - apply Qle_bool_iff in E. split; [done | by left].
  - assert (¬ (a <= b)%Q) by (rewrite <- Qle_bool_iff; congruence).
    split; [lra | by right].
Qed.

Lemma normalizeEntry_Some (l : Entry.t) (b : Boxed.t) :
  normalizeEntry l = Some b →
  has_box l = true ∧ Boxed.text b = js_trim (Entry.text l) ∧ box_in_page (Boxed.box b).
Proof.
  unfold normalizeEntry, has_box.
  destruct (Entry.box l) as [[|v0 [|v1 [|v2 [|v3 [|? ?]]]]]|]; try discriminate.
  pose proof (ordered_spec (z01 v0) (z01 v2)) as [Hx Hx'].
  pose proof (ordered_spec (z01 v1) (z01 v3)) as [Hy Hy'].
  pose proof (z01_range v0). pose proof (z01_range v1).
  pose proof (z01_range v2). pose proof (z01_range v3).
  destruct (ordered (z01 v0) (z01 v2)) as [x0 x1].
  destruct (ordered (z01 v1) (z01 v3)) as [y0 y1].
  intros [= <-]. split; [done|]. split; [done|]. unfold box_in_page. cbn in *.
  destruct Hx' as [[= -> ->]|[= -> ->]], Hy' as [[= -> ->]|[= -> ->]]; repeat split; lra.
Qed.

Lemma normalizeEntry_None (l : Entry.t) : normalizeEntry l = None ↔ has_box l = false.
Proof.
  unfold normalizeEntry, has_box.
  destruct (Entry.box l) as [[|v0 [|v1 [|v2 [|v3 [|? ?]]]]]|]; try done.
  destruct (ordered (z01 v0) (z01 v2)), (ordered (z01 v1) (z01 v3)). done.
Qed.

Lemma length_omap_normalizeEntry (ls : list Entry.t) :
  length (omap normalizeEntry ls) = length (List.filter has_box ls).
Proof.
  induction ls as [|l ls IH]; [done|]. cbn [omap list_omap List.filter].
  destruct (normalizeEntry l) as [b|] eqn:E.
  - apply normalizeEntry_Some in E as [-> _]. cbn. by rewrite <- IH.
  - apply normalizeEntry_None in E as ->. exact IH.
Qed.

Lemma reading_ltb_spec (a b : nat * Boxed.t) :
  reading_ltb a b = true ↔ read_before a.1 a.2 b.1 b.2.
Proof.
  unfold reading_ltb, read_before, reading_cmp.
  set (ya := Box.y0 (Boxed.box a.2)). set (yb := Box.y0 (Boxed.box b.2)).
  set (xa := Box.x0 (Boxed.box a.2)). set (xb := Box.x0 (Boxed.box b.2)).
  rewrite orb_true_iff, andb_true_iff, negb_true_iff, Nat.ltb_lt.
  destruct (Qeq_bool (ya - yb) 0) eqn:E.
  - apply Qeq_bool_iff in E. rewrite Qeq_bool_iff, <- not_true_iff_false, Qle_bool_iff.
    split.
    + intros [H|[H1 H2]]; right; (split; [lra|]); [left; lra | right; split; [lra | done]].
    + intros [H|[H1 [H2|[H2 H3]]]]; [lra | left; lra | right; split; [lra | done]].
  - apply Qeq_bool_neq in E. rewrite Qeq_bool_iff, <- not_true_iff_false, Qle_bool_iff.
    split.
    + intros [H|[H1 H2]]; [left; lra | lra].
    + intros [H|[H1 _]]; [left; lra | lra].
Qed.

Lemma reading_le_spec (a b : nat * Boxed.t) :
  reading_le a b ↔ ¬ read_before b.1 b.2 a.1 a.2.
Proof. unfold reading_le. by rewrite <- not_true_iff_false, reading_ltb_spec. Qed.

Lemma read_before_irrefl (p : nat) (a : Boxed.t) : ¬ read_before p a p a.
Proof. unfold read_before. intros [H|[_ [H|[_ H]]]]; [lra | lra | lia]. Qed.

Lemma read_before_total (p q : nat) (a b : Boxed.t) :
  p ≠ q → read_before p a q b ∨ read_before q b p a.
Proof.
  intros Hpq. unfold read_before.
  destruct (Q_dec (Box.y0 (Boxed.box a)) (Box.y0 (Boxed.box b))) as [[H|H]|H];
    [by left; left | by right; left |].
  destruct (Q_dec (Box.x0 (Boxed.box a)) (Box.x0 (Boxed.box b))) as [[H'|H']|H'].
  - left; right. split; [done | by left].
  - right; right. split; [lra | by left].
  - destruct (decide (p < q)%nat).
    + left; right. split; [done|]. right. by split.
    + right; right. split; [lra|]. right. split; [lra | lia].
Qed.

Lemma read_before_asym (p q : nat) (a b : Boxed.t) :
  read_before p a q b → ¬ read_before q b p a.
Proof.
  unfold read_before.
  intros [H|[H1 [H|[H2 H3]]]] [H'|[H1' [H'|[H2' H3']]]]; try lra. lia.
Qed.

Lemma read_before_trans (p q r : nat) (a b c : Boxed.t) :
  read_before p a q b → read_before q b r c → read_before p a r c.
Proof.
  unfold read_before.
  intros [H|[H1 [H|[H2 H3]]]] [H'|[H1' [H'|[H2' H3']]]];
    try (left; lra); right; (split; [lra|]); try (left; lra).
  right. split; [lra | lia].
Qed.

Ltac read_before_tac :=
  unfold read_before;
  first [ left; lra
        | right; split; [lra|]; first [ left; lra | right; split; [lra | lia] ] ].

Lemma read_before_negtrans (p q r : nat) (a b c : Boxed.t) :
  read_before p a r c → read_before p a q b ∨ read_before q b r c.
Proof.
  unfold read_before at 1.
  destruct (Q_dec (Box.y0 (Boxed.box a)) (Box.y0 (Boxed.box b))) as [[Hy|Hy]|Hy];
    destruct (Q_dec (Box.x0 (Boxed.box a)) (Box.x0 (Boxed.box b))) as [[Hx|Hx]|Hx];
    destruct (le_lt_dec q p);
    intros [H|[H1 [H|[H2 H3]]]];
    first [ left; read_before_tac | right; read_before_tac ].
Qed.

#[global] Instance reading_le_total : Total reading_le.
Proof.
  intros a b. destruct (reading_ltb a b) eqn:E; [left | by right].
  apply reading_le_spec, read_before_asym. by apply reading_ltb_spec.
Qed.

#[global] Instance reading_le_trans : Transitive reading_le.
Proof.
  intros a b c. rewrite !reading_le_spec. intros Hab Hbc Hca.
  destruct (read_before_negtrans _ b.1 _ _ b.2 _ Hca); tauto.
Qed.

Lemma StronglySorted_lookup {A : Type} (R : relation A) (l : list A) :
  StronglySorted R l →
  ∀ i j x y, l !! i = Some x → l !! j = Some y → (i < j)%nat → R x y.
Proof.
  induction 1 as [|z l Hs IH Hall]; intros i j x y Hi Hj Hlt; [done|].
  destruct j as [|j]; [lia|]. cbn in Hj. destruct i as [|i].
  - cbn in Hi. injection Hi as <-. rewrite Forall_forall in Hall.
    apply Hall. by eapply list_elem_of_lookup_2.
  - cbn in Hi. eapply IH; [exact Hi | exact Hj | lia].
Qed.

Lemma reading_order_Permutation (ls : list Boxed.t) :
  reading_order ls ≡ₚ imap (λ p l, (p, l)) ls.
Proof. apply merge_sort_Permutation. Qed.

Lemma reading_order_elem (ls : list Boxed.t) (p : nat) (l : Boxed.t) :
  (p, l) ∈ reading_order ls ↔ ls !! p = Some l.
Proof.
  rewrite reading_order_Permutation, elem_of_lookup_imap. split.
  - intros (i & y & [= -> ->] & H). done.
  - intros H. by exists p, l.
Qed.

Lemma idxMap_get_Some (ls : list Boxed.t) (p : nat) (l : Boxed.t) :
  ls !! p = Some l →
  ∃ i, idxMap_get (reading_order ls) p = Some i
       ∧ reading_order ls !! i = Some (p, l)
       ∧ (i < length ls)%nat.
Proof.
  intros Hp. unfold idxMap_get.
  destruct (list_find (λ x, x.1 = p) (reading_order ls)) as [[i [p' l']]|] eqn:E.
  - apply list_find_Some in E as (Hi & Hp' & _). cbn in Hp'. subst p'.
    assert (Hl : ls !! p = Some l')
      by (apply reading_order_elem; by eapply list_elem_of_lookup_2).
    assert (l' = l) by congruence. subst l'.
    exists i. split; [done|]. split; [done|].
    apply lookup_lt_Some in Hi.
    by rewrite (Permutation_length (reading_order_Permutation ls)), length_imap in Hi.
  - apply list_find_None in E. rewrite Forall_forall in E.
    exfalso. apply (E (p, l)); [by apply reading_order_elem | done].
Qed.

(** X19. [z01] clamps to the unit interval.  Whatever it is given, not a
    number and the infinities included, the result lies between 0 and 1; a
    number already there is returned unchanged, one below 0 gives 0 and one
    above 1 gives 1. *)
Theorem z01_clamps (v : js_number) (q : Q) :
  ((0 <= z01 v <= 1)
   ∧ (0 <= q <= 1 → z01 (Finite q) == q)
   ∧ (q <= 0 → z01 (Finite q) == 0)
   ∧ (1 <= q → z01 (Finite q) == 1)
   ∧ z01 NaN == 0 ∧ z01 NegInfinity == 0 ∧ z01 Infinity == 1)%Q.
Proof.
  destruct (z01_Finite q) as (H1 & H2 & H3).
  split; [apply z01_range|]. do 3 (split; [done|]). by vm_compute.
Qed.

Lemma normalizeEntries_Some (es : list (option Entry.t)) (bs : list Boxed.t) :
  normalizeEntries es = Some bs →
  ∃ ls, es = Some <$> ls ∧ bs = omap normalizeEntry ls.
Proof.
  revert bs. induction es as [|[l|] es IH]; intros bs H; cbn [normalizeEntries] in H.
  - injection H as <-. by exists [].
  - destruct (normalizeEntries es) as [bs'|]; [|done].
    destruct (IH bs' eq_refl) as (ls & -> & ->). injection H as <-.
    exists (l :: ls). split; [done|]. cbn [omap list_omap].
    by destruct (normalizeEntry l).
  - done.
Qed.

Lemma normalizeEntries_None (es : list (option Entry.t)) :
  normalizeEntries es = None ↔ In None es.
Proof.
  induction es as [|[l|] es IH]; cbn [normalizeEntries].
  - split; [done | intros []].
  - destruct (normalizeEntries es) as [bs|].
    + split; [done|]. intros [[=]|H]. by apply IH in H.
    + split; [|done]. intros _. right. by apply IH.
  - split; [|done]. intros _. by left.
Qed.


(** X21. The reading-order index.  Every line of the normalised layout
    gets an index [_i] below the number of lines, and these indices follow
    the reading order: a line whose top edge is higher, or whose top edge is
    as high and whose left edge is further left, or which has the same
    corner and comes earlier in the list, has the smaller index.  Two
    different lines never share an index. *)
Theorem normalizeLayout_reading_order (o : RawLayout.t) (out : Layout.t)
    (p q : nat) (a b : Line.t) :
  normalizeLayout (Some o) = Some out →
  Layout.lines out !! p = Some a → Layout.lines out !! q = Some b →
  ∃ i j, Line._i a = Some i ∧ Line._i b = Some j
         ∧ (i < length (Layout.lines out))%nat
         ∧ (read_before p (Line.line a) q (Line.line b) → (i < j)%nat)
         ∧ (i = j → p = q).
Proof.
  intros H. unfold normalizeLayout in H.
  destruct (normalizeEntries (array_or_empty (RawLayout.lines o))) as [ls|]; [|done].
  destruct (normalizeEntries (array_or_empty (RawLayout.words o))) as [ws|]; [|done].
  injection H as <-. cbn [Layout.lines].
  rewrite !list_lookup_imap, length_imap.
  destruct (ls !! p) as [la|] eqn:Hp; [|done].
  destruct (ls !! q) as [lb|] eqn:Hq; [|done].
  cbn. intros [= <-] [= <-]. cbn [Line._i Line.line].
  destruct (idxMap_get_Some ls p la Hp) as (i & Hi & Hsi & Hlt).
  destruct (idxMap_get_Some ls q lb Hq) as (j & Hj & Hsj & _).
  exists i, j. do 3 (split; [done|]). split.
  - intros Hrb. destruct (decide (i < j)%nat) as [|Hge]; [done|]. exfalso.
    destruct (decide (i = j)) as [->|Hne].
    + assert (E : (p, la) = (q, lb)) by congruence. injection E as -> ->.
      by apply read_before_irrefl in Hrb.
    + assert (Hji : (j < i)%nat) by lia.
      pose proof (StronglySorted_lookup reading_le (reading_order ls)
                    (StronglySorted_merge_sort _ _) j i _ _ Hsj Hsi Hji) as Hle.
      apply reading_le_spec in Hle. by apply Hle.
  - intros ->. congruence.
Qed.

Lemma z01_clamps_witness : (z01 (Finite (1#2)) == 1#2)%Q.
Proof.
  destruct (z01_clamps NaN (1#2)) as (_ & H & _). apply H. split; discriminate.
Defined.


Lemma normalizeLayout_reading_order_witness :
  ∃ i j, Some 0%nat = Some i ∧ Some 1%nat = Some j ∧ (i < 2)%nat
         ∧ (read_before 1 (Boxed.mk [97%N] (Box.mk (1#10) (1#10) (9#10) (1#5)))
                        0 (Boxed.mk [98%N] (Box.mk (1#10) (1#2) (9#10) (3#5)))
            → (i < j)%nat)
         ∧ (i = j → 1%nat = 0%nat).
Proof.
  apply (normalizeLayout_reading_order sample_layout
           (Layout.mk (Finite 800) (Finite 0)
              [Line.mk (Boxed.mk [98%N] (Box.mk (1#10) (1#2) (9#10) (3#5))) (Some 1%nat);
               Line.mk (Boxed.mk [97%N] (Box.mk (1#10) (1#10) (9#10) (1#5))) (Some 0%nat)]
              [])
           1 0
           (Line.mk (Boxed.mk [97%N] (Box.mk (1#10) (1#10) (9#10) (1#5))) (Some 0%nat))
           (Line.mk (Boxed.mk [98%N] (Box.mk (1#10) (1#2) (9#10) (3#5))) (Some 1%nat)));
    reflexivity.
Defined.

(** ** Saved grades *)

Lemma findIndex_Some {A : Type} (f : A → bool) (l : list A) (i : nat) :
  findIndex f l = Some i →
  ∃ x, l !! i = Some x ∧ f x = true ∧ ∀ j y, l !! j = Some y → (j < i)%nat → f y = false.
Proof.
  revert i. induction l as [|x l IH]; intros i; [done|]. cbn [findIndex].
  destruct (f x) eqn:E.
  - intros [= <-]. exists x. split; [done|]. split; [done|]. intros; lia.
  - destruct (findIndex f l) as [k|]; [|done]. intros [= <-].
    destruct (IH k eq_refl) as (y & Hy & Hf & Hbefore).
    exists y. split; [done|]. split; [done|].
    intros [|j] z Hz Hlt; [cbn in Hz; congruence|].
    apply (Hbefore j); [done | lia].
Qed.

Lemma findIndex_None {A : Type} (f : A → bool) (l : list A) :
  findIndex f l = None ↔ ∀ x, x ∈ l → f x = false.
Proof.
  induction l as [|x l IH]; cbn [findIndex].
  - split; [intros _ x Hx; by apply elem_of_nil in Hx | done].
  - destruct (f x) eqn:E.
    + split; [done|]. intros H. rewrite H in E; [done | left].
    + destruct (findIndex f l) as [k|] eqn:Ek; cbn.
      * split; [done|]. intros H. exfalso.
        assert (Some k = None) as [=]. apply IH. intros y Hy. apply H. by right.
      * split; [|done]. intros _ y [->|Hy]%elem_of_cons; [done|]. by apply IH.
Qed.

Lemma filter_insert_out {A : Type} (f : A → bool) (l : list A) (i : nat) (x e : A) :
  l !! i = Some x → f x = false → f e = false →
  List.filter f (<[i := e]> l) = List.filter f l.
Proof.
  revert i. induction l as [|y l IH]; intros [|i] Hi Hx He; try done; cbn in Hi.
  - injection Hi as ->. cbn. by rewrite Hx, He.
  - change (<[S i := e]> (y :: l)) with (y :: <[i := e]> l).
    cbn [List.filter]. by rewrite (IH i Hi Hx He).
Qed.

Lemma strict_equal_sym (a b : json_value) : strict_equal a b = strict_equal b a.
Proof.
  destruct a, b; cbn; try done.
  - by destruct b, b0.
  - destruct (Qeq_bool q q0) eqn:E, (Qeq_bool q0 q) eqn:E'; try done.
    + apply Qeq_bool_iff in E. apply Qeq_bool_neq in E'. by destruct E'.
    + apply Qeq_bool_iff in E'. apply Qeq_bool_neq in E. by destruct E.
  - apply String.eqb_sym.
Qed.

Lemma strict_equal_trans (a b c : json_value) :
  strict_equal a b = true → strict_equal b c = true → strict_equal a c = true.
Proof.
  destruct a, b; cbn; try done; destruct c; cbn; try done.
  - destruct b, b0, b1; done.
  - rewrite !Qeq_bool_iff. intros -> ->. reflexivity.
  - rewrite !String.eqb_eq. congruence.
Qed.

Lemma strict_equal_String (v : json_value) (s : string) :
  strict_equal (JString s) v = true ↔ v = JString s.
Proof.
  destruct v; cbn; try (split; [done | discriminate]).
  rewrite String.eqb_eq. split; [by intros -> | by intros [= ->]].
Qed.

Section GradeFacts.
Context {Score : Type} (Number_toString : Q → string).
Implicit Types (p : Payload.t Score) (g e : Grade.t Score) (l : list (Grade.t Score)).

Lemma same_essay_entry (now : Z) p :
  (∃ b, Payload.base p = JString b) →
  strict_equal (Payload.assessmentId p) (Payload.assessmentId p) = true →
  same_essay p (grade_entry Number_toString now p) = true.
Proof.
  intros [b Hb] Ha. unfold same_essay, grade_entry. cbn. rewrite Ha, Hb. cbn.
  by rewrite String.eqb_refl.
Qed.

Lemma grades_save_accepts (now : Z) p (file : option (list (Grade.t Score))) :
  names_essay p →
  grades_save Number_toString now p file
  = (Saved (grade_entry Number_toString now p),
     Some (match findIndex (same_essay p) (loadGrades file) with
           | Some i => <[i := grade_entry Number_toString now p]> (loadGrades file)
           | None => loadGrades file ++ [grade_entry Number_toString now p]
           end)).
Proof. intros [Ha Hb]. unfold grades_save. by rewrite Ha, Hb. Qed.

Lemma grades_save_rejects (now : Z) p (file : option (list (Grade.t Score))) :
  ¬ names_essay p → grades_save Number_toString now p file = (Rejected, file).
Proof.
  intros H. unfold grades_save.
  destruct (truthy (Payload.assessmentId p)) eqn:Ea,
           (truthy (Payload.base p)) eqn:Eb; try done.
  exfalso. by apply H.
Qed.

Lemma names_essay_dec p : names_essay p ∨ ¬ names_essay p.
Proof.
  unfold names_essay.
  destruct (truthy (Payload.assessmentId p)), (truthy (Payload.base p));
    first [ by left | right; by intros [? ?] ].
Qed.

Lemma grades_save_keeps (f : Grade.t Score → bool) (now : Z) p
    (file : option (list (Grade.t Score))) :
  (∀ g, same_essay p g = true → f g = false) →
  f (grade_entry Number_toString now p) = false →
  List.filter f (loadGrades (grades_save Number_toString now p file).2)
  = List.filter f (loadGrades file).
Proof.
  intros Hf He. destruct (names_essay_dec p) as [Hp|Hp];
    [|by rewrite grades_save_rejects].
  rewrite grades_save_accepts by done. cbn [snd loadGrades].
  destruct (findIndex (same_essay p) (loadGrades file)) as [i|] eqn:E.
  - apply findIndex_Some in E as (x & Hx & Hs & _).
    eapply filter_insert_out; [exact Hx | by apply Hf | done].
  - rewrite List.filter_app. cbn. by rewrite He, app_nil_r.
Qed.

Lemma same_essay_strings p g (a b : string) :
  Payload.assessmentId p = JString a → Payload.base p = JString b →
  same_essay p g = true ↔ essay_key g = (JString a, b).
Proof.
  intros Ha Hb. unfold same_essay, essay_key. rewrite Ha, Hb, andb_true_iff.
  rewrite (strict_equal_sym (Grade.assessmentId g)), strict_equal_String.
  cbn. rewrite String.eqb_eq.
  split; [by intros [-> ->] | by intros [= -> ->]].
Qed.


Lemma one_per_essay_save (now : Z) (p : Payload.t Score)
    (file : option (list (Grade.t Score))) :
  string_ids p → one_per_essay (loadGrades file) →
  one_per_essay (loadGrades (grades_save Number_toString now p file).2)
  ∧ (names_essay p →
     ∀ g, g ∈ loadGrades (grades_save Number_toString now p file).2 →
       same_essay p g = true → g = grade_entry Number_toString now p).
Proof.
  unfold one_per_essay. intros (a & b & Ha & Hb) Hnd.
  destruct (names_essay_dec p) as [Hp|Hp];
    [|by rewrite grades_save_rejects].
  rewrite grades_save_accepts by done. cbn [snd loadGrades].
  assert (He : essay_key (grade_entry Number_toString now p) = (JString a, b)).
  { unfold essay_key, grade_entry. cbn. by rewrite Ha, Hb. }
  destruct (findIndex (same_essay p) (loadGrades file)) as [i|] eqn:E.
  - apply findIndex_Some in E as (x & Hx & Hs & _).
    assert (Hk : essay_key (grade_entry Number_toString now p) = essay_key x).
    { apply (same_essay_strings p x a b Ha Hb) in Hs. congruence. }
    split.
    + rewrite list_fmap_insert, Hk, list_insert_id; [done|].
      by rewrite list_lookup_fmap, Hx.
    + intros _ g (j & Hj)%list_elem_of_lookup Hg.
      destruct (decide (i = j)) as [->|Hij].
      * rewrite list_lookup_insert_eq in Hj by (by eapply lookup_lt_Some). congruence.
      * rewrite list_lookup_insert_ne in Hj by done. exfalso. apply Hij.
        apply (NoDup_lookup _ i j (essay_key x) Hnd).
        -- by rewrite list_lookup_fmap, Hx.
        -- rewrite list_lookup_fmap, Hj. cbn. f_equal.
           apply (same_essay_strings p _ a b Ha Hb) in Hs, Hg. congruence.
  - pose proof (proj1 (findIndex_None _ _) E) as Hnone. split.
    + rewrite fmap_app. apply NoDup_app. split; [done|]. split.
      * intros k (g & -> & Hg)%list_elem_of_fmap [Hk|[]%elem_of_nil]%elem_of_cons.
        specialize (Hnone g Hg). apply not_true_iff_false in Hnone. apply Hnone.
        apply (same_essay_strings p g a b Ha Hb). congruence.
      * apply NoDup_singleton.
    + intros _ g [Hg|Hg%list_elem_of_singleton]%elem_of_app Hs; [|done].
      rewrite (Hnone g Hg) in Hs. done.
Qed.

(** X23. One grade per essay, for ids that are strings.  If no two entries
    of the grades file have the same [assessmentId] and [base], that is
    still so after a save whose [assessmentId] and [base] are strings, and
    the entry just stored is then the only one for its essay.  Started from
    a file that is missing or unreadable, every run of such saves leaves a
    file with at most one grade per essay. *)
Theorem grades_one_per_essay (now : Z) (p : Payload.t Score)
    (file : option (list (Grade.t Score))) (reqs : list (Z * Payload.t Score)) :
  (string_ids p → one_per_essay (loadGrades file) →
   one_per_essay (loadGrades (grades_save Number_toString now p file).2)
   ∧ (names_essay p →
      ∀ g, g ∈ loadGrades (grades_save Number_toString now p file).2 →
        same_essay p g = true → g = grade_entry Number_toString now p))
  ∧ ((∀ r, In r reqs → string_ids r.2) →
     one_per_essay (loadGrades (grades_replay Number_toString reqs None))).
Proof.
  split; [apply one_per_essay_save|].
  assert (G : ∀ rs (f : option (list (Grade.t Score))),
            (∀ r, In r rs → string_ids r.2) →
            one_per_essay (loadGrades f) →
            one_per_essay (loadGrades (grades_replay Number_toString rs f))).
  { induction rs as [|[t q] rs IH]; intros f Hs Hf; [done|].
    cbn [grades_replay]. apply IH; [intros r Hr; apply Hs; by right|].
    apply one_per_essay_save; [|done]. apply (Hs (t, q)). by left. }
  intros Hs. apply G; [done|]. apply NoDup_nil_2.
Qed.
End GradeFacts.


Lemma grades_one_per_essay_witness :
  one_per_essay
    (loadGrades
       (grades_save (λ q, String_of_int (Qfloor q)) 9
          (Payload.mk (JString "a1") (JString "X_001") (Some (Finite 7)) JUndefined
             (Some ["s"]))
          (Some [Grade.mk (JString "a1") "X_001" (Finite 3) "draft" [] 1])).2).
Proof.
  destruct (grades_one_per_essay (λ q, String_of_int (Qfloor q)) 9
              (Payload.mk (JString "a1") (JString "X_001") (Some (Finite 7)) JUndefined
                 (Some ["s"]))
              (Some [Grade.mk (JString "a1") "X_001" (Finite 3) "draft" [] 1]) [])
    as [H _].
  apply H; [by exists "a1", "X_001" | apply NoDup_singleton].
Defined.

(** With a [base] that is a number, the route looks for the number and
    stores its decimal text: saving the same body twice leaves two grades
    for one essay. *)
Example grades_number_base_twice :
  let p := Payload.mk (Score := string) (JString "a1") (JNumber 5) None JUndefined None in
  let f := grades_replay (λ q, String_of_int (Qfloor q)) [(1, p); (2, p)] None in
  map essay_key (loadGrades f) = [(JString "a1", "5"); (JString "a1", "5")].
Proof. vm_compute. reflexivity. Qed.

(** ** Rubric validation *)

Lemma push_if_nil (cond : bool) (msg : string) : push_if cond msg = [] ↔ cond = false.
Proof. by destruct cond. Qed.

Lemma is_blank_false (s : js_string) : is_blank s = false ↔ js_trim s ≠ [].
Proof. unfold is_blank. by destruct (js_trim s). Qed.

Lemma concat_imap_nil {A B : Type} (f : nat → A → list B) (l : list A) :
  concat (imap f l) = [] ↔ ∀ i x, l !! i = Some x → f i x = [].
Proof.
  revert f. induction l as [|y l IH]; intros f.
  - split; [by intros _ i x | done].
  - rewrite imap_cons. cbn [concat]. split.
    + intros [H1 H2]%app_nil [|i] x Hx.
      * cbn in Hx. by injection Hx as <-.
      * cbn in Hx. by apply (proj1 (IH (f ∘ S)) H2 i x).
    + intros H. apply app_nil. split; [by apply (H 0%nat)|].
      apply IH. intros i x Hx. by apply (H (S i)).
Qed.

Lemma rating_issues_nil (i ri : nat) (r : RatingInput.t) :
  rating_issues i ri r = [] ↔ rating_ok r.
Proof.
  unfold rating_issues, rating_ok. cbn zeta.
  rewrite app_nil, !push_if_nil, is_blank_false, negb_false_iff.
  apply and_iff_compat_l. destruct (RatingInput.points r) as [| | |q]; cbn.
  1-3: split; [done | by intros [? [=]]].
  split; [by exists q | done].
Qed.

Lemma criterion_issues_nil (i : nat) (c : CriterionInput.t) :
  criterion_issues i c = [] ↔ criterion_ok c.
Proof.
  unfold criterion_issues, criterion_ok. cbn zeta.
  rewrite !app_nil, !push_if_nil, is_blank_false, orb_false_iff, negb_false_iff,
    concat_imap_nil.
  assert (Hw : Number_isFinite (CriterionInput.weight c) = true
               ∧ is_negative (CriterionInput.weight c) = false
               ↔ ∃ q, CriterionInput.weight c = Finite q ∧ (0 <= q)%Q).
  { destruct (CriterionInput.weight c) as [| | |q]; cbn.
    1-3: split; [by intros [[=] ?] | by intros [? [[=] ?]]].
    rewrite negb_false_iff, Qle_bool_iff. split.
    - intros [_ H]. by exists q.
    - intros (q' & [= <-] & H). done. }
  assert (Hr : (match array_or_empty (CriterionInput.ratings c) with
                | [] => true | _ => false end = false
                ∧ ∀ k x, array_or_empty (CriterionInput.ratings c) !! k = Some x →
                    rating_issues i k x = [])
               ↔ ∃ r rs, CriterionInput.ratings c = Some (r :: rs)
                         ∧ Forall rating_ok (r :: rs)).
  { destruct (CriterionInput.ratings c) as [[|r rs]|]; cbn [array_or_empty].
    - split; [by intros [[=] _] | by intros (? & ? & [=] & _)].
    - split.
      + intros [_ H]. exists r, rs. split; [done|].
        apply Forall_lookup. intros k x Hx. by apply (rating_issues_nil i k), H.
      + intros (r' & rs' & [= <- <-] & H). split; [done|].
        intros k x Hx. apply rating_issues_nil. by eapply Forall_lookup_1.
    - split; [by intros [[=] _] | by intros (? & ? & [=] & _)]. }
  rewrite <- Hw, <- Hr. tauto.
Qed.

(** X24. [validateRubric] finds no issue exactly in a well-formed rubric:
    one whose [criteria] is an array that is not empty, each criterion with
    a title that is not blank, a finite weight that is not negative and at
    least one rating, and each rating with a label that is not blank and
    finite points.  A rubric without criteria gets exactly one issue. *)
Theorem validateRubric_accepts (criteria : option (list CriterionInput.t)) :
  (validateRubric criteria = [] ↔ rubric_ok criteria)
  ∧ (array_or_empty criteria = [] →
     validateRubric criteria = ["Rubric requires at least one criterion."]).
Proof.
  split.
  - unfold validateRubric, rubric_ok. cbn zeta.
    rewrite app_nil, push_if_nil, concat_imap_nil.
    destruct criteria as [[|c cs]|]; cbn [array_or_empty].
    + split; [by intros [[=] _] | by intros (? & ? & [=] & _)].
    + split.
      * intros [_ H]. exists c, cs. split; [done|].
        apply Forall_lookup. intros k x Hx. by apply (criterion_issues_nil k), H.
      * intros (c' & cs' & [= <- <-] & H). split; [done|].
        intros k x Hx. apply criterion_issues_nil. by eapply Forall_lookup_1.
    + split; [by intros [[=] _] | by intros (? & ? & [=] & _)].
  - unfold validateRubric. cbn zeta. by intros ->.
Qed.

Lemma validateRubric_accepts_witness :
  validateRubric None = ["Rubric requires at least one criterion."]
  ∧ validateRubric
      (Some [CriterionInput.mk [84%N] (Finite 2)
               (Some [RatingInput.mk [65%N] (Finite 4)])]) = [].
Proof.
  split.
  - by apply (validateRubric_accepts None).
  - apply (validateRubric_accepts
             (Some [CriterionInput.mk [84%N] (Finite 2)
                      (Some [RatingInput.mk [65%N] (Finite 4)])])).
    eexists _, _. split; [reflexivity|].
    repeat constructor; try discriminate; cbn.
    + by exists 2%Q.
    + eexists _, _. split; [reflexivity|].
      repeat constructor; [discriminate | by exists 4%Q].
Defined.

(** ** Image preparation *)

Lemma Math_round_inject_Z (z : Z) : Math_round (inject_Z z) = z.
Proof.
  unfold Math_round. apply Z.le_antisymm.
  - apply Z.lt_succ_r. rewrite Zlt_Qlt.
    eapply Qle_lt_trans; [apply Qfloor_le|].
    unfold Z.succ. rewrite inject_Z_plus. change (inject_Z 1) with 1%Q. lra.
  - rewrite <- (Qfloor_Z z) at 1. apply Qfloor_resp_le. lra.
Qed.

Lemma Math_round_le (p q : Q) : (p <= q)%Q → Math_round p <= Math_round q.
Proof. intros H. apply Qfloor_resp_le. lra. Qed.

Lemma Math_round_Qeq (p q : Q) : (p == q)%Q → Math_round p = Math_round q.
Proof. intros H. unfold Math_round. by rewrite H. Qed.

Lemma inject_Z_nonneg (z : Z) : 0 <= z → (0 <= inject_Z z)%Q.
Proof. intros H. change 0%Q with (inject_Z 0). by rewrite <- Zle_Qle. Qed.

Lemma Math_round_unique (x : Q) (m : Z) :
  (inject_Z m - (1 # 2) <= x)%Q → (x < inject_Z m + (1 # 2))%Q → Math_round x = m.
Proof.
  intros H1 H2. unfold Math_round.
  pose proof (Qfloor_le (x + (1 # 2))) as F1.
  pose proof (Qlt_floor (x + (1 # 2))) as F2.
  rewrite inject_Z_plus in F2. change (inject_Z 1) with 1%Q in F2.
  assert (Ha : (inject_Z (Qfloor (x + (1 # 2))) < inject_Z (m + 1))%Q).
  { rewrite inject_Z_plus. change (inject_Z 1) with 1%Q. lra. }
  assert (Hb : (inject_Z m < inject_Z (Qfloor (x + (1 # 2)) + 1))%Q).
  { rewrite inject_Z_plus. change (inject_Z 1) with 1%Q. lra. }
  rewrite <- Zlt_Qlt in Ha, Hb. lia.
Qed.

(** The scale is at most 1 above the limit, and a side does not grow. *)
Lemma scaled_side_le (M : Q) (W a : Z) :
  (M < inject_Z W)%Q → 0 < W → 0 <= a < 2 ^ 53 →
  Math_round (double_mul (inject_Z a) (double_div M (inject_Z W))) <= a.
Proof.
  intros HM HW Ha. unfold double_mul, double_div.
  assert (HWq : (0 < inject_Z W)%Q).
  { change 0%Q with (inject_Z 0). by rewrite <- Zlt_Qlt. }
  assert (Hr : (M / inject_Z W <= 1)%Q) by (apply Qle_shift_div_r; [done | lra]).
  assert (E1 : (to_double 1 == 1)%Q) by (apply (to_double_Z 1); reflexivity).
  pose proof (to_double_mono _ _ Hr) as Hs.
  pose proof (inject_Z_nonneg a (proj1 Ha)) as Haq.
  assert (Hp : (inject_Z a * to_double (M / inject_Z W) <= inject_Z a)%Q) by nra.
  pose proof (to_double_mono _ _ Hp) as Hx.
  rewrite (to_double_Z a) in Hx by lia.
  rewrite <- (Math_round_inject_Z a) at 2. by apply Math_round_le.
Qed.

(** The longer side comes out as the limit, when that is a whole number of
    at most [2^50]: the two roundings move the product by less than a
    half. *)
Lemma scaled_long_side (m W : Z) :
  1 <= m <= 2 ^ 50 → m < W < 2 ^ 53 →
  Math_round (double_mul (inject_Z W) (double_div (inject_Z m) (inject_Z W))) = m.
Proof.
  intros Hm HW. unfold double_mul, double_div.
  assert (HWq : (inject_Z m + 1 <= inject_Z W)%Q).
  { change 1%Q with (inject_Z 1). rewrite <- inject_Z_plus, <- Zle_Qle. lia. }
  assert (HWu : (inject_Z W < 9007199254740992)%Q).
  { change 9007199254740992%Q with (inject_Z (2 ^ 53)). rewrite <- Zlt_Qlt. lia. }
  assert (Hm1 : (1 <= inject_Z m)%Q).
  { change 1%Q with (inject_Z 1). rewrite <- Zle_Qle. lia. }
  assert (Hm2 : (inject_Z m <= 1125899906842624)%Q).
  { change 1125899906842624%Q with (inject_Z (2 ^ 50)). rewrite <- Zle_Qle. lia. }
  set (M := inject_Z m) in *. set (Wq := inject_Z W) in *.
  assert (He : (pow2 (-53) == 1 # 9007199254740992)%Q) by reflexivity.
  assert (Hn : (pow2 (-1022) <= 1 # 9007199254740992)%Q).
  { rewrite <- He. apply pow2_le. lia. }
  assert (Hr : (M / Wq * Wq == M)%Q) by (field; lra).
  assert (Hr0 : (0 < M / Wq)%Q) by (apply Qlt_shift_div_l; lra).
  assert (Hrl : ((1 # 9007199254740992) <= M / Wq)%Q).
  { apply Qle_shift_div_l; [lra|]. lra. }
  pose proof (to_double_rel_err (M / Wq)) as R1.
  rewrite (Qabs_pos (M / Wq)) in R1 by lra. rewrite He in R1.
  specialize (R1 ltac:(lra)). apply Qabs_Qle_condition in R1 as [R1a R1b].
  set (scale := to_double (M / Wq)) in *.
  assert (Hy : (M - M * (1 # 9007199254740992) <= Wq * scale
                ∧ Wq * scale <= M + M * (1 # 9007199254740992))%Q) by (split; nra).
  pose proof (to_double_rel_err (Wq * scale)) as R2.
  rewrite (Qabs_pos (Wq * scale)) in R2 by lra. rewrite He in R2.
  specialize (R2 ltac:(lra)). apply Qabs_Qle_condition in R2 as [R2a R2b].
  destruct Hy as [Hy1 Hy2].
  set (y := (Wq * scale)%Q) in *. set (x := to_double y) in *.
  apply Math_round_unique; fold M; lra.
Qed.

(** X25. The size [prepImage] reports.  For sides below [2^53]: a picture
    whose longer side is within the limit keeps its size.  Above the limit
    the sides are scaled in double arithmetic and rounded; when the call
    returns, both are at least 1, neither has grown, and the longer one is
    the limit when that is a whole number of at most [2^50].  With a limit
    that is not positive the call throws. *)
Theorem prepImage_size_bounds (max_side : Q) (w h : Z) :
  0 <= w < 2 ^ 53 → 0 <= h < 2 ^ 53 →
  ((inject_Z (Z.max w h) <= max_side)%Q → prepImage_size max_side w h = Some (w, h))
  ∧ (∀ w' h', prepImage_size max_side w h = Some (w', h') →
       0 <= w' <= w ∧ 0 <= h' <= h
       ∧ ((max_side < inject_Z (Z.max w h))%Q →
          1 <= w' ∧ 1 <= h'
          ∧ ∀ m, (max_side == inject_Z m)%Q → m <= 2 ^ 50 → Z.max w' h' = m))
  ∧ ((max_side < inject_Z (Z.max w h))%Q → (max_side <= 0)%Q →
     prepImage_size max_side w h = None).
Proof.
  intros Hw Hh. unfold prepImage_size. cbn zeta.
  destruct (Qle_bool (inject_Z (Z.max w h)) max_side) eqn:E; cbn [negb].
  - apply Qle_bool_iff in E. split; [done|]. split; [|intros; lra].
    intros w' h' [= <- <-]. split; [lia|]. split; [lia|]. intros; lra.
  - assert (Hgt : (max_side < inject_Z (Z.max w h))%Q).
    { apply Qnot_le_lt. rewrite <- Qle_bool_iff. congruence. }
    split; [intros; lra|].
    destruct (Z.max w h =? 0) eqn:E0; [split; [done | done]|].
    apply Z.eqb_neq in E0.
    assert (HW : 0 < Z.max w h < 2 ^ 53) by lia.
    set (W := Z.max w h) in *.
    set (scale := double_div max_side (inject_Z W)).
    pose proof (scaled_side_le max_side W w Hgt (proj1 HW) Hw) as Hwle.
    pose proof (scaled_side_le max_side W h Hgt (proj1 HW) Hh) as Hhle.
    fold scale in Hwle, Hhle.
    set (w1 := Math_round (double_mul (inject_Z w) scale)) in *.
    set (h1 := Math_round (double_mul (inject_Z h) scale)) in *.
    split.
    + destruct (0 <? w1) eqn:Pw, (0 <? h1) eqn:Ph; cbn [andb]; try done.
      apply Z.ltb_lt in Pw, Ph. intros w' h' [= <- <-].
      split; [lia|]. split; [lia|]. intros _. split; [lia|]. split; [lia|].
      intros m Hm Hm50.
      assert (Hmw : m < W).
      { rewrite Zlt_Qlt. lra. }
      assert (Hm1 : 1 <= m).
      { destruct (Z_lt_le_dec m 1) as [Hlt|]; [exfalso | done].
        assert (Hs0 : (scale <= 0)%Q).
        { unfold scale, double_div.
          assert (Hq : (max_side / inject_Z W <= 0)%Q).
          { apply Qle_shift_div_r.
            - change 0%Q with (inject_Z 0). rewrite <- Zlt_Qlt. lia.
            - rewrite Hm. change (0 * inject_Z W)%Q with (inject_Z 0 * inject_Z W)%Q.
              rewrite <- inject_Z_mult, <- Zle_Qle. lia. }
          pose proof (to_double_mono _ _ Hq) as H0. by rewrite (to_double_0 0) in H0. }
        assert (Hx : (double_mul (inject_Z w) scale <= 0)%Q).
        { unfold double_mul. pose proof (inject_Z_nonneg w (proj1 Hw)).
          assert (Hp : (inject_Z w * scale <= 0)%Q) by nra.
          pose proof (to_double_mono _ _ Hp) as H0. by rewrite (to_double_0 0) in H0. }
        apply Math_round_le in Hx. fold w1 in Hx.
        change (Math_round 0) with 0 in Hx. lia. }
      assert (Hlong : Math_round (double_mul (inject_Z W) scale) = m).
      { unfold scale, double_div, double_mul.
        rewrite (Math_round_Qeq _ (to_double (inject_Z W
                   * to_double (inject_Z m / inject_Z W)))).
        - apply (scaled_long_side m W); lia.
        - apply to_double_comp.
          rewrite (to_double_comp (max_side / inject_Z W) (inject_Z m / inject_Z W));
            [reflexivity | by rewrite Hm]. }
      assert (Hmono : ∀ a, 0 <= a <= W →
                Math_round (double_mul (inject_Z a) scale)
                <= Math_round (double_mul (inject_Z W) scale)).
      { intros a Ha. apply Math_round_le. unfold double_mul. apply to_double_mono.
        assert (Hs0 : (0 <= scale)%Q).
        { unfold scale, double_div. apply to_double_nonneg.
          apply Qle_shift_div_l.
          - change 0%Q with (inject_Z 0). rewrite <- Zlt_Qlt. lia.
          - rewrite Hm. change (0 * inject_Z W)%Q with (inject_Z 0 * inject_Z W)%Q.
            rewrite <- inject_Z_mult, <- Zle_Qle. lia. }
        assert ((inject_Z a <= inject_Z W)%Q) by (rewrite <- Zle_Qle; lia).
        nra. }
      destruct (Z.max_spec w h) as [[Hlt Emax]|[Hle Emax]]; fold W in Emax.
      * assert (h1 = m) by (unfold h1; rewrite <- Emax; exact Hlong).
        pose proof (Hmono w ltac:(lia)). fold w1 in H0. rewrite Hlong in H0. lia.
      * assert (w1 = m) by (unfold w1; rewrite <- Emax; exact Hlong).
        pose proof (Hmono h ltac:(lia)). fold h1 in H0. rewrite Hlong in H0. lia.
    + intros _ Hneg.
      assert (Hs0 : (scale <= 0)%Q).
      { unfold scale, double_div.
        assert (Hq : (max_side / inject_Z W <= 0)%Q).
        { apply Qle_shift_div_r.
          - change 0%Q with (inject_Z 0). rewrite <- Zlt_Qlt. lia.
          - lra. }
        pose proof (to_double_mono _ _ Hq) as H0. by rewrite (to_double_0 0) in H0. }
      assert (Hx : (double_mul (inject_Z w) scale <= 0)%Q).
      { unfold double_mul. pose proof (inject_Z_nonneg w (proj1 Hw)).
        assert (Hp : (inject_Z w * scale <= 0)%Q) by nra.
        pose proof (to_double_mono _ _ Hp) as H0. by rewrite (to_double_0 0) in H0. }
      apply Math_round_le in Hx. fold w1 in Hx.
      change (Math_round 0) with 0 in Hx.
      assert ((0 <? w1) = false) as -> by (apply Z.ltb_ge; lia). done.
Qed.

Lemma prepImage_size_bounds_witness :
  prepImage_size 1600 4000 3000 = Some (1600, 1200) ∧ Z.max 1600 1200 = 1600.
Proof.
  assert (E : prepImage_size 1600 4000 3000 = Some (1600, 1200)) by (vm_compute; reflexivity).
  split; [exact E|].
  destruct (prepImage_size_bounds 1600 4000 3000) as (_ & H & _); [lia | lia |].
  destruct (H 1600 1200 E) as (_ & _ & H').
  destruct H' as (_ & _ & H'); [vm_compute; reflexivity|].
  apply (H' 1600); [reflexivity | lia].
Defined.

(** The shorter side is rounded from the double product, which can fall
    just short of a half that the exact product reaches; and a side that
    rounds to 0 makes the call throw. *)
Example prepImage_size_edges :
  prepImage_size 1600 3712 145 = Some (1600, 62)
  ∧ Math_round (145 * (1600 / 3712)) = 63
  ∧ prepImage_size 1600 4000 1 = None.
Proof. vm_compute. auto. Qed.
